(** * resolver.c: the fork()ing asynchronous name resolver

    A shallow embedding of [resolver.c].  The caller and the worker are two
    processes that share nothing but two pipes; every function of the source
    is a state-passing function on the part of the machine it touches:

    - [fd_read] and [fd_write] loop over the [read] and [write] system calls
      of an arbitrary kernel;
    - [resolver] (the worker), [resolve], [resolve_result] and
      [resolver_start] run on a kernel of pipes and open file descriptions,
      with the caller's heap of [malloc]ed blocks;
    - [sigalrm_handler] runs on the worker's timer and parent pid.

    Integers are [Z] with the wrap-around of their C type written out, memory
    is bytes.  The data model is LP64 little-endian: [sizeof(void * )] and
    [sizeof(size_t)] are 8, [struct addrinfo] is the 48-byte glibc layout. *)

From Stdlib Require Import ZArith Lia.
From coqutil Require Import Byte LittleEndianList.
From stdpp Require Import gmap list strings.

Local Open Scope Z_scope.

Abbreviation byte := Init.Byte.byte.

(** ** Outcomes of a call *)

(** A C call either returns, ends the process through [fatal], stays
    suspended inside a system call, touches memory outside an object, or is
    still looping when the fuel of the model runs out. *)
Inductive outcome (S A : Type) : Type :=
| Ret (a : A) (s : S)
| Fatal (msg : string) (s : S)
| Blocked (s : S)
| Undefined
| OutOfFuel.

Arguments Ret {S A} a s.
Arguments Fatal {S A} msg s.
Arguments Blocked {S A} s.
Arguments Undefined {S A}.
Arguments OutOfFuel {S A}.

Definition M (S A : Type) : Type := S -> outcome S A.

Definition ret {S A} (a : A) : M S A := fun s => Ret a s.

Definition bind {S A B} (m : M S A) (f : A -> M S B) : M S B :=
  fun s =>
    match m s with
    | Ret a s' => f a s'
    | Fatal msg s' => Fatal msg s'
    | Blocked s' => Blocked s'
    | Undefined => Undefined
    | OutOfFuel => OutOfFuel
    end.

Declare Scope io_scope.
Delimit Scope io_scope with io.
Notation "x <- m ;; k" := (bind m (fun x => k))
  (at level 100, m at next level, right associativity) : io_scope.
Notation "m ;;; k" := (bind m (fun _ => k))
  (at level 100, right associativity) : io_scope.
Local Open Scope io_scope.

(** [fatal]: the message goes to stderr and the process exits with
    [EXIT_FAILURE]. *)
Definition fatal {S A} (msg : string) : M S A := fun s => Fatal msg s.

Definition undefined {S A} : M S A := fun _ => Undefined.

Definition get {S} : M S S := fun s => Ret s s.
Definition modify {S} (f : S -> S) : M S unit := fun s => Ret tt (f s).

(** ** Memory objects *)

Definition zeros (n : nat) : list byte := replicate n Byte.x00.

(** Bytes [off .. off + n) of an object; [None] outside it. *)
Definition slice (buf : list byte) (off n : Z) : option (list byte) :=
  if (0 <=? off) && (0 <=? n) && (off + n <=? Z.of_nat (length buf))
  then Some (take (Z.to_nat n) (drop (Z.to_nat off) buf))
  else None.

(** Overwriting an object from offset [off] on; [None] outside it. *)
Definition store (buf : list byte) (off : Z) (data : list byte) : option (list byte) :=
  if (0 <=? off) && (off + Z.of_nat (length data) <=? Z.of_nat (length buf))
  then Some (take (Z.to_nat off) buf ++ data
             ++ drop (Z.to_nat off + length data) buf)
  else None.

(** The C string held by a buffer: the bytes before the first NUL. A buffer
    without a NUL holds none, and reading it as a string runs off its end. *)
Fixpoint cstring (buf : list byte) : option (list byte) :=
  match buf with
  | [] => None
  | b :: rest =>
      if Byte.eqb b Byte.x00 then Some []
      else match cstring rest with
           | Some s => Some (b :: s)
           | None => None
           end
  end.

(** [strlen] of the string that starts at [s]; the object ends with a NUL
    right after the bytes of [s]. *)
Fixpoint strlen (s : list byte) : Z :=
  match s with
  | [] => 0
  | b :: rest => if Byte.eqb b Byte.x00 then 0 else 1 + strlen rest
  end.

Definition wrap64 (z : Z) : Z := z mod 2 ^ 64.

Definition SIZEOF_PTR : Z := 8.
Definition SIZEOF_SIZE_T : Z := 8.

(** The bytes of a pointer or [size_t] object, and the value they hold. *)
Definition word_bytes (v : Z) : list byte := le_split 8 v.
Definition word_val (bs : list byte) : Z := le_combine bs.

(** ** The raw read and write primitives *)

Inductive errno : Type := EINTR | EAGAIN | EBADF | EIO | EPIPE | EFAULT.

(** What [read] gives back: bytes copied to the buffer (their number is the
    return value, none at end of file), or -1 with [errno] set; or the call
    does not come back. *)
Inductive rd : Type :=
| RdGot (data : list byte)
| RdErr (e : errno)
| RdBlock.

(** What [write] gives back: the number of bytes taken, or -1 with [errno]
    set; or the call does not come back. *)
Inductive wr : Type :=
| WrPut (n : Z)
| WrErr (e : errno)
| WrBlock.

Definition errno_is (e : option errno) (x : errno) : bool :=
  match e, x with
  | Some EINTR, EINTR | Some EAGAIN, EAGAIN | Some EBADF, EBADF
  | Some EIO, EIO | Some EPIPE, EPIPE | Some EFAULT, EFAULT => true
  | _, _ => false
  end.

Section RawIO.
Context {K : Type}.

(** The kernel: [sys_read k fd count] and [sys_write k fd bytes]. *)
Variable sys_read : K -> Z -> Z -> rd * K.
Variable sys_write : K -> Z -> list byte -> wr * K.

(** The statement after the loop: [if (ret < 0) fatal(...); return;] *)
Definition io_exit (msg : string) (ret : Z) (buf : list byte) (k : K)
  : outcome K (list byte) :=
  if ret <? 0 then Fatal msg k else Ret buf k.

(** The condition of the [do ... while]:
    [ret || ((ret < 0) && (errno == EINTR || errno == EAGAIN))]. *)
Definition io_again (ret : Z) (e : option errno) : bool :=
  negb (ret =? 0) || ((ret <? 0) && (errno_is e EINTR || errno_is e EAGAIN)).

(** One turn of the loop of [fd_read] per unit of fuel. [p] is the offset
    [p - buf]; [buf] is the object the caller passed, updated in place. *)
Fixpoint fd_read_loop (fuel : nat) (fd : Z) (size : Z)
         (buf : list byte) (p ret todo : Z) (k : K) : outcome K (list byte) :=
  match fuel with
  | O => OutOfFuel
  | S fuel' =>
      let ret := if ret <? 0 then 0 else ret in
      let p := p + ret in
      if p =? size then io_exit "fd_read" ret buf k
      else
        let todo := wrap64 (todo - ret) in
        match sys_read k fd todo with
        | (RdBlock, k') => Blocked k'
        | (RdGot data, k') =>
            match store buf p data with
            | None => Undefined
            | Some buf' =>
                let ret := Z.of_nat (length data) in
                if io_again ret None
                then fd_read_loop fuel' fd size buf' p ret todo k'
                else io_exit "fd_read" ret buf' k'
            end
        | (RdErr e, k') =>
            let ret := -1 in
            if io_again ret (Some e)
            then fd_read_loop fuel' fd size buf p ret todo k'
            else io_exit "fd_read" ret buf k'
        end
  end.

Definition fd_read (fuel : nat) (fd : Z) (buf : list byte) (size : Z)
  : M K (list byte) :=
  fd_read_loop fuel fd size buf 0 0 size.

(** [fd_write]: the same loop around [write]; [buf] is only read. *)
Fixpoint fd_write_loop (fuel : nat) (fd : Z) (size : Z)
         (buf : list byte) (p ret todo : Z) (k : K) : outcome K (list byte) :=
  match fuel with
  | O => OutOfFuel
  | S fuel' =>
      let ret := if ret <? 0 then 0 else ret in
      let p := p + ret in
      if p =? size then io_exit "fd_write" ret buf k
      else
        let todo := wrap64 (todo - ret) in
        match slice buf p todo with
        | None => Undefined
        | Some data =>
            match sys_write k fd data with
            | (WrBlock, k') => Blocked k'
            | (WrPut n, k') =>
                if io_again n None
                then fd_write_loop fuel' fd size buf p n todo k'
                else io_exit "fd_write" n buf k'
            | (WrErr e, k') =>
                let ret := -1 in
                if io_again ret (Some e)
                then fd_write_loop fuel' fd size buf p ret todo k'
                else io_exit "fd_write" ret buf k'
            end
        end
  end.

Definition fd_write (fuel : nat) (fd : Z) (buf : list byte) (size : Z)
  : M K unit :=
  fun k =>
    match fd_write_loop fuel fd size buf 0 0 size k with
    | Ret _ k' => Ret tt k'
    | Fatal msg k' => Fatal msg k'
    | Blocked k' => Blocked k'
    | Undefined => Undefined
    | OutOfFuel => OutOfFuel
    end.
End RawIO.

(** A kernel that plays a script: the n-th [read] gets the n-th entry, and
    once the script is over the descriptor has nothing more to give. *)
Definition script_read (k : list rd) (fd count : Z) : rd * list rd :=
  match k with
  | [] => (RdBlock, [])
  | r :: k' => (r, k')
  end.

Definition script_write (k : list wr) (fd : Z) (data : list byte) : wr * list wr :=
  match k with
  | [] => (WrBlock, [])
  | r :: k' => (r, k')
  end.

(** [delivers s data]: the script hands over [data] in chunks, with failed
    calls in between, and ends with the last chunk. *)
Inductive delivers : list rd -> list byte -> Prop :=
| delivers_done : delivers [] []
| delivers_fail e s data :
    delivers s data -> data <> [] -> delivers (RdErr e :: s) data
| delivers_chunk c s data :
    c <> [] -> delivers s data -> delivers (RdGot c :: s) (c ++ data).

(** ** The machine: pipes, open files and the caller's memory *)

Definition O_RDONLY : Z := 0.
Definition O_WRONLY : Z := 1.
Definition O_NONBLOCK : Z := 2048.

(** An open file description: one end of a pipe and its status flags. *)
Record file : Type := File { f_pipe : Z; f_wr : bool; f_flags : Z }.

(** The kernel objects both processes see, the caller's heap (a bump
    allocator between [brk] and [heap_end]) and the static variables
    [started], [_child], [_fd] and [_fdres] of the caller. *)
Record world : Type := World {
  files : gmap Z file;
  pipes : gmap Z (list byte);
  next_fd : Z;
  nofile : Z;
  heap : gmap Z (list byte);
  brk : Z;
  heap_end : Z;
  started : Z;
  _child : Z;
  _fd : Z;
  _fdres : Z
}.

Definition with_files (f : gmap Z file) (w : world) : world :=
  World f (pipes w) (next_fd w) (nofile w) (heap w) (brk w) (heap_end w)
        (started w) (_child w) (_fd w) (_fdres w).

Definition with_pipes (p : gmap Z (list byte)) (w : world) : world :=
  World (files w) p (next_fd w) (nofile w) (heap w) (brk w) (heap_end w)
        (started w) (_child w) (_fd w) (_fdres w).

Definition with_next_fd (n : Z) (w : world) : world :=
  World (files w) (pipes w) n (nofile w) (heap w) (brk w) (heap_end w)
        (started w) (_child w) (_fd w) (_fdres w).

Definition with_heap (h : gmap Z (list byte)) (w : world) : world :=
  World (files w) (pipes w) (next_fd w) (nofile w) h (brk w) (heap_end w)
        (started w) (_child w) (_fd w) (_fdres w).

Definition with_brk (b : Z) (w : world) : world :=
  World (files w) (pipes w) (next_fd w) (nofile w) (heap w) b (heap_end w)
        (started w) (_child w) (_fd w) (_fdres w).

Definition with_statics (s c fd fdres : Z) (w : world) : world :=
  World (files w) (pipes w) (next_fd w) (nofile w) (heap w) (brk w) (heap_end w)
        s c fd fdres.

(** The pipe [q] with contents [c]. *)
Definition chan_put (q : Z) (c : list byte) (w : world) : world :=
  with_pipes (<[q := c]> (pipes w)) w.

(** The caller's memory with blocks [h] and break [b]. *)
Definition mem_put (h : gmap Z (list byte)) (b : Z) (w : world) : world :=
  with_brk b (with_heap h w).

(** The bytes waiting behind a descriptor. *)
Definition channel (w : world) (fd : Z) : option (list byte) :=
  match files w !! fd with
  | Some f => pipes w !! f_pipe f
  | None => None
  end.

Definition nonblocking (w : world) (fd : Z) : bool :=
  match files w !! fd with
  | Some f => Z.testbit (f_flags f) 11
  | None => false
  end.

(** [read] on the read end of a pipe takes what is there, up to [count]
    bytes. On an empty pipe it waits, or fails with [EAGAIN] when the
    description is non-blocking: end of file cannot happen, since
    [resolver_start] leaves both ends of both pipes open in both processes. *)
Definition pipe_read (w : world) (fd count : Z) : rd * world :=
  match files w !! fd with
  | Some f =>
      if f_wr f then (RdErr EBADF, w)
      else match pipes w !! f_pipe f with
           | Some [] =>
               if Z.testbit (f_flags f) 11 then (RdErr EAGAIN, w) else (RdBlock, w)
           | Some c =>
               let n := Z.to_nat (Z.min count (Z.of_nat (length c))) in
               (RdGot (take n c), with_pipes (<[f_pipe f := drop n c]> (pipes w)) w)
           | None => (RdErr EBADF, w)
           end
  | None => (RdErr EBADF, w)
  end.

(** [write] on the write end of a pipe that has room for the bytes: they
    are appended. The pipe is here the stream of bytes written and not yet
    read, which is what the writer has produced once any wait for the
    reader is over. What [write] does with bytes that do not fit, and the
    wait itself, is [Bounded.pipe_write] below; the two agree whenever the
    bytes fit. *)
Definition pipe_write (w : world) (fd : Z) (data : list byte) : wr * world :=
  match files w !! fd with
  | Some f =>
      if f_wr f
      then match pipes w !! f_pipe f with
           | Some c =>
               (WrPut (Z.of_nat (length data)),
                with_pipes (<[f_pipe f := c ++ data]> (pipes w)) w)
           | None => (WrErr EBADF, w)
           end
      else (WrErr EBADF, w)
  | None => (WrErr EBADF, w)
  end.

(** [pipe(fds)]: two new descriptors, or -1 when the table is full. *)
Definition sys_pipe : M world (Z * (Z * Z)) :=
  fun w =>
    if nofile w <? next_fd w + 2 then Ret (-1, (0, 0)) w
    else
      let r := next_fd w in
      let wfd := next_fd w + 1 in
      Ret (0, (r, wfd))
          (with_next_fd (next_fd w + 2)
             (with_pipes (<[r := []]> (pipes w))
                (with_files (<[wfd := File r true O_WRONLY]>
                               (<[r := File r false O_RDONLY]> (files w))) w))).

(** [fcntl(fd, F_GETFL)] and [fcntl(fd, F_SETFL, flags)]. *)
Definition fcntl_getfl (fd : Z) : M world Z :=
  fun w =>
    match files w !! fd with
    | Some f => Ret (f_flags f) w
    | None => Ret (-1) w
    end.

Definition fcntl_setfl (fd flags : Z) : M world Z :=
  fun w =>
    match files w !! fd with
    | Some f =>
        Ret 0 (with_files (<[fd := File (f_pipe f) (f_wr f) flags]> (files w)) w)
    | None => Ret (-1) w
    end.

Definition fd_setnonblock (fd : Z) : M world unit :=
  flags <- fcntl_getfl fd;;
  let flags := Z.lor flags O_NONBLOCK in
  fcntl_setfl fd flags;;;
  ret tt.

Definition fd_setblock (fd : Z) : M world unit :=
  flags <- fcntl_getfl fd;;
  let flags := Z.land flags (Z.lnot O_NONBLOCK) in
  fcntl_setfl fd flags;;;
  ret tt.

(** [malloc]: a new block at [brk], NULL when the arena is used up. Blocks
    never overlap, also when [sz] is 0. *)
Definition malloc (sz : Z) : M world Z :=
  fun w =>
    if heap_end w <? brk w + Z.max sz 1 then Ret 0 w
    else Ret (brk w)
             (with_brk (brk w + Z.max sz 1)
                (with_heap (<[brk w := zeros (Z.to_nat sz)]> (heap w)) w)).

Definition memset0 (p sz : Z) : M world unit :=
  fun w =>
    match heap w !! p with
    | Some blk =>
        match store blk 0 (zeros (Z.to_nat sz)) with
        | Some blk' => Ret tt (with_heap (<[p := blk']> (heap w)) w)
        | None => Undefined
        end
    | None => Undefined
    end.

Definition xmalloc (sz : Z) : M world Z :=
  p <- malloc sz;;
  if p =? 0 then fatal "malloc"
  else memset0 p sz;;; ret p.

(** Reading and writing part of a heap block. *)
Definition load (p off n : Z) : M world (list byte) :=
  fun w =>
    match heap w !! p with
    | Some blk =>
        match slice blk off n with
        | Some bs => Ret bs w
        | None => Undefined
        end
    | None => Undefined
    end.

Definition poke (p off : Z) (data : list byte) : M world unit :=
  fun w =>
    match heap w !! p with
    | Some blk =>
        match store blk off data with
        | Some blk' => Ret tt (with_heap (<[p := blk']> (heap w)) w)
        | None => Undefined
        end
    | None => Undefined
    end.

(** The loops of [fd_read] and [fd_write] take at most one turn per byte and
    one more to leave, unless the kernel keeps failing. *)
Definition io_fuel (size : Z) : nat := S (S (Z.to_nat size)).

Definition fd_read_w (fd : Z) (buf : list byte) (size : Z) : M world (list byte) :=
  fd_read pipe_read (io_fuel size) fd buf size.

Definition fd_write_w (fd : Z) (buf : list byte) (size : Z) : M world unit :=
  fd_write pipe_write (io_fuel size) fd buf size.

(** [fd_read(fd, p, size)] with [p] a heap block. *)
Definition fd_read_heap (fd p size : Z) : M world unit :=
  fun w =>
    match heap w !! p with
    | Some blk =>
        (blk' <- fd_read_w fd blk size;;
         modify (fun w' => with_heap (<[p := blk']> (heap w')) w')) w
    | None => Undefined
    end.

(** ** [struct addrinfo] *)

Definition SIZEOF_ADDRINFO : Z := 48.
Definition OFF_ai_addrlen : Z := 16.
Definition OFF_ai_addr : Z := 24.
Definition OFF_ai_next : Z := 40.

Definition AF_INET : Z := 2.
Definition SOCK_STREAM : Z := 1.
Definition AI_PASSIVE : Z := 1.

(** The fields of [hints] the worker sets; the rest is zeroed. *)
Record hints_t : Type := Hints {
  h_family : Z; h_socktype : Z; h_flags : Z; h_protocol : Z
}.

(** A record of the list [getaddrinfo] builds in the worker's memory: the
    bytes of the [struct addrinfo] and the object its [ai_addr] points to. *)
Record ai_node : Type := AiNode { ai_struct : list byte; ai_sockaddr : list byte }.

(** The [socklen_t] field [ai_addrlen] of a [struct addrinfo]. *)
Definition ai_addrlen (st : list byte) : Z :=
  le_combine (take 4 (drop (Z.to_nat OFF_ai_addrlen) st)).

Definition ai_addr (st : list byte) : Z :=
  le_combine (take 8 (drop (Z.to_nat OFF_ai_addr) st)).

Definition ai_next (st : list byte) : Z :=
  le_combine (take 8 (drop (Z.to_nat OFF_ai_next) st)).

(** [getaddrinfo] either fills [*res] and returns 0, or returns an error
    code and leaves [*res] alone. *)
Inductive gai_result : Type :=
| GaiOk (res : list ai_node)
| GaiErr (code : Z).

(** ** The worker *)

(** [char host[4096], port[5]]: what [sizeof] gives for them. *)
Definition sizeof_host : Z := 4096.
Definition sizeof_port : Z := 5.

Section Worker.
(** The platform's lookup: node, service, hints. *)
Variable getaddrinfo : list byte -> list byte -> hints_t -> gai_result.

(** The second [for] of the loop body. *)
Fixpoint write_results (fd_out : Z) (res : list ai_node) : M world unit :=
  match res with
  | [] => ret tt
  | rp :: rest =>
      fd_write_w fd_out (ai_struct rp) SIZEOF_ADDRINFO;;;
      fd_write_w fd_out (ai_sockaddr rp) (ai_addrlen (ai_struct rp));;;
      write_results fd_out rest
  end.

(** The first half of a turn of the [for (;;)] of [resolver]: the request
    is read into [ptr], [host] and [port]. The locals [ptr], [host_len] and
    [port_len] are overwritten whole before they are used. *)
Definition read_request (fd_in : Z)
  : M world (list byte * (list byte * list byte)) :=
  let host := zeros (Z.to_nat sizeof_host) in
  let port := zeros (Z.to_nat sizeof_port) in
  ptr <- fd_read_w fd_in (zeros 8) SIZEOF_PTR;;
  host_len <- fd_read_w fd_in (zeros 8) SIZEOF_SIZE_T;;
  let host_len := word_val host_len in
  if host_len >? sizeof_host then fatal "invalid host_len" else
  host <- fd_read_w fd_in host host_len;;
  port_len <- fd_read_w fd_in (zeros 8) SIZEOF_SIZE_T;;
  let port_len := word_val port_len in
  if port_len >? sizeof_port then fatal "invalid port_len" else
  port <- fd_read_w fd_in port port_len;;
  ret (ptr, (host, port)).

(** The second half: the lookup and the response. [host] and [port] go to
    [getaddrinfo] as C strings. *)
Definition answer (fd_out : Z) (ptr host port : list byte) : M world unit :=
  let hints := Hints AF_INET SOCK_STREAM AI_PASSIVE 0 in
  match cstring host, cstring port with
  | Some node, Some service =>
      let res := [] in
      let '(ret, res) :=
        match getaddrinfo node service hints with
        | GaiOk l => (0, l)
        | GaiErr code => (code, res)
        end in
      fd_write_w fd_out ptr SIZEOF_PTR;;;
      let nrresults := wrap64 (Z.of_nat (length res)) in
      fd_write_w fd_out (word_bytes nrresults) SIZEOF_SIZE_T;;;
      write_results fd_out res
  | _, _ => undefined
  end.

Definition resolver_body (fd_in fd_out : Z) : M world unit :=
  r <- read_request fd_in;;
  answer fd_out (fst r) (fst (snd r)) (snd (snd r)).

(** [resolver]: the body, [n] times over. *)
Fixpoint resolver (n : nat) (fd_in fd_out : Z) : M world unit :=
  match n with
  | O => ret tt
  | S n' => resolver_body fd_in fd_out;;; resolver n' fd_in fd_out
  end.
End Worker.

(** ** The caller *)

Definition resolve (p : Z) (host port : list byte) : M world unit :=
  w <- get;;
  let fd := _fd w in
  fd_write_w fd (word_bytes p) SIZEOF_PTR;;;
  let len := strlen host in
  fd_write_w fd (word_bytes len) SIZEOF_SIZE_T;;;
  fd_write_w fd host len;;;
  let len := strlen port in
  fd_write_w fd (word_bytes len) SIZEOF_SIZE_T;;;
  fd_write_w fd port len;;;
  ret tt.

(** The [for] of [resolve_result]; it hands back [first] and [last]. *)
Fixpoint resolve_result_loop (n : nat) (fdres i first last : Z)
  : M world (Z * Z) :=
  match n with
  | O => ret (first, last)
  | S n' =>
      rp <- xmalloc SIZEOF_ADDRINFO;;
      fl <- (if i =? 0 then ret (rp, rp)
             else poke last OFF_ai_next (word_bytes rp);;; ret (first, rp));;
      fd_read_heap fdres rp SIZEOF_ADDRINFO;;;
      len <- load rp OFF_ai_addrlen 4;;
      a <- xmalloc (le_combine len);;
      poke rp OFF_ai_addr (word_bytes a);;;
      fd_read_heap fdres a (le_combine len);;;
      resolve_result_loop n' fdres (wrap64 (i + 1)) (fst fl) (snd fl)
  end.

(** [resolve_result(&p, &r)] gives back [( *p, *r)]. *)
Definition resolve_result : M world (Z * Z) :=
  w <- get;;
  let fdres := _fdres w in
  fd_setblock fdres;;;
  rt <- fd_read_w fdres (zeros 8) SIZEOF_PTR;;
  nrresults <- fd_read_w fdres (word_bytes 0) SIZEOF_SIZE_T;;
  let nrresults := word_val nrresults in
  fl <- resolve_result_loop (Z.to_nat nrresults) fdres 0 0 0;;
  let first := fst fl in
  let last := snd fl in
  (if last =? 0 then ret tt else poke last OFF_ai_next (word_bytes 0));;;
  fd_setnonblock fdres;;;
  ret (word_val rt, first).

(** ** Starting and stopping; the worker's signals *)

Definition ALARM_TIMEOUT : Z := 1.
Definition EXIT_SUCCESS : Z := 0.
Definition EXIT_FAILURE : Z := 1.

Inductive handler : Type :=
| SIG_DFL
| sigpipe_handler_at
| sigalrm_handler_at
| sigterm_handler_at.

(** What a process knows about its signals: the three dispositions the
    worker sets, the seconds left on its [alarm] timer (0: not armed) and
    its exit status once it is gone. *)
Record proc : Type := Proc {
  on_sigpipe : handler;
  on_sigalrm : handler;
  on_sigterm : handler;
  alarm_left : Z;
  exited : option Z
}.

Inductive signum : Type := SIGPIPE | SIGALRM | SIGTERM.

Definition signal (sig : signum) (h : handler) (p : proc) : proc :=
  match sig with
  | SIGPIPE => Proc h (on_sigalrm p) (on_sigterm p) (alarm_left p) (exited p)
  | SIGALRM => Proc (on_sigpipe p) h (on_sigterm p) (alarm_left p) (exited p)
  | SIGTERM => Proc (on_sigpipe p) (on_sigalrm p) h (alarm_left p) (exited p)
  end.

Definition alarm (seconds : Z) (p : proc) : proc :=
  Proc (on_sigpipe p) (on_sigalrm p) (on_sigterm p) seconds (exited p).

Definition exit (status : Z) (p : proc) : proc :=
  Proc (on_sigpipe p) (on_sigalrm p) (on_sigterm p) (alarm_left p) (Some status).

Definition sigpipe_handler (p : proc) : proc := exit EXIT_FAILURE p.

(** [getppid] is what the kernel says the parent is at that moment. *)
Definition sigalrm_handler (getppid : Z) (p : proc) : proc :=
  if negb (getppid =? 1) then alarm ALARM_TIMEOUT p
  else exit EXIT_FAILURE p.

Definition sigterm_handler (p : proc) : proc := exit EXIT_SUCCESS p.

(** Delivery of a signal: the installed handler runs; the default action of
    the three signals is to end the process (status 128 + signal number). *)
Definition deliver (sig : signum) (getppid : Z) (p : proc) : proc :=
  let h := match sig with
           | SIGPIPE => on_sigpipe p
           | SIGALRM => on_sigalrm p
           | SIGTERM => on_sigterm p
           end in
  match h with
  | SIG_DFL =>
      exit (128 + match sig with SIGPIPE => 13 | SIGALRM => 14 | SIGTERM => 15 end) p
  | sigpipe_handler_at => sigpipe_handler p
  | sigalrm_handler_at => sigalrm_handler getppid p
  | sigterm_handler_at => sigterm_handler p
  end.

(** One second goes by in a process whose parent is [getppid]. *)
Definition tick (getppid : Z) (p : proc) : proc :=
  match exited p with
  | Some _ => p
  | None =>
      if alarm_left p =? 0 then p
      else if alarm_left p =? 1 then deliver SIGALRM getppid (alarm 0 p)
      else alarm (alarm_left p - 1) p
  end.

(** The seconds of a run, each with the parent the kernel reports then. *)
Fixpoint ticks (parents : list Z) (p : proc) : proc :=
  match parents with
  | [] => p
  | pp :: rest => ticks rest (tick pp p)
  end.

(** Where [resolver_start] leaves the process that ran it: the caller gets
    a descriptor back; the child is inside [resolver(fd_in, fd_out)], which
    does not return. *)
Inductive start_result : Type :=
| InCaller (fd : Z)
| InWorker (fd_in fd_out : Z) (sig : proc).

(** [pid] is what [fork] returns in this process, [sig] its signal state. *)
Definition resolver_start (pid : Z) (sig : proc) : M world start_result :=
  w <- get;;
  if negb (started w =? 0) then fatal "resolver already started" else
  r <- sys_pipe;;
  if fst r <? 0 then fatal "pipe" else
  let fds := snd r in
  r <- sys_pipe;;
  if fst r <? 0 then fatal "pipe" else
  let fds2 := snd r in
  if pid =? -1 then fatal "fork"
  else if pid =? 0 then
    modify (fun w => with_statics 1 (_child w) (_fd w) (_fdres w) w);;;
    let sig := signal SIGPIPE sigpipe_handler_at sig in
    let sig := signal SIGALRM sigalrm_handler_at sig in
    let sig := signal SIGTERM sigterm_handler_at sig in
    let sig := alarm ALARM_TIMEOUT sig in
    ret (InWorker (fst fds) (snd fds2) sig)
  else
    modify (fun w => with_statics 1 pid (_fd w) (_fdres w) w);;;
    modify (fun w => with_statics (started w) (_child w) (snd fds) (_fdres w) w);;;
    modify (fun w => with_statics (started w) (_child w) (_fd w) (fst fds2) w);;;
    ret (InCaller (fst fds2)).

(** The descriptor table and the machine once [resolver_start] has made
    its two pipes. *)
Definition piped_files (w : world) : gmap Z file :=
  <[next_fd w + 3 := File (next_fd w + 2) true O_WRONLY]>
    (<[next_fd w + 2 := File (next_fd w + 2) false O_RDONLY]>
       (<[next_fd w + 1 := File (next_fd w) true O_WRONLY]>
          (<[next_fd w := File (next_fd w) false O_RDONLY]> (files w)))).

Definition piped (w : world) : world :=
  with_next_fd (next_fd w + 4)
    (with_pipes (<[next_fd w + 2 := []]> (<[next_fd w := []]> (pipes w)))
       (with_files (piped_files w) w)).

(** The signal state [resolver_start] gives the worker. *)
Definition worker_signals (sig : proc) : proc :=
  alarm ALARM_TIMEOUT
    (signal SIGTERM sigterm_handler_at
       (signal SIGALRM sigalrm_handler_at
          (signal SIGPIPE sigpipe_handler_at sig))).

(** [resolver_stop]: SIGTERM for the child. *)
Definition resolver_stop (getppid : Z) (child : proc) : proc :=
  deliver SIGTERM getppid child.

(** ** Frames on the wire *)

Definition request_frame (p : Z) (host port : list byte) : list byte :=
  word_bytes p
  ++ word_bytes (Z.of_nat (length host)) ++ host
  ++ word_bytes (Z.of_nat (length port)) ++ port.

(** What the worker sends of one record. *)
Definition record_bytes (n : ai_node) : list byte :=
  take 48 (ai_struct n)
  ++ take (Z.to_nat (ai_addrlen (ai_struct n))) (ai_sockaddr n).

Definition records_bytes (res : list ai_node) : list byte :=
  concat (map record_bytes res).

(** The record the other side can rebuild from those bytes. *)
Definition on_wire (n : ai_node) : ai_node :=
  AiNode (take 48 (ai_struct n))
         (take (Z.to_nat (ai_addrlen (ai_struct n))) (ai_sockaddr n)).

Definition wire_ok (n : ai_node) : Prop :=
  length (ai_struct n) = 48%nat
  /\ Z.of_nat (length (ai_sockaddr n)) = ai_addrlen (ai_struct n).

Definition response_frame (ptr : list byte) (res : list ai_node) : list byte :=
  ptr ++ word_bytes (Z.of_nat (length res)) ++ records_bytes res.

(** A record as [getaddrinfo] leaves it: the structure is whole and
    [ai_addr] points to [ai_addrlen] bytes at least. *)
Definition node_ok (n : ai_node) : Prop :=
  length (ai_struct n) = 48%nat
  /\ Z.of_nat (length (ai_sockaddr n)) >= ai_addrlen (ai_struct n).

Definition gai_list (r : gai_result) : list ai_node :=
  match r with
  | GaiOk l => l
  | GaiErr _ => []
  end.

Definition gai_ok (getaddrinfo : list byte -> list byte -> hints_t -> gai_result)
  : Prop :=
  forall node service hints,
    Forall node_ok (gai_list (getaddrinfo node service hints))
    /\ Z.of_nat (length (gai_list (getaddrinfo node service hints))) < 2 ^ 64.

(** ** The list [resolve_result] hands to the caller *)

Definition set_ai_addr (st : list byte) (a : Z) : list byte :=
  take 24 st ++ word_bytes a ++ drop 32 st.

Definition set_ai_next (st : list byte) (a : Z) : list byte :=
  take 40 st ++ word_bytes a.

(** [ai_list h p l]: from [p], following [ai_next] up to NULL, the heap [h]
    holds the records [l], each with the bytes its [ai_addr] points to. *)
Inductive ai_list (h : gmap Z (list byte)) : Z -> list (Z * ai_node) -> Prop :=
| ai_list_nil : ai_list h 0 []
| ai_list_cons p st blob l :
    p <> 0 ->
    h !! p = Some st ->
    length st = 48%nat ->
    h !! ai_addr st = Some blob ->
    ai_list h (ai_next st) l ->
    ai_list h p ((p, AiNode st blob) :: l).

(** The same walk as a function, for at most [fuel] records. *)
Fixpoint ai_walk (fuel : nat) (h : gmap Z (list byte)) (p : Z)
  : option (list (Z * ai_node)) :=
  if p =? 0 then Some []
  else match fuel with
       | O => None
       | S fuel' =>
           match h !! p with
           | Some st =>
               match h !! ai_addr st, ai_walk fuel' h (ai_next st) with
               | Some blob, Some l => Some ((p, AiNode st blob) :: l)
               | _, _ => None
               end
           | None => None
           end
       end.

(** Where the bump allocator puts the records of a response, from [b] on. *)
Definition node_span (n : ai_node) : Z :=
  48 + Z.max (ai_addrlen (ai_struct n)) 1.

Fixpoint node_addrs (b : Z) (res : list ai_node) : list Z :=
  match res with
  | [] => []
  | n :: rest => b :: node_addrs (b + node_span n) rest
  end.

Definition first_addr (b : Z) (res : list ai_node) : Z :=
  match res with
  | [] => 0
  | _ => b
  end.

(** The heap once the records [res], as they came over the wire, have been
    linked in from address [b] on. *)
Fixpoint built (b : Z) (res : list ai_node) (h : gmap Z (list byte))
  : gmap Z (list byte) :=
  match res with
  | [] => h
  | n :: rest =>
      let st := set_ai_next (set_ai_addr (ai_struct n) (b + 48))
                            (first_addr (b + node_span n) rest) in
      built (b + node_span n) rest
            (<[b + 48 := ai_sockaddr n]> (<[b := st]> h))
  end.

Fixpoint heap_need (res : list ai_node) : Z :=
  match res with
  | [] => 0
  | n :: rest => node_span n + heap_need rest
  end.

(** The caller's records, as the caller sees them. *)
Fixpoint linked (b : Z) (res : list ai_node) : list (Z * ai_node) :=
  match res with
  | [] => []
  | n :: rest =>
      (b, AiNode (set_ai_next (set_ai_addr (ai_struct n) (b + 48))
                              (first_addr (b + node_span n) rest))
                 (ai_sockaddr n))
      :: linked (b + node_span n) rest
  end.

(** The flags of the descriptor after [fd_setblock] and [fd_setnonblock]. *)
Definition nonblock_on (fl : Z) : Z :=
  Z.lor (Z.land fl (Z.lnot O_NONBLOCK)) O_NONBLOCK.

(** ** Invariants of the machine *)

(** The heap of a running caller: blocks lie below [brk], and the arena fits
    the address space. *)
Definition heap_ok (w : world) : Prop :=
  0 < brk w <= heap_end w /\ heap_end w <= 2 ^ 64
  /\ forall a, is_Some (heap w !! a) -> a < brk w.

(** The two pipes as [resolver_start] leaves them: [qa] carries requests
    from [_fd] to [fd_in], [qb] carries responses from [fd_out] to
    [_fdres]; the worker reads in blocking mode. *)
Definition wired (w : world) (fd_in fd_out qa qb : Z) : Prop :=
  qa <> qb
  /\ (exists fl, files w !! _fd w = Some (File qa true fl))
  /\ files w !! fd_in = Some (File qa false O_RDONLY)
  /\ (exists fl, files w !! fd_out = Some (File qb true fl))
  /\ (exists fl, files w !! _fdres w = Some (File qb false fl)).

(** ** The capacity of a pipe *)

(** [pipe_write] above is [write] on a pipe as long as the bytes fit. A pipe
    holds [PIPE_CAPACITY] bytes at most (Linux: 16 pages), and pipe(7) says
    what [write] does with [n] bytes that do not fit: on a blocking
    descriptor the call stays in [write] until a reader has made room, and
    above [PIPE_BUF] bytes what fits is in the pipe by then; on a
    non-blocking one it fails with [EAGAIN], or above [PIPE_BUF] takes the
    bytes that fit. [Bounded] has this kernel, and on it the functions of
    the source that write: they are the ones above, word for word. *)
Definition PIPE_BUF : Z := 4096.
Definition PIPE_CAPACITY : Z := 65536.

(** A call that is still inside a system call. *)
Definition waits {S A} (o : outcome S A) : Prop := exists s, o = Blocked s.

Module Bounded.

Definition pipe_write (w : world) (fd : Z) (data : list byte) : wr * world :=
  match files w !! fd with
  | Some f =>
      if f_wr f
      then match pipes w !! f_pipe f with
           | Some c =>
               let n := Z.of_nat (length data) in
               let room := PIPE_CAPACITY - Z.of_nat (length c) in
               let part :=
                 with_pipes (<[f_pipe f := c ++ take (Z.to_nat room) data]> (pipes w)) w in
               if n <=? room
               then (WrPut n, with_pipes (<[f_pipe f := c ++ data]> (pipes w)) w)
               else if Z.testbit (f_flags f) 11
                    then if (n <=? PIPE_BUF) || (room <=? 0)
                         then (WrErr EAGAIN, w)
                         else (WrPut room, part)
                    else if n <=? PIPE_BUF then (WrBlock, w)
                         else (WrBlock, part)
           | None => (WrErr EBADF, w)
           end
      else (WrErr EBADF, w)
  | None => (WrErr EBADF, w)
  end.

Definition fd_write_w (fd : Z) (buf : list byte) (size : Z) : M world unit :=
  fd_write pipe_write (io_fuel size) fd buf size.

Section Worker.
Variable getaddrinfo : list byte -> list byte -> hints_t -> gai_result.

Fixpoint write_results (fd_out : Z) (res : list ai_node) : M world unit :=
  match res with
  | [] => ret tt
  | rp :: rest =>
      fd_write_w fd_out (ai_struct rp) SIZEOF_ADDRINFO;;;
      fd_write_w fd_out (ai_sockaddr rp) (ai_addrlen (ai_struct rp));;;
      write_results fd_out rest
  end.

Definition answer (fd_out : Z) (ptr host port : list byte) : M world unit :=
  let hints := Hints AF_INET SOCK_STREAM AI_PASSIVE 0 in
  match cstring host, cstring port with
  | Some node, Some service =>
      let res := [] in
      let '(ret, res) :=
        match getaddrinfo node service hints with
        | GaiOk l => (0, l)
        | GaiErr code => (code, res)
        end in
      fd_write_w fd_out ptr SIZEOF_PTR;;;
      let nrresults := wrap64 (Z.of_nat (length res)) in
      fd_write_w fd_out (word_bytes nrresults) SIZEOF_SIZE_T;;;
      write_results fd_out res
  | _, _ => undefined
  end.

Definition resolver_body (fd_in fd_out : Z) : M world unit :=
  r <- read_request fd_in;;
  answer fd_out (fst r) (fst (snd r)) (snd (snd r)).

Fixpoint resolver (n : nat) (fd_in fd_out : Z) : M world unit :=
  match n with
  | O => ret tt
  | S n' => resolver_body fd_in fd_out;;; resolver n' fd_in fd_out
  end.
End Worker.

Definition resolve (p : Z) (host port : list byte) : M world unit :=
  w <- get;;
  let fd := _fd w in
  fd_write_w fd (word_bytes p) SIZEOF_PTR;;;
  let len := strlen host in
  fd_write_w fd (word_bytes len) SIZEOF_SIZE_T;;;
  fd_write_w fd host len;;;
  let len := strlen port in
  fd_write_w fd (word_bytes len) SIZEOF_SIZE_T;;;
  fd_write_w fd port len;;;
  ret tt.

End Bounded.

(** ** The two processes together *)

Inductive action : Type :=
| Submit (p : Z) (host port : list byte)
| Work
| Fetch.

(** What [resolve_result] gave back, with the heap it left. *)
Record fetched_t : Type := Fetched {
  got_tag : Z; got_list : Z; got_heap : gmap Z (list byte)
}.

Record system : Type := System {
  machine : world;
  fd_in : Z;
  fd_out : Z;
  worker_up : bool;
  caller_up : bool;
  submitted : list (Z * (list byte * list byte));
  fetched : list fetched_t
}.

Section Together.
Variable getaddrinfo : list byte -> list byte -> hints_t -> gai_result.

(** One scheduling decision: the caller calls [resolve] or
    [resolve_result], or the worker runs one turn of its loop, on the kernel
    whose pipes have a capacity. A call that cannot go on yet, for lack of
    bytes to read or of room to write, leaves the system as it was, to be
    tried again; a process that exits or goes wrong is down for good. *)
Definition step (a : action) (s : system) : system :=
  match a with
  | Submit p host port =>
      if caller_up s then
        match Bounded.resolve p host port (machine s) with
        | Ret _ w' =>
            System w' (fd_in s) (fd_out s) (worker_up s) true
                   (submitted s ++ [(p, (host, port))]) (fetched s)
        | Blocked _ => s
        | Fatal _ w' =>
            System w' (fd_in s) (fd_out s) (worker_up s) false
                   (submitted s) (fetched s)
        | _ =>
            System (machine s) (fd_in s) (fd_out s) (worker_up s) false
                   (submitted s) (fetched s)
        end
      else s
  | Work =>
      if worker_up s then
        match Bounded.resolver_body getaddrinfo (fd_in s) (fd_out s) (machine s) with
        | Ret _ w' =>
            System w' (fd_in s) (fd_out s) true (caller_up s)
                   (submitted s) (fetched s)
        | Blocked _ => s
        | Fatal _ w' =>
            System w' (fd_in s) (fd_out s) false (caller_up s)
                   (submitted s) (fetched s)
        | _ =>
            System (machine s) (fd_in s) (fd_out s) false (caller_up s)
                   (submitted s) (fetched s)
        end
      else s
  | Fetch =>
      if caller_up s then
        match resolve_result (machine s) with
        | Ret r w' =>
            System w' (fd_in s) (fd_out s) (worker_up s) true
                   (submitted s)
                   (fetched s ++ [Fetched (fst r) (snd r) (heap w')])
        | Blocked _ => s
        | Fatal _ w' =>
            System w' (fd_in s) (fd_out s) (worker_up s) false
                   (submitted s) (fetched s)
        | _ =>
            System (machine s) (fd_in s) (fd_out s) (worker_up s) false
                   (submitted s) (fetched s)
        end
      else s
  end.

Fixpoint run (schedule : list action) (s : system) : system :=
  match schedule with
  | [] => s
  | a :: rest => run rest (step a s)
  end.

(** The system right after [resolver_start] in a process with child [pid]:
    the caller holds the descriptor, the child is in [resolver]. *)
Definition boot (pid : Z) (sig : proc) (w : world) : option system :=
  match resolver_start pid sig w, resolver_start 0 sig w with
  | Ret (InCaller _) w', Ret (InWorker i o _) _ =>
      Some (System w' i o true true [] [])
  | _, _ => None
  end.

(** The response a request is owed. *)
Definition owed (req : Z * (list byte * list byte)) : list ai_node :=
  gai_list (getaddrinfo (fst (snd req)) (snd (snd req))
                        (Hints AF_INET SOCK_STREAM AI_PASSIVE 0)).
End Together.

(** A request the worker can take: a pointer-sized tag, NUL-free strings
    that leave room for the terminator in [host] and [port]. *)
Definition request_ok (req : Z * (list byte * list byte)) : Prop :=
  0 <= fst req < 2 ^ 64
  /\ (Byte.x00 ∉ fst (snd req)) /\ Z.of_nat (length (fst (snd req))) <= 4095
  /\ (Byte.x00 ∉ snd (snd req)) /\ Z.of_nat (length (snd (snd req))) <= 4.


(** What a record tells the caller: the first 24 bytes of the structure
    ([ai_flags], [ai_family], [ai_socktype], [ai_protocol], [ai_addrlen])
    and the bytes of the address. *)
Definition payload (n : ai_node) : list byte * list byte :=
  (take 24 (ai_struct n), ai_sockaddr n).

Section Bookkeeping.
Variable getaddrinfo : list byte -> list byte -> hints_t -> gai_result.


Definition frames (reqs : list (Z * (list byte * list byte))) : list byte :=
  concat ((fun r => request_frame (fst r) (fst (snd r)) (snd (snd r))) <$> reqs).

Definition responses (reqs : list (Z * (list byte * list byte))) : list byte :=
  concat ((fun r => response_frame (word_bytes (fst r)) (owed getaddrinfo r))
            <$> reqs).



End Bookkeeping.

(** ** A small machine to run things on *)

(** A process with descriptors 0 to 2 open, nothing allocated, an arena of
    60 KiB and default signal dispositions. *)
Definition fresh_world : world := World ∅ ∅ 3 1024 ∅ 4096 65536 0 0 0 0.

Definition idle_proc : proc := Proc SIG_DFL SIG_DFL SIG_DFL 0 None.

(** The caller after [resolver_start] with child 77: requests go from
    descriptor 4 to 3, responses from 6 to 5. *)
Definition started_world : world := with_statics 1 77 4 5 (piped fresh_world).

(** An [AF_INET] stream record with a 16-byte address ending in [last]. *)
Definition sample_node (last : byte) (next : Z) : ai_node :=
  AiNode (le_split 4 AI_PASSIVE ++ le_split 4 AF_INET ++ le_split 4 SOCK_STREAM
          ++ le_split 4 6 ++ le_split 4 16 ++ zeros 4
          ++ le_split 8 24576 ++ le_split 8 0 ++ le_split 8 next)
         (le_split 2 AF_INET ++ le_split 2 80 ++ [Byte.x7f; Byte.x00; Byte.x00; last]
          ++ zeros 8).

(** A lookup that knows no name starting with [i], and two addresses for
    every other name. *)
Definition sample_lookup (node service : list byte) (hints : hints_t) : gai_result :=
  match node with
  | [] => GaiErr (-2)
  | b :: _ =>
      if Byte.eqb b Byte.x69 then GaiErr (-2)
      else GaiOk [sample_node Byte.x01 28672; sample_node Byte.x02 0]
  end.

Definition str_a : list byte := [Byte.x61].
Definition str_b : list byte := [Byte.x62].
Definition str_invalid : list byte :=
  [Byte.x69; Byte.x6e; Byte.x76; Byte.x61; Byte.x6c; Byte.x69; Byte.x64].
Definition str_80 : list byte := [Byte.x38; Byte.x30].
Definition str_12345 : list byte :=
  [Byte.x31; Byte.x32; Byte.x33; Byte.x34; Byte.x35].

(** A host name that fills [host] to the last byte. *)
Definition long_host : list byte := replicate (Z.to_nat sizeof_host) Byte.x61.

Definition sample_schedule : list action :=
  [Submit 1 str_a str_80; Submit 2 str_invalid str_80; Work;
   Submit 3 str_b str_80; Fetch; Work; Work; Fetch; Fetch].

(** The machine once the worker has served [resolve(1, "a", "80")]. *)
Definition served_world : world :=
  match bind (resolve 1 str_a str_80)
             (fun _ => resolver_body sample_lookup 3 6) started_world with
  | Ret _ w => w
  | _ => started_world
  end.


(** ** More to run the primitives on *)

(** A kernel whose [write] takes as many of the bytes offered as a script
    says, and keeps what it took. *)
Definition log_write (k : list wr * list byte) (fd : Z) (data : list byte)
  : wr * (list wr * list byte) :=
  match fst k with
  | [] => (WrBlock, k)
  | WrPut n :: s => (WrPut n, (s, snd k ++ take (Z.to_nat n) data))
  | r :: s => (r, (s, snd k))
  end.

(** [accepts s n]: the script takes [n] bytes in all, in pieces, with failed
    calls in between, and ends with the last piece. *)
Inductive accepts : list wr -> Z -> Prop :=
| accepts_done : accepts [] 0
| accepts_fail e s n :
    accepts s n -> 0 < n -> accepts (WrErr e :: s) n
| accepts_piece c s n :
    0 < c -> accepts s n -> accepts (WrPut c :: s) (c + n).

(** The string a [char *] argument stands for: the bytes before the first
    NUL. *)
Definition c_str (s : list byte) : list byte := take (Z.to_nat (strlen s)) s.

(** The caller's result descriptor as [resolve_result] leaves it. *)
Definition polled_world : world :=
  with_files (<[5 := File 5 false (nonblock_on O_RDONLY)]> (files started_world))
    started_world.




(** The machine once the caller has fetched that response and the worker
    has answered a second request the same way: the list of the first
    response is in the caller's heap, the second response in the pipe. *)
Definition refilled_world : world :=
  match resolve_result served_world with
  | Ret _ w =>
      chan_put 5 (response_frame (word_bytes 2)
                    (on_wire <$> [sample_node Byte.x01 28672; sample_node Byte.x02 0]))
               w
  | _ => served_world
  end.

(** * [pnghash.c] *)

(** ** [hamming] *)

(** [hamming(i, j)] for 64-bit [i] and [j]: the loop adds bit [k] of
    [r = i ^ j] to the 64-bit counter [c], for [k] from 0 to 63. *)
Definition hamming (i j : Z) : Z :=
  let r := Z.lxor i j in
  foldl (fun c k => wrap64 (c + Z.land (Z.shiftr r k) 1)) 0 (seqZ 0 64).

(** How many of the positions [ks] hold different bits in [i] and [j]. *)
Definition differing (i j : Z) (ks : list Z) : Z :=
  Z.of_nat (length (filter (fun k => xorb (Z.testbit i k) (Z.testbit j k) = true) ks)).

(** ** [xread] *)

Section PngIO.
Context {K : Type}.
Variable sys_read : K -> Z -> Z -> rd * K.

(** The condition of the [do ... while] of [xread]:
    [ret == -1 && errno != EAGAIN && errno != EINTR]. *)
Definition xread_again (ret : Z) (e : option errno) : bool :=
  (ret =? -1) && negb (errno_is e EAGAIN) && negb (errno_is e EINTR).

(** The statement after the loop: [if (ret == -1) fatal(...)]. *)
Definition xread_exit (ret : Z) (buf : list byte) (k : K) : outcome K (list byte) :=
  if ret =? -1 then Fatal "error while reading" k else Ret buf k.

(** One turn of the loop per unit of fuel; [p] is the offset [p - buf]. *)
Fixpoint xread_loop (fuel : nat) (fd : Z) (buf : list byte) (p sz : Z) (k : K)
  : outcome K (list byte) :=
  match fuel with
  | O => OutOfFuel
  | S fuel' =>
      match sys_read k fd sz with
      | (RdBlock, k') => Blocked k'
      | (RdGot data, k') =>
          match store buf p data with
          | None => Undefined
          | Some buf' =>
              let ret := Z.of_nat (length data) in
              let sz' := if 0 <? ret then wrap64 (sz - ret) else sz in
              let p' := if 0 <? ret then p + ret else p in
              if (0 <? ret) && (sz' =? 0) then xread_exit ret buf' k'
              else if xread_again ret None
                   then xread_loop fuel' fd buf' p' sz' k'
                   else xread_exit ret buf' k'
          end
      | (RdErr e, k') =>
          let ret := -1 in
          if xread_again ret (Some e)
          then xread_loop fuel' fd buf p sz k'
          else xread_exit ret buf k'
      end
  end.

Definition xread (fuel : nat) (fd : Z) (buf : list byte) (sz : Z)
  : M K (list byte) :=
  xread_loop fuel fd buf 0 sz.
End PngIO.

(** The errors [xread] tries again on: all but [EAGAIN] and [EINTR]. *)
Definition retried (e : errno) : bool :=
  negb (errno_is (Some e) EAGAIN) && negb (errno_is (Some e) EINTR).

(** ** [dhash] and [ahash] *)

Definition wrap32 (z : Z) : Z := z mod 2 ^ 32.

(** [px[off]], where [px] points to the first of the pixels given. *)
Definition px_at (px : list byte) (off : Z) : option Z :=
  if off <? 0 then None else byte.unsigned <$> px !! Z.to_nat off.

(** [res = (res << 1) | (bit ? 1 : 0)] on a 64-bit [res]. *)
Definition shift_in (res : Z) (bit : bool) : Z :=
  Z.lor (wrap64 (Z.shiftl res 1)) (if bit then 1 else 0).

(** The body of the inner [for] of [dhash], given [off]. *)
Definition dhash_turn (px : list byte) (res : option Z) (off : Z) : option Z :=
  res ← res;
  a ← px_at px off;
  b ← px_at px (wrap32 (off + 1));
  Some (shift_in res (a <? b)).

(** The two [for] loops of [dhash] over the 9 x 8 pixels. *)
Definition dhash_loop (px : list byte) : option Z :=
  foldl (fun res i =>
           foldl (fun res j => dhash_turn px res (wrap32 (i * 9 + j)))
                 res (seqZ 0 8))
        (Some 0) (seqZ 0 8).

(** The bodies of the inner loops of [ahash]: the sum, and the bits. *)
Definition ahash_sum_turn (px : list byte) (mc : option Z) (off : Z) : option Z :=
  mc ← mc;
  a ← px_at px off;
  Some (wrap32 (mc + a)).

Definition ahash_turn (px : list byte) (mc : Z) (res : option Z) (off : Z)
  : option Z :=
  res ← res;
  a ← px_at px off;
  Some (shift_in res (a <? mc)).

(** The four [for] loops of [ahash] over the 8 x 8 pixels, with [mc /= 64]
    in between. *)
Definition ahash_loop (px : list byte) : option Z :=
  mc ← foldl (fun mc i =>
                foldl (fun mc j => ahash_sum_turn px mc (i * 8 + j))
                      mc (seqZ 0 8))
             (Some 0) (seqZ 0 8);
  let mc := mc / 64 in
  foldl (fun res i =>
           foldl (fun res j => ahash_turn px mc res (wrap32 (i * 8 + j)))
                 res (seqZ 0 8))
        (Some 0) (seqZ 0 8).

Section Hashes.
Context {png : Type}.

(** [gray_and_resize] after its first line: it samples the image in
    floating point, which is not modelled. [resample png w h] stands for the
    [w * h] gray pixels it leaves in [*res]; [None] when its [malloc] fails
    and it returns -1. *)
Variable resample : png -> Z -> Z -> option (list byte).

(** [gray_and_resize(png, w, h, res)], with [res0] the pointer [*res] holds
    on entry: [if (!png || !*res) return -1;] comes first. *)
Definition gray_and_resize (p : option png) (w h : Z) (res0 : Z)
  : option (list byte) :=
  match p with
  | None => None
  | Some img => if res0 =? 0 then None else resample img w h
  end.

(** [dhash(png, hash)] and [ahash(png, hash)]. [hash] tells whether the
    pointer is not NULL, and [px0] is what the local [px], which is not
    initialised, holds when [&px] is passed on. The result is the return
    value and what has been stored in [*hash]. *)
Definition dhash (p : option png) (hash : bool) (px0 : Z) : M unit (Z * option Z) :=
  if negb (bool_decide (is_Some p)) || negb hash then ret (-1, None)
  else
    match gray_and_resize p 9 8 px0 with
    | None => fatal "error while graying/resizing pixels"
    | Some px =>
        match dhash_loop px with
        | Some res => ret (0, Some res)
        | None => undefined
        end
    end.

Definition ahash (p : option png) (hash : bool) (px0 : Z) : M unit (Z * option Z) :=
  if negb (bool_decide (is_Some p)) || negb hash then ret (-1, None)
  else
    match gray_and_resize p 8 8 px0 with
    | None => fatal "error while graying/resizing pixels"
    | Some px =>
        match ahash_loop px with
        | Some res => ret (0, Some res)
        | None => undefined
        end
    end.
End Hashes.

(** [px[off] < px[off']], false when either is outside the array. *)
Definition darker (px : list byte) (off off' : Z) : bool :=
  match px_at px off, px_at px off' with
  | Some a, Some b => a <? b
  | _, _ => false
  end.

(** The sum of the pixels and their mean, rounded down, over 64 pixels. *)
Definition pixel_sum (px : list byte) : Z :=
  foldr (fun b s => byte.unsigned b + s) 0 px.

Definition mean_color (px : list byte) : Z := pixel_sum px / 64.

(** The offsets the loops visit, in order, for rows [w] pixels apart. *)
Definition grid (w : Z) : list Z :=
  i ← seqZ 0 8; (fun j => wrap32 (i * w + j)) <$> seqZ 0 8.

(** [px[off] < mc], false outside the array. *)
Definition under (px : list byte) (mc off : Z) : bool :=
  match px_at px off with
  | Some a => a <? mc
  | None => false
  end.

(** Two images to run the hashes on: a ramp of 72 pixels, each row rising
    from left to right, and a flat one of 64. *)
Definition ramp_px : list byte :=
  (fun k => byte.of_Z (k mod 9)) <$> seqZ 0 72.

Definition flat_px : list byte := replicate 64 Byte.x80.
(** * Properties *)

(** Projections of a world that was updated. *)
Ltac wsimpl :=
  cbn [files pipes next_fd nofile heap brk heap_end started _child _fd _fdres
       mem_put chan_put with_files with_pipes with_next_fd with_heap with_brk
       with_statics] in *.

(** ** Worlds *)

Lemma chan_put_id (w : world) q c :
  pipes w !! q = Some c -> chan_put q c w = w.
Proof.
  intros H. unfold chan_put. rewrite insert_id by exact H.
  destruct w; reflexivity.
Qed.

Lemma chan_put_twice (w : world) q c c' :
  chan_put q c' (chan_put q c w) = chan_put q c' w.
Proof.
  unfold chan_put. cbn. rewrite insert_insert_eq. reflexivity.
Qed.

Lemma pipes_chan_put (w : world) q c : pipes (chan_put q c w) !! q = Some c.
Proof. unfold chan_put. cbn. apply lookup_insert_eq. Qed.

Lemma pipes_chan_put_ne (w : world) q q' c :
  q <> q' -> pipes (chan_put q c w) !! q' = pipes w !! q'.
Proof. intros H. unfold chan_put. cbn. apply lookup_insert_ne. exact H. Qed.

Lemma wrap64_small z : 0 <= z < 2 ^ 64 -> wrap64 z = z.
Proof. intros H. unfold wrap64. apply Z.mod_small. exact H. Qed.

Lemma store_0 (buf data : list byte) :
  (length data <= length buf)%nat ->
  store buf 0 data = Some (data ++ drop (length data) buf).
Proof.
  intros H. unfold store.
  replace (0 <=? 0) with true by reflexivity.
  destruct (Z.leb_spec (0 + Z.of_nat (length data)) (Z.of_nat (length buf))); [| lia].
  reflexivity.
Qed.

(** ** Reading from and writing to a pipe *)

(** When the pipe holds the bytes asked for, [fd_read] takes exactly them,
    whatever the mode of the descriptor. *)
Lemma fd_read_w_ok (w : world) fd f (data rest buf : list byte) size :
  files w !! fd = Some f -> f_wr f = false ->
  pipes w !! f_pipe f = Some (data ++ rest) ->
  size = Z.of_nat (length data) -> size < 2 ^ 64 ->
  (length data <= length buf)%nat ->
  fd_read_w fd buf size w
  = Ret (data ++ drop (length data) buf)
        (chan_put (f_pipe f) rest w).
Proof.
  intros Hf Hrd Hp Hsz Hlt Hlen.
  unfold fd_read_w, fd_read, io_fuel.
  destruct data as [|b data].
  - simpl in Hsz. subst size. simpl.
    rewrite chan_put_id by exact Hp. reflexivity.
  - cbn [fd_read_loop].
    replace (0 <? 0) with false by reflexivity.
    replace (0 + 0) with 0 by reflexivity.
    destruct (Z.eqb_spec 0 size) as [E|_].
    { subst size. simpl in E. lia. }
    rewrite Z.sub_0_r, wrap64_small by (simpl in Hsz; lia).
    unfold pipe_read. rewrite Hf, Hrd, Hp.
    cbn [app].
    replace (Z.to_nat (Z.min size (Z.of_nat (length (b :: data ++ rest)))))
      with (length (b :: data))
      by (rewrite Hsz; simpl; rewrite length_app; lia).
    change (b :: data ++ rest) with ((b :: data) ++ rest).
    rewrite take_app_length, drop_app_length.
    rewrite store_0 by exact Hlen.
    unfold io_again.
    destruct (Z.eqb_spec (Z.of_nat (length (b :: data))) 0) as [E|_];
      [simpl in E; lia|].
    cbn [negb orb].
    destruct (Z.ltb_spec (Z.of_nat (length (b :: data))) 0) as [E|_]; [lia|].
    replace (0 + Z.of_nat (length (b :: data))) with size by lia.
    rewrite Z.eqb_refl. unfold io_exit.
    destruct (Z.ltb_spec (Z.of_nat (length (b :: data))) 0) as [E|_]; [lia|].
    reflexivity.
Qed.

(** An empty pipe behind a blocking descriptor: the call does not return. *)
Lemma fd_read_w_empty (w : world) fd f buf size :
  files w !! fd = Some f -> f_wr f = false ->
  Z.testbit (f_flags f) 11 = false ->
  pipes w !! f_pipe f = Some [] ->
  0 < size < 2 ^ 64 ->
  fd_read_w fd buf size w = Blocked w.
Proof.
  intros Hf Hrd Hfl Hp Hsz.
  unfold fd_read_w, fd_read, io_fuel. cbn [fd_read_loop].
  replace (0 <? 0) with false by reflexivity.
  replace (0 + 0) with 0 by reflexivity.
  destruct (Z.eqb_spec 0 size) as [E|_]; [lia|].
  rewrite Z.sub_0_r, wrap64_small by lia.
  unfold pipe_read. rewrite Hf, Hrd, Hp, Hfl. reflexivity.
Qed.

Lemma slice_0 (buf : list byte) n :
  0 <= n <= Z.of_nat (length buf) ->
  slice buf 0 n = Some (take (Z.to_nat n) buf).
Proof.
  intros H. unfold slice.
  replace (0 <=? 0) with true by reflexivity.
  destruct (Z.leb_spec 0 n); [|lia].
  destruct (Z.leb_spec (0 + n) (Z.of_nat (length buf))); [|lia].
  reflexivity.
Qed.

(** [fd_write] appends the first [size] bytes of the object to the pipe. *)
Lemma fd_write_w_ok (w : world) fd f (c buf : list byte) size :
  files w !! fd = Some f -> f_wr f = true ->
  pipes w !! f_pipe f = Some c ->
  0 <= size <= Z.of_nat (length buf) -> size < 2 ^ 64 ->
  fd_write_w fd buf size w
  = Ret tt (chan_put (f_pipe f) (c ++ take (Z.to_nat size) buf) w).
Proof.
  intros Hf Hwr Hp Hsz Hlt.
  unfold fd_write_w, fd_write, io_fuel. cbn [fd_write_loop].
  replace (0 <? 0) with false by reflexivity.
  replace (0 + 0) with 0 by reflexivity.
  destruct (Z.eqb_spec 0 size) as [E|Hne].
  - subst size. simpl. rewrite app_nil_r, chan_put_id by exact Hp. reflexivity.
  - rewrite Z.sub_0_r, wrap64_small by lia.
    rewrite slice_0 by lia.
    unfold pipe_write. rewrite Hf, Hwr, Hp.
    rewrite length_take.
    replace (Z.of_nat (Z.to_nat size `min` length buf)) with size by lia.
    unfold io_again.
    destruct (Z.eqb_spec size 0) as [E|_]; [lia|].
    cbn [negb orb].
    destruct (Z.ltb_spec size 0) as [E|_]; [lia|].
    replace (0 + size) with size by lia.
    rewrite Z.eqb_refl. unfold io_exit.
    destruct (Z.ltb_spec size 0) as [E|_]; [lia|].
    reflexivity.
Qed.

(** ** Sequencing *)

Lemma bind_ret {S A B} (m : M S A) (k : A -> M S B) s a s' :
  m s = Ret a s' -> bind m k s = k a s'.
Proof. intros H. unfold bind. rewrite H. reflexivity. Qed.

Lemma bind_fatal {S A B} (m : M S A) (k : A -> M S B) s msg s' :
  m s = Fatal msg s' -> bind m k s = Fatal msg s'.
Proof. intros H. unfold bind. rewrite H. reflexivity. Qed.

Lemma bind_blocked {S A B} (m : M S A) (k : A -> M S B) s s' :
  m s = Blocked s' -> bind m k s = Blocked s'.
Proof. intros H. unfold bind. rewrite H. reflexivity. Qed.

(** ** Words and strings *)

Lemma length_word_bytes v : length (word_bytes v) = 8%nat.
Proof. apply length_le_split. Qed.

Lemma word_val_bytes v : 0 <= v < 2 ^ 64 -> word_val (word_bytes v) = v.
Proof.
  intros H. unfold word_val, word_bytes. rewrite le_combine_split.
  apply Z.mod_small. exact H.
Qed.

Lemma length_zeros n : length (zeros n) = n.
Proof. apply length_replicate. Qed.

Lemma drop_zeros n m : drop n (zeros m) = zeros (m - n).
Proof. apply drop_replicate. Qed.

Lemma strlen_nul_free (s : list byte) :
  Byte.x00 ∉ s -> strlen s = Z.of_nat (length s).
Proof.
  induction s as [|b s IH]; intros H; [reflexivity|].
  cbn [strlen length].
  destruct (Byte.eqb b Byte.x00) eqn:E.
  - apply Byte.byte_dec_bl in E. subst b. exfalso. apply H. left.
  - rewrite IH; [lia|]. intros Hin. apply H. right. exact Hin.
Qed.

(** A NUL-free string followed by a NUL is the C string of the buffer. *)
Lemma cstring_padded (s : list byte) n :
  Byte.x00 ∉ s -> (0 < n)%nat -> cstring (s ++ zeros n) = Some s.
Proof.
  intros H Hn. induction s as [|b s IH].
  - destruct n; [lia|]. reflexivity.
  - cbn [app cstring].
    destruct (Byte.eqb b Byte.x00) eqn:E.
    + apply Byte.byte_dec_bl in E. subst b. exfalso. apply H. left.
    + rewrite IH; [reflexivity|]. intros Hin. apply H. right. exact Hin.
Qed.

(** A buffer filled to the brim with non-NUL bytes holds no C string. *)
Lemma cstring_full (s : list byte) :
  Byte.x00 ∉ s -> cstring s = None.
Proof.
  induction s as [|b s IH]; intros H; [reflexivity|].
  cbn [cstring].
  destruct (Byte.eqb b Byte.x00) eqn:E.
  - apply Byte.byte_dec_bl in E. subst b. exfalso. apply H. left.
  - rewrite IH; [reflexivity|]. intros Hin. apply H. right. exact Hin.
Qed.

(** ** The request on its way *)

(** [resolve] appends one request frame to the request pipe. *)
Lemma resolve_ok (w : world) qa fl c p (host port : list byte) :
  files w !! _fd w = Some (File qa true fl) ->
  pipes w !! qa = Some c ->
  Byte.x00 ∉ host -> Z.of_nat (length host) < 2 ^ 64 ->
  Byte.x00 ∉ port -> Z.of_nat (length port) < 2 ^ 64 ->
  resolve p host port w = Ret tt (chan_put qa (c ++ request_frame p host port) w).
Proof.
  intros Hf Hp Hh Hhl Hs Hsl.
  unfold resolve. unfold get at 1. unfold bind at 1.
  rewrite !strlen_nul_free by assumption.
  erewrite bind_ret; cycle 1.
  { eapply fd_write_w_ok; [exact Hf | reflexivity | exact Hp | | ].
    - rewrite length_word_bytes. unfold SIZEOF_PTR. lia.
    - unfold SIZEOF_PTR. lia. }
  erewrite bind_ret; cycle 1.
  { eapply fd_write_w_ok; [exact Hf | reflexivity | apply pipes_chan_put | | ].
    - rewrite length_word_bytes. unfold SIZEOF_SIZE_T. lia.
    - unfold SIZEOF_SIZE_T. lia. }
  rewrite chan_put_twice.
  erewrite bind_ret; cycle 1.
  { eapply fd_write_w_ok; [exact Hf | reflexivity | apply pipes_chan_put | | ]; lia. }
  rewrite chan_put_twice.
  erewrite bind_ret; cycle 1.
  { eapply fd_write_w_ok; [exact Hf | reflexivity | apply pipes_chan_put | | ].
    - rewrite length_word_bytes. unfold SIZEOF_SIZE_T. lia.
    - unfold SIZEOF_SIZE_T. lia. }
  rewrite chan_put_twice.
  erewrite bind_ret; cycle 1.
  { eapply fd_write_w_ok; [exact Hf | reflexivity | apply pipes_chan_put | | ]; lia. }
  rewrite chan_put_twice.
  unfold ret, request_frame. f_equal. f_equal.
  rewrite !Nat2Z.id.
  rewrite !take_ge by (rewrite ?length_word_bytes; unfold SIZEOF_PTR, SIZEOF_SIZE_T; lia).
  rewrite <- !app_assoc. reflexivity.
Qed.

(** ** The worker reads a request *)

(** A frame whose strings fit the buffers is read whole; the buffers hold
    the strings, zero-padded. *)
Lemma read_request_ok (w : world) fd qa fl p host port rest :
  files w !! fd = Some (File qa false fl) ->
  pipes w !! qa = Some (request_frame p host port ++ rest) ->
  Z.of_nat (length host) <= sizeof_host ->
  Z.of_nat (length port) <= sizeof_port ->
  read_request fd w
  = Ret (word_bytes p,
         (host ++ zeros (Z.to_nat sizeof_host - length host),
          port ++ zeros (Z.to_nat sizeof_port - length port)))
        (chan_put qa rest w).
Proof.
  intros Hf Hp Hh Hs. unfold sizeof_host, sizeof_port in Hh, Hs.
  unfold read_request, request_frame in *.
  rewrite <- !app_assoc in Hp.
  erewrite bind_ret; cycle 1.
  { eapply fd_read_w_ok; [exact Hf | reflexivity | exact Hp | | | ].
    - rewrite length_word_bytes. reflexivity.
    - unfold SIZEOF_PTR. lia.
    - rewrite length_word_bytes. cbn. lia. }
  erewrite bind_ret; cycle 1.
  { eapply fd_read_w_ok; [exact Hf | reflexivity | apply pipes_chan_put | | | ].
    - rewrite length_word_bytes. reflexivity.
    - unfold SIZEOF_SIZE_T. lia.
    - rewrite length_word_bytes. cbn. lia. }
  rewrite chan_put_twice, !length_word_bytes.
  change (drop 8 (zeros 8)) with (@nil byte). rewrite !app_nil_r.
  rewrite word_val_bytes by lia.
  destruct (Z.gtb_spec (Z.of_nat (length host)) sizeof_host) as [E|_];
    [unfold sizeof_host in E; lia|].
  erewrite bind_ret; cycle 1.
  { eapply fd_read_w_ok; [exact Hf | reflexivity | apply pipes_chan_put | | | ].
    - reflexivity.
    - lia.
    - rewrite length_zeros. unfold sizeof_host. lia. }
  rewrite chan_put_twice.
  erewrite bind_ret; cycle 1.
  { eapply fd_read_w_ok; [exact Hf | reflexivity | apply pipes_chan_put | | | ].
    - rewrite length_word_bytes. reflexivity.
    - unfold SIZEOF_SIZE_T. lia.
    - rewrite length_word_bytes. cbn. lia. }
  rewrite chan_put_twice, !length_word_bytes.
  change (drop 8 (zeros 8)) with (@nil byte). rewrite !app_nil_r.
  rewrite word_val_bytes by lia.
  destruct (Z.gtb_spec (Z.of_nat (length port)) sizeof_port) as [E|_];
    [unfold sizeof_port in E; lia|].
  erewrite bind_ret; cycle 1.
  { eapply fd_read_w_ok; [exact Hf | reflexivity | apply pipes_chan_put | | | ].
    - reflexivity.
    - lia.
    - rewrite length_zeros. unfold sizeof_port. lia. }
  rewrite chan_put_twice, !drop_zeros. reflexivity.
Qed.

(** A declared host length above [sizeof(host)] stops the worker before
    any byte of the payload is read. *)
Lemma read_request_host_len (w : world) fd qa fl p host_len rest :
  files w !! fd = Some (File qa false fl) ->
  pipes w !! qa = Some (word_bytes p ++ word_bytes host_len ++ rest) ->
  sizeof_host < host_len < 2 ^ 64 ->
  read_request fd w = Fatal "invalid host_len" (chan_put qa rest w).
Proof.
  intros Hf Hp Hh. unfold read_request.
  erewrite bind_ret; cycle 1.
  { eapply fd_read_w_ok; [exact Hf | reflexivity | exact Hp | | | ].
    - rewrite length_word_bytes. reflexivity.
    - unfold SIZEOF_PTR. lia.
    - rewrite length_word_bytes. cbn. lia. }
  erewrite bind_ret; cycle 1.
  { eapply fd_read_w_ok; [exact Hf | reflexivity | apply pipes_chan_put | | | ].
    - rewrite length_word_bytes. reflexivity.
    - unfold SIZEOF_SIZE_T. lia.
    - rewrite length_word_bytes. cbn. lia. }
  rewrite chan_put_twice, !length_word_bytes.
  change (drop 8 (zeros 8)) with (@nil byte). rewrite !app_nil_r.
  rewrite word_val_bytes by (unfold sizeof_host in Hh; lia).
  destruct (Z.gtb_spec host_len sizeof_host) as [_|E]; [|lia].
  reflexivity.
Qed.

(** The same for the service length, once the host has been read. *)
Lemma read_request_port_len (w : world) fd qa fl p host port_len rest :
  files w !! fd = Some (File qa false fl) ->
  pipes w !! qa = Some (word_bytes p ++ word_bytes (Z.of_nat (length host))
                        ++ host ++ word_bytes port_len ++ rest) ->
  Z.of_nat (length host) <= sizeof_host ->
  sizeof_port < port_len < 2 ^ 64 ->
  read_request fd w = Fatal "invalid port_len" (chan_put qa rest w).
Proof.
  intros Hf Hp Hh Hs. unfold sizeof_host in Hh. unfold read_request.
  erewrite bind_ret; cycle 1.
  { eapply fd_read_w_ok; [exact Hf | reflexivity | exact Hp | | | ].
    - rewrite length_word_bytes. reflexivity.
    - unfold SIZEOF_PTR. lia.
    - rewrite length_word_bytes. cbn. lia. }
  erewrite bind_ret; cycle 1.
  { eapply fd_read_w_ok; [exact Hf | reflexivity | apply pipes_chan_put | | | ].
    - rewrite length_word_bytes. reflexivity.
    - unfold SIZEOF_SIZE_T. lia.
    - rewrite length_word_bytes. cbn. lia. }
  rewrite chan_put_twice, !length_word_bytes.
  change (drop 8 (zeros 8)) with (@nil byte). rewrite !app_nil_r.
  rewrite word_val_bytes by lia.
  destruct (Z.gtb_spec (Z.of_nat (length host)) sizeof_host) as [E|_];
    [unfold sizeof_host in E; lia|].
  erewrite bind_ret; cycle 1.
  { eapply fd_read_w_ok; [exact Hf | reflexivity | apply pipes_chan_put | | | ].
    - reflexivity.
    - lia.
    - rewrite length_zeros. unfold sizeof_host. lia. }
  rewrite chan_put_twice.
  erewrite bind_ret; cycle 1.
  { eapply fd_read_w_ok; [exact Hf | reflexivity | apply pipes_chan_put | | | ].
    - rewrite length_word_bytes. reflexivity.
    - unfold SIZEOF_SIZE_T. lia.
    - rewrite length_word_bytes. cbn. lia. }
  rewrite chan_put_twice, !length_word_bytes.
  change (drop 8 (zeros 8)) with (@nil byte). rewrite !app_nil_r.
  rewrite word_val_bytes by (unfold sizeof_port in Hs; lia).
  destruct (Z.gtb_spec port_len sizeof_port) as [_|E]; [|lia].
  reflexivity.
Qed.

(** ** The worker answers *)

Lemma ai_addrlen_range st : 0 <= ai_addrlen st < 2 ^ 32.
Proof.
  unfold ai_addrlen.
  pose proof (le_combine_bound (take 4 (drop (Z.to_nat OFF_ai_addrlen) st))) as H.
  rewrite length_take in H.
  split; [lia|].
  eapply Z.lt_le_trans; [apply H|].
  apply Z.pow_le_mono_r; lia.
Qed.

Lemma write_results_ok (w : world) fd qb fl out res :
  files w !! fd = Some (File qb true fl) ->
  pipes w !! qb = Some out ->
  Forall node_ok res ->
  write_results fd res w = Ret tt (chan_put qb (out ++ records_bytes res) w).
Proof.
  intros Hf Hp Hok. revert w out Hf Hp.
  induction Hok as [|n res [Hst Hsa] _ IH]; intros w out Hf Hp.
  - cbn. unfold ret, records_bytes. cbn. rewrite app_nil_r, chan_put_id by exact Hp.
    reflexivity.
  - cbn [write_results].
    pose proof (ai_addrlen_range (ai_struct n)) as Hr.
    erewrite bind_ret; cycle 1.
    { eapply fd_write_w_ok; [exact Hf | reflexivity | exact Hp | | ].
      - rewrite Hst. unfold SIZEOF_ADDRINFO. lia.
      - unfold SIZEOF_ADDRINFO. lia. }
    erewrite bind_ret; cycle 1.
    { eapply fd_write_w_ok; [exact Hf | reflexivity | apply pipes_chan_put | | ]; lia. }
    rewrite chan_put_twice.
    rewrite (IH (chan_put _ _ _) _ Hf (pipes_chan_put _ _ _)).
    rewrite chan_put_twice. unfold records_bytes, record_bytes. cbn [map concat].
    rewrite <- !app_assoc. reflexivity.
Qed.

Lemma answer_ok getaddrinfo (w : world) fd qb fl out ptr host port node service :
  Forall node_ok (gai_list (getaddrinfo node service
                              (Hints AF_INET SOCK_STREAM AI_PASSIVE 0))) ->
  Z.of_nat (length (gai_list (getaddrinfo node service
                                (Hints AF_INET SOCK_STREAM AI_PASSIVE 0)))) < 2 ^ 64 ->
  files w !! fd = Some (File qb true fl) ->
  pipes w !! qb = Some out ->
  length ptr = 8%nat ->
  cstring host = Some node -> cstring port = Some service ->
  answer getaddrinfo fd ptr host port w
  = Ret tt (chan_put qb
              (out ++ response_frame ptr
                        (gai_list (getaddrinfo node service
                                     (Hints AF_INET SOCK_STREAM AI_PASSIVE 0))))
              w).
Proof.
  intros Hok Hlen Hf Hp Hptr Hh Hs. unfold answer. rewrite Hh, Hs.
  set (r := getaddrinfo node service _) in *.
  assert (E : (let '(_, res) :=
                 match r with GaiOk l => (0, l) | GaiErr code => (code, []) end
               in res) = gai_list r) by (destruct r; reflexivity).
  destruct r as [l|code]; cbn [gai_list] in *.
  - erewrite bind_ret; cycle 1.
    { eapply fd_write_w_ok; [exact Hf | reflexivity | exact Hp | | ];
        unfold SIZEOF_PTR; lia. }
    erewrite bind_ret; cycle 1.
    { eapply fd_write_w_ok; [exact Hf | reflexivity | apply pipes_chan_put | | ];
        rewrite ?length_word_bytes; unfold SIZEOF_SIZE_T; lia. }
    rewrite chan_put_twice.
    rewrite (write_results_ok (chan_put _ _ _) _ _ _ _ _ Hf (pipes_chan_put _ _ _) Hok).
    rewrite chan_put_twice. unfold response_frame.
    rewrite wrap64_small by lia.
    rewrite !take_ge by (rewrite ?length_word_bytes; unfold SIZEOF_PTR, SIZEOF_SIZE_T; lia).
    rewrite <- !app_assoc. reflexivity.
  - erewrite bind_ret; cycle 1.
    { eapply fd_write_w_ok; [exact Hf | reflexivity | exact Hp | | ];
        unfold SIZEOF_PTR; lia. }
    erewrite bind_ret; cycle 1.
    { eapply fd_write_w_ok; [exact Hf | reflexivity | apply pipes_chan_put | | ];
        rewrite ?length_word_bytes; unfold SIZEOF_SIZE_T; cbn; lia. }
    rewrite chan_put_twice. cbn [write_results]. unfold ret, response_frame.
    cbn [length]. rewrite wrap64_small by (cbn; lia).
    rewrite !take_ge by (rewrite ?length_word_bytes; unfold SIZEOF_PTR, SIZEOF_SIZE_T; lia).
    unfold records_bytes. cbn [map concat]. rewrite app_nil_r, <- !app_assoc.
    reflexivity.
Qed.

(** One turn of the worker on a request within bounds: the frame leaves the
    request pipe and the response to it joins the result pipe. *)
Lemma resolver_body_ok getaddrinfo (w : world) fdi fdo qa qb fli flo
      p host port rest out :
  Forall node_ok (owed getaddrinfo (p, (host, port))) ->
  Z.of_nat (length (owed getaddrinfo (p, (host, port)))) < 2 ^ 64 ->
  qa <> qb ->
  files w !! fdi = Some (File qa false fli) ->
  files w !! fdo = Some (File qb true flo) ->
  pipes w !! qa = Some (request_frame p host port ++ rest) ->
  pipes w !! qb = Some out ->
  Byte.x00 ∉ host -> Z.of_nat (length host) < sizeof_host ->
  Byte.x00 ∉ port -> Z.of_nat (length port) < sizeof_port ->
  resolver_body getaddrinfo fdi fdo w
  = Ret tt (chan_put qb (out ++ response_frame (word_bytes p)
                                  (owed getaddrinfo (p, (host, port))))
              (chan_put qa rest w)).
Proof.
  intros Hok Hlen Hq Hfi Hfo Hpa Hpb Hh Hhl Hs Hsl. unfold resolver_body.
  erewrite bind_ret; cycle 1.
  { eapply read_request_ok; [exact Hfi | exact Hpa | lia | lia]. }
  cbn [fst snd].
  erewrite answer_ok; [reflexivity | exact Hok | exact Hlen | exact Hfo | | | | ].
  - rewrite pipes_chan_put_ne by exact Hq. exact Hpb.
  - apply length_word_bytes.
  - apply cstring_padded; [exact Hh | unfold sizeof_host in *; lia].
  - apply cstring_padded; [exact Hs | unfold sizeof_port in *; lia].
Qed.

(** ** The caller's memory *)

Lemma mem_put_id (w : world) : mem_put (heap w) (brk w) w = w.
Proof. destruct w; reflexivity. Qed.

Lemma xmalloc_ok (w : world) sz :
  0 < brk w -> 0 <= sz -> brk w + Z.max sz 1 <= heap_end w ->
  xmalloc sz w
  = Ret (brk w)
        (mem_put (<[brk w := zeros (Z.to_nat sz)]> (heap w))
                 (brk w + Z.max sz 1) w).
Proof.
  intros Hb Hsz Hroom. unfold xmalloc, malloc, bind.
  destruct (Z.ltb_spec (heap_end w) (brk w + Z.max sz 1)) as [E|_]; [lia|].
  destruct (Z.eqb_spec (brk w) 0) as [E|_]; [lia|].
  unfold memset0. cbn [heap with_brk with_heap].
  rewrite lookup_insert_eq.
  rewrite store_0 by lia.
  rewrite drop_ge, app_nil_r by lia.
  unfold ret, mem_put. cbn. rewrite insert_insert_eq. reflexivity.
Qed.

(** Running out of memory ends the caller. *)
Lemma xmalloc_full (w : world) sz :
  heap_end w < brk w + Z.max sz 1 ->
  xmalloc sz w = Fatal "malloc" w.
Proof.
  intros Hroom. unfold xmalloc, malloc, bind.
  destruct (Z.ltb_spec (heap_end w) (brk w + Z.max sz 1)) as [_|E]; [|lia].
  reflexivity.
Qed.

Lemma poke_ok (w : world) p off data blk blk' :
  heap w !! p = Some blk -> store blk off data = Some blk' ->
  poke p off data w = Ret tt (mem_put (<[p := blk']> (heap w)) (brk w) w).
Proof.
  intros Hb Hs. unfold poke. rewrite Hb, Hs. destruct w; reflexivity.
Qed.

Lemma load_ok (w : world) p off n blk bs :
  heap w !! p = Some blk -> slice blk off n = Some bs ->
  load p off n w = Ret bs w.
Proof. intros Hb Hs. unfold load. rewrite Hb, Hs. reflexivity. Qed.

Lemma fd_read_heap_ok (w : world) fd q fl p blk (data rest : list byte) size :
  files w !! fd = Some (File q false fl) ->
  pipes w !! q = Some (data ++ rest) ->
  heap w !! p = Some blk ->
  size = Z.of_nat (length data) -> size < 2 ^ 64 ->
  (length data <= length blk)%nat ->
  fd_read_heap fd p size w
  = Ret tt (mem_put (<[p := data ++ drop (length data) blk]> (heap w)) (brk w)
                    (chan_put q rest w)).
Proof.
  intros Hf Hp Hb Hsz Hlt Hlen. unfold fd_read_heap. rewrite Hb.
  erewrite bind_ret; cycle 1.
  { eapply fd_read_w_ok; [exact Hf | reflexivity | exact Hp | exact Hsz | exact Hlt | exact Hlen]. }
  reflexivity.
Qed.

Lemma store_ai_addr st a :
  length st = 48%nat ->
  store st OFF_ai_addr (word_bytes a) = Some (set_ai_addr st a).
Proof.
  intros H. unfold store, OFF_ai_addr. rewrite length_word_bytes, H. reflexivity.
Qed.

Lemma store_ai_next st a :
  length st = 48%nat ->
  store st OFF_ai_next (word_bytes a) = Some (set_ai_next st a).
Proof.
  intros H. unfold store, OFF_ai_next. rewrite length_word_bytes, H.
  cbn [Z.leb Z.compare Z.of_nat Z.add Pos.add Pos.compare Pos.compare_cont
       Pos.of_succ_nat Pos.succ andb].
  unfold set_ai_next. rewrite drop_ge by (rewrite H; cbn; lia).
  rewrite app_nil_r. reflexivity.
Qed.

Lemma length_set_ai_addr st a : length st = 48%nat -> length (set_ai_addr st a) = 48%nat.
Proof.
  intros H. unfold set_ai_addr.
  rewrite !length_app, length_take, length_drop, length_word_bytes, H. reflexivity.
Qed.

Lemma length_set_ai_next st a : length st = 48%nat -> length (set_ai_next st a) = 48%nat.
Proof.
  intros H. unfold set_ai_next.
  rewrite !length_app, length_take, length_word_bytes, H. reflexivity.
Qed.

Lemma slice_ai_addrlen st :
  length st = 48%nat ->
  slice st OFF_ai_addrlen 4 = Some (take 4 (drop (Z.to_nat OFF_ai_addrlen) st)).
Proof. intros H. unfold slice, OFF_ai_addrlen. rewrite H. reflexivity. Qed.

Lemma mem_put_twice (w : world) h b h' b' :
  mem_put h b (mem_put h' b' w) = mem_put h b w.
Proof. reflexivity. Qed.

Lemma chan_put_mem_put (w : world) q c h b :
  chan_put q c (mem_put h b w) = mem_put h b (chan_put q c w).
Proof. reflexivity. Qed.

(** Worlds in the shape [mem_put h b (chan_put q c w)]. *)
Ltac wnorm :=
  repeat (rewrite chan_put_mem_put || rewrite mem_put_twice
          || rewrite chan_put_twice).

Lemma bind_assoc {S A B C} (m : M S A) (f : A -> M S B) (g : B -> M S C) s :
  bind (bind m f) g s = bind m (fun x => bind (f x) g) s.
Proof. unfold bind. destruct (m s); reflexivity. Qed.

Lemma record_bytes_wire n :
  wire_ok n -> record_bytes n = ai_struct n ++ ai_sockaddr n.
Proof.
  intros [Hst Hsa]. unfold record_bytes.
  rewrite !take_ge by lia. reflexivity.
Qed.

Lemma heap_need_nonneg res : 0 <= heap_need res.
Proof.
  induction res as [|x l IH]; cbn [heap_need]; [lia|].
  unfold node_span. pose proof (ai_addrlen_range (ai_struct x)). lia.
Qed.

(** ** The loop of [resolve_result] *)

(** The loop and the statement after it, followed by whatever comes next:
    with room in the arena the records of the frame are linked in from
    [brk] on, without it [xmalloc] ends the caller. [L] is the record [last]
    points to when the loop is entered with [i > 0]. *)
Lemma resolve_result_loop_ok {A} (k : Z -> M world A) fd qb fl res :
  forall (w : world) i first last L rest,
  files w !! fd = Some (File qb false fl) ->
  pipes w !! qb = Some (records_bytes res ++ rest) ->
  Forall wire_ok res ->
  heap_ok w ->
  0 <= i -> i + Z.of_nat (length res) < 2 ^ 64 ->
  (if i =? 0 then first = 0 /\ last = 0
   else last <> 0 /\ heap w !! last = Some L /\ length L = 48%nat) ->
  let run :=
    bind (resolve_result_loop (length res) fd i first last)
         (fun r => bind (if snd r =? 0 then ret tt
                         else poke (snd r) OFF_ai_next (word_bytes 0))
                        (fun _ => k (fst r))) w in
  (brk w + heap_need res <= heap_end w
   /\ run
      = k (if i =? 0 then first_addr (brk w) res else first)
          (mem_put (built (brk w) res
                      (if i =? 0 then heap w
                       else <[last := set_ai_next L (first_addr (brk w) res)]> (heap w)))
                   (brk w + heap_need res) (chan_put qb rest w)))
  \/ (heap_end w < brk w + heap_need res
      /\ exists w', run = Fatal "malloc" w').
Proof.
  induction res as [|n res IH];
    intros w i first last L rest Hf Hp Hok Hheap Hi Hn Hlast run; subst run.
  - left. destruct Hheap as (Hb & Hend & Hdom).
    cbn [length resolve_result_loop built heap_need first_addr].
    split; [lia|].
    unfold bind at 1. unfold ret at 1. cbn [fst snd].
    change (records_bytes [] ++ rest) with rest in Hp.
    rewrite Z.add_0_r, (chan_put_id _ _ _ Hp).
    destruct (i =? 0).
    + destruct Hlast as [-> ->]. cbn. rewrite mem_put_id. reflexivity.
    + destruct Hlast as (Hl & HL & HlenL).
      destruct (Z.eqb_spec last 0) as [E|_]; [contradiction|].
      erewrite bind_ret; [reflexivity|].
      eapply poke_ok; [exact HL | apply store_ai_next; exact HlenL].
  - inversion Hok as [|? ? [Hst Hsa] Hok']; subst.
    destruct Hheap as (Hb & Hend & Hdom).
    pose proof (ai_addrlen_range (ai_struct n)) as Hr.
    pose proof (heap_need_nonneg res) as Hneed.
    cbn [heap_need]. unfold node_span.
    cbn [length resolve_result_loop].
    unfold records_bytes in Hp. cbn [map concat] in Hp.
    rewrite record_bytes_wire in Hp by (split; assumption).
    fold (records_bytes res) in Hp. rewrite <- !app_assoc in Hp.
    set (b := brk w) in *. set (a := b + 48).
    set (len := ai_addrlen (ai_struct n)) in *.
    rewrite bind_assoc.
    (* room for the record? *)
    destruct (Z.le_gt_cases (b + 48) (heap_end w)) as [Hroom1|Hfull]; cycle 1.
    { right. split; [lia|]. eexists.
      apply bind_fatal. apply xmalloc_full. fold b.
      unfold SIZEOF_ADDRINFO. lia. }
    erewrite bind_ret; cycle 1.
    { apply xmalloc_ok; fold b; unfold SIZEOF_ADDRINFO; lia. }
    fold b. unfold SIZEOF_ADDRINFO. change (Z.max 48 1) with 48. fold a.
    rewrite bind_assoc.
    (* the record before this one is linked to it *)
    set (h0 := if i =? 0 then heap w
               else <[last := set_ai_next L b]> (heap w)).
    set (first' := if i =? 0 then b else first).
    assert (Hlink :
      bind (if i =? 0 then ret (b, b)
            else bind (poke last OFF_ai_next (word_bytes b)) (fun _ => ret (first, b)))
           (fun x => bind
              (bind (fd_read_heap fd b 48)
                 (fun _ => bind (load b OFF_ai_addrlen 4)
                    (fun len0 => bind (xmalloc (le_combine len0))
                       (fun a0 => bind (poke b OFF_ai_addr (word_bytes a0))
                          (fun _ => bind (fd_read_heap fd a0 (le_combine len0))
                             (fun _ => resolve_result_loop (length res) fd
                                         (wrap64 (i + 1)) (fst x) (snd x)))))))
              (fun r => bind (if snd r =? 0 then ret tt
                              else poke (snd r) OFF_ai_next (word_bytes 0))
                             (fun _ => k (fst r))))
           (mem_put (<[b := zeros (Z.to_nat 48)]> (heap w)) a w)
      = bind
          (bind (fd_read_heap fd b 48)
             (fun _ => bind (load b OFF_ai_addrlen 4)
                (fun len0 => bind (xmalloc (le_combine len0))
                   (fun a0 => bind (poke b OFF_ai_addr (word_bytes a0))
                      (fun _ => bind (fd_read_heap fd a0 (le_combine len0))
                         (fun _ => resolve_result_loop (length res) fd
                                     (wrap64 (i + 1)) first' b))))))
          (fun r => bind (if snd r =? 0 then ret tt
                          else poke (snd r) OFF_ai_next (word_bytes 0))
                         (fun _ => k (fst r)))
          (mem_put (<[b := zeros (Z.to_nat 48)]> h0) a w)).
    { subst h0 first'. destruct (i =? 0).
      - reflexivity.
      - destruct Hlast as (Hl & HL & HlenL).
        assert (last <> b).
        { intros ->. specialize (Hdom b). rewrite HL in Hdom.
          specialize (Hdom (ltac:(eexists; reflexivity))). lia. }
        rewrite bind_assoc.
        erewrite bind_ret; cycle 1.
        { eapply poke_ok; [|apply store_ai_next; exact HlenL].
          cbn. rewrite lookup_insert_ne by congruence. exact HL. }
        wsimpl.
        rewrite insert_insert_ne by congruence. reflexivity. }
    rewrite Hlink. clear Hlink.
    assert (Hh0 : forall x, is_Some (h0 !! x) -> x < b).
    { intros x. subst h0. destruct (i =? 0); [apply Hdom|].
      destruct Hlast as (Hl & HL & HlenL).
      rewrite lookup_insert. case_decide; [|apply Hdom].
      subst x. intros _. apply Hdom. rewrite HL. eexists; reflexivity. }
    rewrite !bind_assoc.
    erewrite bind_ret; cycle 1.
    { eapply fd_read_heap_ok; [exact Hf | exact Hp | apply lookup_insert_eq | | | ].
      - rewrite Hst. reflexivity.
      - lia.
      - rewrite Hst, length_zeros. lia. }
    rewrite Hst. change (drop 48 (zeros (Z.to_nat 48))) with (@nil byte).
    rewrite app_nil_r.
    wsimpl. rewrite insert_insert_eq.
    rewrite !bind_assoc.
    erewrite bind_ret; cycle 1.
    { eapply load_ok; [apply lookup_insert_eq | apply slice_ai_addrlen; exact Hst]. }
    fold (ai_addrlen (ai_struct n)). fold len.
    rewrite !bind_assoc.
    (* room for the address? *)
    destruct (Z.le_gt_cases (a + Z.max len 1) (heap_end w)) as [Hroom2|Hfull]; cycle 1.
    { right. split; [subst a; lia|]. eexists.
      apply bind_fatal. apply xmalloc_full. wsimpl. lia. }
    erewrite bind_ret; cycle 1.
    { apply xmalloc_ok; wsimpl; lia. }
    wsimpl.
    rewrite !bind_assoc.
    erewrite bind_ret; cycle 1.
    { eapply poke_ok; [|apply store_ai_addr; exact Hst].
      cbn. rewrite lookup_insert_ne by (subst a; lia). apply lookup_insert_eq. }
    wsimpl.
    rewrite !bind_assoc.
    erewrite bind_ret; cycle 1.
    { eapply fd_read_heap_ok; [exact Hf | | | | | ].
      - cbn. rewrite lookup_insert_eq. reflexivity.
      - cbn. rewrite lookup_insert_ne by (subst a; lia). apply lookup_insert_eq.
      - lia.
      - lia.
      - rewrite length_zeros. lia. }
    replace (length (ai_sockaddr n)) with (Z.to_nat len) by lia.
    rewrite drop_zeros, Nat.sub_diag. change (zeros 0) with (@nil byte).
    rewrite app_nil_r.
    wsimpl.
    rewrite wrap64_small by (cbn [length] in Hn; lia).
    wnorm.
    (* the rest of the frame *)
    match goal with
    | |- context [bind _ _ ?w1] => set (w' := w1)
    end.
    assert (Hi' : (i + 1 =? 0) = false) by (apply Z.eqb_neq; lia).
    specialize (IH w' (i + 1) first' b (set_ai_addr (ai_struct n) a) rest).
    rewrite Hi' in IH. cbn zeta in IH.
    assert (Hbrk : brk w' = a + Z.max len 1) by reflexivity.
    assert (Hhe : heap_end w' = heap_end w) by reflexivity.
    rewrite Hbrk, Hhe in IH.
    destruct IH as [[Hroom ->]|[Hfull [w'' ->]]].
    + exact Hf.
    + subst w'. cbn. rewrite lookup_insert_eq. reflexivity.
    + exact Hok'.
    + subst w'. repeat split; wsimpl.
      * lia.
      * lia.
      * exact Hend.
      * intros x. rewrite !lookup_insert. repeat case_decide; subst; try lia.
        intros Hx. specialize (Hh0 x Hx). lia.
    + lia.
    + cbn [length] in Hn. lia.
    + subst w'. wsimpl.
      repeat split.
      * lia.
      * rewrite lookup_insert_ne by (subst a; lia). apply lookup_insert_eq.
      * apply length_set_ai_addr. exact Hst.
    + left. split; [subst a; lia|].
      f_equal.
      subst w'. wsimpl. wnorm. cbn [built]. unfold node_span.
      fold len. fold b. fold a.
      replace (b + (48 + Z.max len 1)) with (a + Z.max len 1) by (subst a; lia).
      f_equal.
      * f_equal. fold h0.
        apply map_eq. intros x.
        rewrite !lookup_insert.
        repeat case_decide; subst; try reflexivity; try lia.
      * subst a. lia.
    + right. split; [subst a; lia|]. exists w''. reflexivity.
Qed.

(** ** [resolve_result] on a whole frame *)

Lemma with_files_twice (w : world) f f' :
  with_files f (with_files f' w) = with_files f w.
Proof. reflexivity. Qed.

Lemma mem_put_with_files (w : world) h b f :
  mem_put h b (with_files f w) = with_files f (mem_put h b w).
Proof. reflexivity. Qed.

Lemma chan_put_with_files (w : world) q c f :
  chan_put q c (with_files f w) = with_files f (chan_put q c w).
Proof. reflexivity. Qed.

Lemma fd_setblock_ok (w : world) fd f :
  files w !! fd = Some f ->
  fd_setblock fd w
  = Ret tt (with_files (<[fd := File (f_pipe f) (f_wr f)
                                   (Z.land (f_flags f) (Z.lnot O_NONBLOCK))]>
                          (files w)) w).
Proof.
  intros H. unfold fd_setblock.
  erewrite bind_ret; [|unfold fcntl_getfl; rewrite H; reflexivity].
  erewrite bind_ret; [|unfold fcntl_setfl; rewrite H; reflexivity].
  reflexivity.
Qed.

Lemma fd_setnonblock_ok (w : world) fd f :
  files w !! fd = Some f ->
  fd_setnonblock fd w
  = Ret tt (with_files (<[fd := File (f_pipe f) (f_wr f)
                                   (Z.lor (f_flags f) O_NONBLOCK)]>
                          (files w)) w).
Proof.
  intros H. unfold fd_setnonblock.
  erewrite bind_ret; [|unfold fcntl_getfl; rewrite H; reflexivity].
  erewrite bind_ret; [|unfold fcntl_setfl; rewrite H; reflexivity].
  reflexivity.
Qed.

(** With a whole response frame in the result pipe, [resolve_result] takes
    the frame and nothing more, links its records in from [brk] on, and
    leaves the descriptor non-blocking; when the arena has no room for the
    records, [xmalloc] ends the caller instead. *)
Lemma resolve_result_total (w : world) qb fl ptr recs rest :
  files w !! _fdres w = Some (File qb false fl) ->
  pipes w !! qb = Some (response_frame ptr recs ++ rest) ->
  length ptr = 8%nat ->
  Forall wire_ok recs ->
  Z.of_nat (length recs) < 2 ^ 64 ->
  heap_ok w ->
  (brk w + heap_need recs <= heap_end w
   /\ resolve_result w
      = Ret (word_val ptr, first_addr (brk w) recs)
            (with_files (<[_fdres w := File qb false (nonblock_on fl)]> (files w))
               (mem_put (built (brk w) recs (heap w)) (brk w + heap_need recs)
                  (chan_put qb rest w))))
  \/ (heap_end w < brk w + heap_need recs
      /\ exists w', resolve_result w = Fatal "malloc" w').
Proof.
  intros Hf Hp Hptr Hok Hn Hheap.
  set (fdres := _fdres w) in *.
  set (F1 := <[fdres := File qb false (Z.land fl (Z.lnot O_NONBLOCK))]> (files w)).
  unfold response_frame in Hp. rewrite <- !app_assoc in Hp.
  assert (Hstep :
    resolve_result w
    = bind (resolve_result_loop (length recs) fdres 0 0 0)
        (fun r => bind (if snd r =? 0 then ret tt
                        else poke (snd r) OFF_ai_next (word_bytes 0))
                   (fun _ => bind (fd_setnonblock fdres)
                               (fun _ => ret (word_val ptr, fst r))))
        (chan_put qb (records_bytes recs ++ rest) (with_files F1 w))).
  { unfold resolve_result. unfold get at 1. unfold bind at 1. fold fdres.
    erewrite bind_ret; cycle 1.
    { apply fd_setblock_ok. exact Hf. }
    cbn [f_pipe f_wr f_flags]. fold F1.
    erewrite bind_ret; cycle 1.
    { eapply fd_read_w_ok; [apply lookup_insert_eq | reflexivity | exact Hp | | | ].
      - rewrite Hptr. reflexivity.
      - unfold SIZEOF_PTR. lia.
      - rewrite Hptr. cbn. lia. }
    rewrite Hptr. change (drop 8 (zeros 8)) with (@nil byte). rewrite app_nil_r.
    cbn [f_pipe].
    erewrite bind_ret; cycle 1.
    { eapply fd_read_w_ok;
        [apply lookup_insert_eq | reflexivity | apply pipes_chan_put | | | ].
      - rewrite length_word_bytes. reflexivity.
      - unfold SIZEOF_SIZE_T. lia.
      - rewrite !length_word_bytes. lia. }
    cbn [f_pipe]. rewrite chan_put_twice, !length_word_bytes.
    rewrite drop_ge, app_nil_r by (rewrite length_word_bytes; lia).
    rewrite word_val_bytes by lia. rewrite Nat2Z.id. reflexivity. }
  rewrite Hstep. clear Hstep.
  pose proof (resolve_result_loop_ok
             (fun first => bind (fd_setnonblock fdres)
                             (fun _ => ret (word_val ptr, first)))
             fdres qb (Z.land fl (Z.lnot O_NONBLOCK)) recs
             (chan_put qb (records_bytes recs ++ rest) (with_files F1 w))
             0 0 0 [] rest) as Hloop.
  cbn zeta in Hloop.
  destruct Hloop as [[Hroom E]|[Hfull [w' E]]].
  - apply lookup_insert_eq.
  - apply pipes_chan_put.
  - exact Hok.
  - exact Hheap.
  - lia.
  - lia.
  - split; reflexivity.
  - left. split; [exact Hroom|].
    refine (eq_trans E _). clear E.
    cbn [Z.eqb]. wsimpl.
    erewrite bind_ret; cycle 1.
    { apply fd_setnonblock_ok. wsimpl. subst F1. apply lookup_insert_eq. }
    cbn [f_pipe f_wr f_flags]. wsimpl.
    unfold ret. f_equal.
    rewrite chan_put_twice, chan_put_with_files, mem_put_with_files, with_files_twice.
    subst F1. rewrite insert_insert_eq. reflexivity.
  - right. split; [exact Hfull|]. exists w'. exact E.
Qed.

Lemma resolve_result_ok (w : world) qb fl ptr recs rest :
  files w !! _fdres w = Some (File qb false fl) ->
  pipes w !! qb = Some (response_frame ptr recs ++ rest) ->
  length ptr = 8%nat ->
  Forall wire_ok recs ->
  Z.of_nat (length recs) < 2 ^ 64 ->
  heap_ok w ->
  brk w + heap_need recs <= heap_end w ->
  resolve_result w
  = Ret (word_val ptr, first_addr (brk w) recs)
        (with_files (<[_fdres w := File qb false (nonblock_on fl)]> (files w))
           (mem_put (built (brk w) recs (heap w)) (brk w + heap_need recs)
              (chan_put qb rest w))).
Proof.
  intros Hf Hp Hptr Hok Hn Hheap Hroom.
  destruct (resolve_result_total w qb fl ptr recs rest Hf Hp Hptr Hok Hn Hheap)
    as [[_ E]|[Hfull _]]; [exact E | lia].
Qed.


(** ** The list the caller gets *)

Lemma addrinfo_split (st : list byte) :
  length st = 48%nat ->
  exists s1 s2 s3 s4,
    st = s1 ++ s2 ++ s3 ++ s4
    /\ length s1 = 24%nat /\ length s2 = 8%nat
    /\ length s3 = 8%nat /\ length s4 = 8%nat.
Proof.
  intros H.
  exists (take 24 st), (take 8 (drop 24 st)),
         (take 8 (drop 32 st)), (drop 40 st).
  repeat split.
  - rewrite <- (take_drop 24 st) at 1. f_equal.
    rewrite <- (take_drop 8 (drop 24 st)) at 1. f_equal.
    rewrite drop_drop. change (24 + 8)%nat with 32%nat.
    rewrite <- (take_drop 8 (drop 32 st)) at 1. f_equal.
    rewrite drop_drop. reflexivity.
  - rewrite length_take. lia.
  - rewrite length_take, length_drop. lia.
  - rewrite length_take, length_drop. lia.
  - rewrite length_drop. lia.
Qed.

Lemma set_fields (st : list byte) a nx :
  length st = 48%nat ->
  exists s1 s3,
    length s1 = 24%nat /\ length s3 = 8%nat
    /\ take 24 st = s1
    /\ set_ai_next (set_ai_addr st a) nx = s1 ++ word_bytes a ++ s3 ++ word_bytes nx.
Proof.
  intros H. destruct (addrinfo_split st H) as (s1 & s2 & s3 & s4 & -> & H1 & H2 & H3 & H4).
  exists s1, s3. repeat split; [exact H1 | exact H3 | |].
  - rewrite take_app_length' by (symmetry; exact H1). reflexivity.
  - unfold set_ai_next, set_ai_addr.
    rewrite (take_app_length' s1) by (symmetry; exact H1).
    replace (drop 32 (s1 ++ s2 ++ s3 ++ s4)) with (s3 ++ s4).
    2:{ rewrite (app_assoc s1 s2).
        rewrite drop_app_length' by (rewrite length_app; lia). reflexivity. }
    rewrite (app_assoc s1), (app_assoc (s1 ++ _) s3).
    rewrite take_app_length'
      by (rewrite !length_app, length_word_bytes; lia).
    rewrite <- !app_assoc. reflexivity.
Qed.

Lemma ai_addr_set (st : list byte) a nx :
  length st = 48%nat -> 0 <= a < 2 ^ 64 ->
  ai_addr (set_ai_next (set_ai_addr st a) nx) = a.
Proof.
  intros H Ha. destruct (set_fields st a nx H) as (s1 & s3 & H1 & H3 & _ & ->).
  unfold ai_addr, OFF_ai_addr.
  rewrite drop_app_length' by (rewrite H1; reflexivity).
  rewrite take_app_length' by (rewrite length_word_bytes; reflexivity).
  apply word_val_bytes. exact Ha.
Qed.

Lemma ai_next_set (st : list byte) a nx :
  length st = 48%nat -> 0 <= nx < 2 ^ 64 ->
  ai_next (set_ai_next (set_ai_addr st a) nx) = nx.
Proof.
  intros H Ha. destruct (set_fields st a nx H) as (s1 & s3 & H1 & H3 & _ & ->).
  unfold ai_next, OFF_ai_next.
  rewrite !app_assoc.
  rewrite drop_app_length'
    by (rewrite !length_app, length_word_bytes, H1, H3; reflexivity).
  rewrite take_ge by (rewrite length_word_bytes; lia).
  apply word_val_bytes. exact Ha.
Qed.

(** The fields the worker sent, other than the two pointers the caller
    rewrites, are as they were sent: the first 24 bytes hold [ai_flags],
    [ai_family], [ai_socktype], [ai_protocol] and [ai_addrlen]. *)
Lemma scalars_set (st : list byte) a nx :
  length st = 48%nat ->
  take 24 (set_ai_next (set_ai_addr st a) nx) = take 24 st.
Proof.
  intros H. destruct (set_fields st a nx H) as (s1 & s3 & H1 & H3 & -> & ->).
  rewrite take_app_length' by (symmetry; exact H1). reflexivity.
Qed.

(** [built] only adds blocks from [b] on. *)
Lemma built_below res : forall b h x,
  x < b -> built b res h !! x = h !! x.
Proof.
  induction res as [|n res IH]; intros b h x Hx; [reflexivity|].
  cbn [built]. unfold node_span.
  pose proof (ai_addrlen_range (ai_struct n)).
  rewrite IH by lia.
  rewrite !lookup_insert_ne by lia. reflexivity.
Qed.

Lemma first_addr_range b res :
  0 < b -> b + heap_need res <= 2 ^ 64 -> 0 <= first_addr b res < 2 ^ 64.
Proof.
  intros Hb Hn. destruct res as [|n res]; cbn [first_addr heap_need] in *; [lia|].
  pose proof (heap_need_nonneg res). unfold node_span in Hn.
  pose proof (ai_addrlen_range (ai_struct n)). lia.
Qed.

(** The heap [built] makes holds the list [linked]. *)
Lemma built_ai_list res : forall b h,
  0 < b -> b + heap_need res <= 2 ^ 64 ->
  Forall wire_ok res ->
  ai_list (built b res h) (first_addr b res) (linked b res).
Proof.
  induction res as [|n res IH]; intros b h Hb Hn Hok.
  - constructor.
  - inversion Hok as [|? ? [Hst Hsa] Hok']; subst.
    cbn [built first_addr linked heap_need] in *.
    pose proof (ai_addrlen_range (ai_struct n)) as Hr.
    pose proof (heap_need_nonneg res) as Hneed.
    unfold node_span in *.
    set (b' := b + (48 + Z.max (ai_addrlen (ai_struct n)) 1)) in *.
    assert (Hfa : 0 <= first_addr b' res < 2 ^ 64)
      by (apply first_addr_range; subst b'; lia).
    constructor.
    + lia.
    + rewrite built_below by (subst b'; lia).
      rewrite lookup_insert_ne by lia. apply lookup_insert_eq.
    + apply length_set_ai_next, length_set_ai_addr. exact Hst.
    + rewrite ai_addr_set by (try exact Hst; subst b'; lia).
      rewrite built_below by (subst b'; lia). apply lookup_insert_eq.
    + rewrite ai_next_set by (try exact Hst; exact Hfa).
      apply IH; [subst b'; lia | subst b'; lia | exact Hok'].
Qed.

(** The records sit at increasing addresses from [b] on, each followed by
    the bytes of its address. *)
Lemma linked_addrs res : forall b, (linked b res).*1 = node_addrs b res.
Proof.
  induction res as [|n res IH]; intros b; [reflexivity|].
  cbn [linked node_addrs fmap list_fmap fst]. f_equal. apply IH.
Qed.

Lemma node_addrs_range res : forall b x,
  x ∈ node_addrs b res -> b <= x /\ x + 48 < b + heap_need res.
Proof.
  induction res as [|n res IH]; intros b x Hx; cbn [node_addrs heap_need] in *.
  - apply elem_of_nil in Hx. contradiction.
  - pose proof (ai_addrlen_range (ai_struct n)) as Hr.
    pose proof (heap_need_nonneg res) as Hneed. unfold node_span in *.
    apply elem_of_cons in Hx. destruct Hx as [->|Hx]; [lia|].
    apply IH in Hx. lia.
Qed.

Lemma node_addrs_NoDup res : forall b,
  NoDup (node_addrs b res ++ ((fun x => x + 48) <$> node_addrs b res)).
Proof.
  induction res as [|n res IH]; intros b; cbn [node_addrs fmap list_fmap app].
  - constructor.
  - pose proof (ai_addrlen_range (ai_struct n)) as Hr. unfold node_span.
    set (b' := b + (48 + Z.max (ai_addrlen (ai_struct n)) 1)).
    specialize (IH b').
    apply NoDup_cons. split.
    + intros Hin. apply elem_of_app in Hin. destruct Hin as [Hin|Hin].
      * apply node_addrs_range in Hin. subst b'. lia.
      * apply elem_of_cons in Hin. destruct Hin as [E|Hin]; [lia|].
        apply list_elem_of_fmap in Hin. destruct Hin as (y & -> & Hy).
        apply node_addrs_range in Hy. subst b'. lia.
    + apply NoDup_app in IH. destruct IH as (N1 & N12 & N2).
      apply NoDup_app. repeat split.
      * exact N1.
      * intros x Hx Hin. apply elem_of_cons in Hin. destruct Hin as [E|Hin].
        -- apply node_addrs_range in Hx. subst b'. lia.
        -- exact (N12 x Hx Hin).
      * apply NoDup_cons. split; [|exact N2].
        intros Hin. apply list_elem_of_fmap in Hin. destruct Hin as (y & E & Hy).
        apply node_addrs_range in Hy. subst b'. lia.
Qed.

(** ** What goes over the wire *)

Lemma ai_addrlen_take st : ai_addrlen (take 48 st) = ai_addrlen st.
Proof.
  unfold ai_addrlen, OFF_ai_addrlen.
  change (Z.to_nat 16) with 16%nat.
  rewrite skipn_firstn_comm. change (48 - 16)%nat with 32%nat.
  rewrite take_take. reflexivity.
Qed.

Lemma on_wire_ok n : node_ok n -> wire_ok (on_wire n).
Proof.
  intros [Hst Hsa]. pose proof (ai_addrlen_range (ai_struct n)).
  unfold wire_ok, on_wire. cbn [ai_struct ai_sockaddr].
  rewrite ai_addrlen_take, !length_take. lia.
Qed.

Lemma Forall_on_wire res : Forall node_ok res -> Forall wire_ok (on_wire <$> res).
Proof.
  intros H. apply Forall_fmap. eapply Forall_impl; [exact H|].
  intros n Hn. apply on_wire_ok. exact Hn.
Qed.

Lemma record_bytes_on_wire n : record_bytes (on_wire n) = record_bytes n.
Proof.
  unfold record_bytes, on_wire. cbn [ai_struct ai_sockaddr].
  rewrite ai_addrlen_take, !take_take, !Nat.min_id. reflexivity.
Qed.

Lemma response_frame_on_wire ptr res :
  response_frame ptr (on_wire <$> res) = response_frame ptr res.
Proof.
  unfold response_frame, records_bytes. rewrite length_fmap.
  do 3 f_equal. rewrite <- list_fmap_compose.
  apply list_fmap_ext. intros _ n _. apply record_bytes_on_wire.
Qed.

(** ** [resolver_start] *)

Lemma resolver_start_caller (w : world) pid sig :
  started w = 0 -> next_fd w + 4 <= nofile w -> pid <> -1 -> pid <> 0 ->
  resolver_start pid sig w
  = Ret (InCaller (next_fd w + 2))
        (with_statics 1 pid (next_fd w + 1) (next_fd w + 2) (piped w)).
Proof.
  intros Hs Hn Hp1 Hp0. unfold resolver_start.
  unfold get at 1. unfold bind at 1. rewrite Hs. cbn [Z.eqb negb].
  unfold sys_pipe at 1. unfold bind at 1.
  destruct (Z.ltb_spec (nofile w) (next_fd w + 2)) as [E|_]; [lia|].
  cbn [fst snd Z.ltb Z.compare].
  unfold sys_pipe at 1. unfold bind at 1. wsimpl.
  destruct (Z.ltb_spec (nofile w) (next_fd w + 2 + 2)) as [E|_]; [lia|].
  cbn [fst snd Z.ltb Z.compare].
  destruct (Z.eqb_spec pid (-1)) as [E|_]; [contradiction|].
  destruct (Z.eqb_spec pid 0) as [E|_]; [contradiction|].
  unfold bind, modify, ret. wsimpl. unfold piped, piped_files.
  replace (next_fd w + 2 + 1) with (next_fd w + 3) by lia.
  replace (next_fd w + 2 + 2) with (next_fd w + 4) by lia.
  reflexivity.
Qed.

Lemma resolver_start_worker (w : world) sig :
  started w = 0 -> next_fd w + 4 <= nofile w ->
  resolver_start 0 sig w
  = Ret (InWorker (next_fd w) (next_fd w + 3) (worker_signals sig))
        (with_statics 1 (_child w) (_fd w) (_fdres w) (piped w)).
Proof.
  intros Hs Hn. unfold resolver_start.
  unfold get at 1. unfold bind at 1. rewrite Hs. cbn [Z.eqb negb].
  unfold sys_pipe at 1. unfold bind at 1.
  destruct (Z.ltb_spec (nofile w) (next_fd w + 2)) as [E|_]; [lia|].
  cbn [fst snd Z.ltb Z.compare].
  unfold sys_pipe at 1. unfold bind at 1. wsimpl.
  destruct (Z.ltb_spec (nofile w) (next_fd w + 2 + 2)) as [E|_]; [lia|].
  cbn [fst snd Z.ltb Z.compare Z.eqb].
  unfold bind, modify, ret. wsimpl. unfold piped, piped_files.
  replace (next_fd w + 2 + 1) with (next_fd w + 3) by lia.
  replace (next_fd w + 2 + 2) with (next_fd w + 4) by lia.
  reflexivity.
Qed.

Lemma piped_files_lookup (w : world) :
  piped_files w !! next_fd w = Some (File (next_fd w) false O_RDONLY)
  /\ piped_files w !! (next_fd w + 1) = Some (File (next_fd w) true O_WRONLY)
  /\ piped_files w !! (next_fd w + 2) = Some (File (next_fd w + 2) false O_RDONLY)
  /\ piped_files w !! (next_fd w + 3) = Some (File (next_fd w + 2) true O_WRONLY).
Proof.
  unfold piped_files. repeat split.
  - rewrite !lookup_insert_ne by lia. apply lookup_insert_eq.
  - rewrite !lookup_insert_ne by lia. apply lookup_insert_eq.
  - rewrite !lookup_insert_ne by lia. apply lookup_insert_eq.
  - apply lookup_insert_eq.
Qed.

(** ** The two processes together *)



Lemma frames_app l1 l2 : frames (l1 ++ l2) = frames l1 ++ frames l2.
Proof. unfold frames. rewrite fmap_app, concat_app. reflexivity. Qed.

Lemma responses_app g l1 l2 :
  responses g (l1 ++ l2) = responses g l1 ++ responses g l2.
Proof. unfold responses. rewrite fmap_app, concat_app. reflexivity. Qed.

Lemma payload_linked res : forall b,
  Forall wire_ok res -> payload <$> (linked b res).*2 = payload <$> res.
Proof.
  induction res as [|n res IH]; intros b Hok; [reflexivity|].
  inversion Hok as [|? ? [Hst Hsa] Hok']; subst.
  cbn [linked fmap list_fmap snd]. f_equal; [|apply IH; exact Hok'].
  unfold payload. cbn [ai_struct ai_sockaddr].
  rewrite scalars_set by exact Hst. reflexivity.
Qed.

Lemma heap_need_on_wire res : heap_need (on_wire <$> res) = heap_need res.
Proof.
  induction res as [|n res IH]; [reflexivity|].
  cbn [fmap list_fmap heap_need]. rewrite IH. unfold node_span, on_wire.
  cbn [ai_struct]. rewrite ai_addrlen_take. reflexivity.
Qed.

(** [built] adds blocks between [b] and [b + heap_need res] only. *)
Lemma built_dom res : forall b h x,
  is_Some (built b res h !! x) ->
  is_Some (h !! x) \/ b <= x < b + heap_need res.
Proof.
  induction res as [|n res IH]; intros b h x Hx; [left; exact Hx|].
  cbn [built heap_need] in *.
  pose proof (ai_addrlen_range (ai_struct n)) as Hr.
  pose proof (heap_need_nonneg res) as Hneed.
  unfold node_span in *.
  apply IH in Hx. destruct Hx as [Hx|Hx]; [|right; lia].
  rewrite !lookup_insert in Hx.
  repeat case_decide; subst; try (right; lia). left. exact Hx.
Qed.

Lemma testbit_nonblock_on fl : Z.testbit (nonblock_on fl) 11 = true.
Proof.
  unfold nonblock_on. rewrite Z.lor_spec.
  replace (Z.testbit O_NONBLOCK 11) with true by reflexivity.
  apply orb_true_r.
Qed.


(** ** With the capacity of the pipes *)

(** With room for the bytes the two kernels do the same. *)
Lemma bounded_pipe_write_room (w : world) fd (data : list byte) :
  (forall f c, files w !! fd = Some f -> pipes w !! f_pipe f = Some c ->
               Z.of_nat (length c) + Z.of_nat (length data) <= PIPE_CAPACITY) ->
  Bounded.pipe_write w fd data = pipe_write w fd data.
Proof.
  intros Hroom. unfold Bounded.pipe_write, pipe_write.
  destruct (files w !! fd) as [f|] eqn:Hf; [|reflexivity].
  destruct (f_wr f); [|reflexivity].
  destruct (pipes w !! f_pipe f) as [c|] eqn:Hp; [|reflexivity].
  cbv zeta. specialize (Hroom f c eq_refl Hp).
  destruct (Z.leb_spec (Z.of_nat (length data))
              (PIPE_CAPACITY - Z.of_nat (length c))) as [_|E]; [reflexivity|lia].
Qed.

(** A [write] that finds room is the [write] of the kernel without a
    capacity. *)
Lemma bounded_fd_write_w_ok (w : world) fd f (c buf : list byte) size :
  files w !! fd = Some f -> f_wr f = true ->
  pipes w !! f_pipe f = Some c ->
  0 <= size <= Z.of_nat (length buf) -> size < 2 ^ 64 ->
  size = 0 \/ Z.of_nat (length c) + size <= PIPE_CAPACITY ->
  Bounded.fd_write_w fd buf size w
  = Ret tt (chan_put (f_pipe f) (c ++ take (Z.to_nat size) buf) w).
Proof.
  intros Hf Hwr Hp Hsz Hlt Hroom.
  unfold Bounded.fd_write_w, fd_write, io_fuel. cbn [fd_write_loop].
  replace (0 <? 0) with false by reflexivity.
  replace (0 + 0) with 0 by reflexivity.
  destruct (Z.eqb_spec 0 size) as [E|Hne].
  - subst size. simpl. rewrite app_nil_r, chan_put_id by exact Hp. reflexivity.
  - rewrite Z.sub_0_r, wrap64_small by lia.
    rewrite slice_0 by lia.
    unfold Bounded.pipe_write. rewrite Hf, Hwr, Hp. cbv zeta.
    rewrite length_take.
    replace (Z.of_nat (Z.to_nat size `min` length buf)) with size by lia.
    destruct (Z.leb_spec size (PIPE_CAPACITY - Z.of_nat (length c))) as [_|E]; [|lia].
    unfold io_again.
    destruct (Z.eqb_spec size 0) as [E|_]; [lia|].
    cbn [negb orb].
    destruct (Z.ltb_spec size 0) as [E|_]; [lia|].
    replace (0 + size) with size by lia.
    rewrite Z.eqb_refl. unfold io_exit.
    destruct (Z.ltb_spec size 0) as [E|_]; [lia|].
    reflexivity.
Qed.

(** One that does not, on a blocking descriptor, does not come back. *)
Lemma bounded_fd_write_w_full (w : world) fd f (c buf : list byte) size :
  files w !! fd = Some f -> f_wr f = true ->
  Z.testbit (f_flags f) 11 = false ->
  pipes w !! f_pipe f = Some c ->
  0 < size <= Z.of_nat (length buf) -> size < 2 ^ 64 ->
  PIPE_CAPACITY < Z.of_nat (length c) + size ->
  waits (Bounded.fd_write_w fd buf size w).
Proof.
  intros Hf Hwr Hfl Hp Hsz Hlt Hfull.
  unfold Bounded.fd_write_w, fd_write, io_fuel. cbn [fd_write_loop].
  replace (0 <? 0) with false by reflexivity.
  replace (0 + 0) with 0 by reflexivity.
  destruct (Z.eqb_spec 0 size) as [E|Hne]; [lia|].
  rewrite Z.sub_0_r, wrap64_small by lia.
  rewrite slice_0 by lia.
  unfold Bounded.pipe_write. rewrite Hf, Hwr, Hp, Hfl. cbv zeta.
  rewrite length_take.
  replace (Z.of_nat (Z.to_nat size `min` length buf)) with size by lia.
  destruct (Z.leb_spec size (PIPE_CAPACITY - Z.of_nat (length c))) as [E|_]; [lia|].
  destruct (size <=? PIPE_BUF); eexists; reflexivity.
Qed.

Lemma bind_waits {S A B} (m : M S A) (k : A -> M S B) s :
  waits (m s) -> waits (bind m k s).
Proof. intros [s' E]. exists s'. apply bind_blocked. exact E. Qed.

Lemma length_request_frame p (host port : list byte) :
  Z.of_nat (length (request_frame p host port))
  = 24 + Z.of_nat (length host) + Z.of_nat (length port).
Proof.
  unfold request_frame. rewrite !length_app, !length_word_bytes. lia.
Qed.

(** [resolve] on strings that end at their NUL, in buffers [hostb] and
    [portb]: the frame goes out when it fits, and else the call waits. *)
Lemma bounded_resolve_cases (w : world) qa fl c p (hostb portb host port : list byte) :
  files w !! _fd w = Some (File qa true fl) ->
  pipes w !! qa = Some c ->
  strlen hostb = Z.of_nat (length host) -> take (length host) hostb = host ->
  strlen portb = Z.of_nat (length port) -> take (length port) portb = port ->
  Z.of_nat (length host) < 2 ^ 64 -> Z.of_nat (length port) < 2 ^ 64 ->
  (Z.of_nat (length c) + Z.of_nat (length (request_frame p host port))
   <= PIPE_CAPACITY ->
   Bounded.resolve p hostb portb w
   = Ret tt (chan_put qa (c ++ request_frame p host port) w))
  /\ (Z.testbit fl 11 = false ->
      PIPE_CAPACITY
      < Z.of_nat (length c) + Z.of_nat (length (request_frame p host port)) ->
      waits (Bounded.resolve p hostb portb w)).
Proof.
  intros Hf Hp Hsh Hth Hsp Htp Hhl Hpl.
  assert (Hhb : (length host <= length hostb)%nat).
  { rewrite <- Hth at 1. rewrite length_take. lia. }
  assert (Hpb : (length port <= length portb)%nat).
  { rewrite <- Htp at 1. rewrite length_take. lia. }
  rewrite length_request_frame.
  pose proof (length_word_bytes p) as Lp.
  pose proof (length_word_bytes (Z.of_nat (length host))) as Lh.
  pose proof (length_word_bytes (Z.of_nat (length port))) as Ls.
  split.
  - intros Hfit.
    unfold Bounded.resolve. unfold get at 1. unfold bind at 1. rewrite Hsh, Hsp.
    erewrite bind_ret; cycle 1.
    { eapply bounded_fd_write_w_ok; [exact Hf | reflexivity | exact Hp | | | ];
        unfold SIZEOF_PTR; lia. }
    erewrite bind_ret; cycle 1.
    { eapply bounded_fd_write_w_ok;
        [exact Hf | reflexivity | apply pipes_chan_put | | | ];
        rewrite ?length_app, ?length_take; unfold SIZEOF_SIZE_T, SIZEOF_PTR; lia. }
    rewrite chan_put_twice.
    erewrite bind_ret; cycle 1.
    { eapply bounded_fd_write_w_ok;
        [exact Hf | reflexivity | apply pipes_chan_put | | | ];
        rewrite ?length_app, ?length_take; unfold SIZEOF_SIZE_T, SIZEOF_PTR; lia. }
    rewrite chan_put_twice.
    erewrite bind_ret; cycle 1.
    { eapply bounded_fd_write_w_ok;
        [exact Hf | reflexivity | apply pipes_chan_put | | | ];
        rewrite ?length_app, ?length_take; unfold SIZEOF_SIZE_T, SIZEOF_PTR; lia. }
    rewrite chan_put_twice.
    erewrite bind_ret; cycle 1.
    { eapply bounded_fd_write_w_ok;
        [exact Hf | reflexivity | apply pipes_chan_put | | | ];
        rewrite ?length_app, ?length_take; unfold SIZEOF_SIZE_T, SIZEOF_PTR; lia. }
    rewrite chan_put_twice.
    unfold ret, request_frame. f_equal. f_equal.
    rewrite !Nat2Z.id, Hth, Htp.
    rewrite !take_ge by (rewrite ?length_word_bytes; unfold SIZEOF_PTR, SIZEOF_SIZE_T; lia).
    rewrite <- !app_assoc. reflexivity.
  - intros Hfl Hfull.
    unfold Bounded.resolve. unfold get at 1. unfold bind at 1. rewrite Hsh, Hsp.
    destruct (Z.le_gt_cases (Z.of_nat (length c) + 8) PIPE_CAPACITY) as [H1|H1]; cycle 1.
    { apply bind_waits.
      apply (bounded_fd_write_w_full w (_fd w) _ c (word_bytes p) SIZEOF_PTR
               Hf eq_refl Hfl Hp); unfold SIZEOF_PTR; lia. }
    erewrite bind_ret; cycle 1.
    { eapply bounded_fd_write_w_ok; [exact Hf | reflexivity | exact Hp | | | ];
        unfold SIZEOF_PTR; lia. }
    rewrite take_ge by (unfold SIZEOF_PTR; lia).
    destruct (Z.le_gt_cases (Z.of_nat (length c) + 16) PIPE_CAPACITY) as [H2|H2]; cycle 1.
    { apply bind_waits.
      apply (bounded_fd_write_w_full (chan_put qa (c ++ word_bytes p) w) (_fd w) _
               (c ++ word_bytes p) (word_bytes (Z.of_nat (length host)))
               SIZEOF_SIZE_T Hf eq_refl Hfl (pipes_chan_put _ _ _));
        rewrite ?length_app; unfold SIZEOF_SIZE_T; lia. }
    erewrite bind_ret; cycle 1.
    { eapply bounded_fd_write_w_ok;
        [exact Hf | reflexivity | apply pipes_chan_put | | | ];
        rewrite ?length_app; unfold SIZEOF_SIZE_T; lia. }
    rewrite chan_put_twice, take_ge by (unfold SIZEOF_SIZE_T; lia).
    set (c2 := (c ++ word_bytes p) ++ word_bytes (Z.of_nat (length host))).
    assert (L2 : Z.of_nat (length c2) = Z.of_nat (length c) + 16)
      by (subst c2; rewrite !length_app; lia).
    destruct (Z.le_gt_cases (Z.of_nat (length c2) + Z.of_nat (length host))
                PIPE_CAPACITY) as [H3|H3]; cycle 1.
    { apply bind_waits.
      apply (bounded_fd_write_w_full (chan_put qa c2 w) (_fd w) _ c2 hostb
               (Z.of_nat (length host)) Hf eq_refl Hfl (pipes_chan_put _ _ _)); lia. }
    erewrite bind_ret; cycle 1.
    { eapply bounded_fd_write_w_ok;
        [exact Hf | reflexivity | apply pipes_chan_put | | | ]; lia. }
    rewrite chan_put_twice, Nat2Z.id, Hth.
    set (c3 := c2 ++ host).
    assert (L3 : Z.of_nat (length c3) = Z.of_nat (length c2) + Z.of_nat (length host))
      by (subst c3; rewrite !length_app; lia).
    destruct (Z.le_gt_cases (Z.of_nat (length c3) + 8) PIPE_CAPACITY) as [H4|H4]; cycle 1.
    { apply bind_waits.
      apply (bounded_fd_write_w_full (chan_put qa c3 w) (_fd w) _ c3
               (word_bytes (Z.of_nat (length port))) SIZEOF_SIZE_T
               Hf eq_refl Hfl (pipes_chan_put _ _ _)); unfold SIZEOF_SIZE_T; lia. }
    erewrite bind_ret; cycle 1.
    { eapply bounded_fd_write_w_ok;
        [exact Hf | reflexivity | apply pipes_chan_put | | | ];
        unfold SIZEOF_SIZE_T; lia. }
    rewrite chan_put_twice, take_ge by (unfold SIZEOF_SIZE_T; lia).
    set (c4 := c3 ++ word_bytes (Z.of_nat (length port))).
    assert (L4 : Z.of_nat (length c4) = Z.of_nat (length c3) + 8)
      by (subst c4; rewrite !length_app; lia).
    apply bind_waits.
    apply (bounded_fd_write_w_full (chan_put qa c4 w) (_fd w) _ c4 portb
             (Z.of_nat (length port)) Hf eq_refl Hfl (pipes_chan_put _ _ _)); lia.
Qed.

Lemma length_record_bytes n :
  node_ok n ->
  Z.of_nat (length (record_bytes n)) = 48 + ai_addrlen (ai_struct n).
Proof.
  intros [Hst Hsa]. pose proof (ai_addrlen_range (ai_struct n)) as Hr.
  unfold record_bytes. rewrite length_app, !length_take. lia.
Qed.

Lemma length_records_bytes_cons n res :
  length (records_bytes (n :: res))
  = (length (record_bytes n) + length (records_bytes res))%nat.
Proof. unfold records_bytes. cbn [map concat]. apply length_app. Qed.

Lemma length_response_frame (ptr : list byte) res :
  length ptr = 8%nat ->
  Z.of_nat (length (response_frame ptr res))
  = 16 + Z.of_nat (length (records_bytes res)).
Proof.
  intros Hptr. unfold response_frame.
  rewrite !length_app, length_word_bytes, Hptr. lia.
Qed.

(** The records go out as long as they fit; the worker waits in the first
    [write] that finds no room. *)
Lemma bounded_write_results_cases fd qb fl res :
  Forall node_ok res ->
  forall (w : world) out,
    files w !! fd = Some (File qb true fl) ->
    pipes w !! qb = Some out ->
    (Z.of_nat (length out) + Z.of_nat (length (records_bytes res)) <= PIPE_CAPACITY ->
     Bounded.write_results fd res w
     = Ret tt (chan_put qb (out ++ records_bytes res) w))
    /\ (Z.testbit fl 11 = false ->
        Z.of_nat (length out) <= PIPE_CAPACITY ->
        PIPE_CAPACITY < Z.of_nat (length out) + Z.of_nat (length (records_bytes res)) ->
        waits (Bounded.write_results fd res w)).
Proof.
  induction 1 as [|n res Hn _ IH]; intros w out Hf Hp.
  - split.
    + intros _. cbn. unfold ret, records_bytes. cbn.
      rewrite app_nil_r, chan_put_id by exact Hp. reflexivity.
    + intros _ Hcap Hfull. unfold records_bytes in Hfull. cbn in Hfull. lia.
  - pose proof (length_record_bytes n Hn) as Ln.
    pose proof (ai_addrlen_range (ai_struct n)) as Hr.
    destruct Hn as [Hst Hsa].
    rewrite length_records_bytes_cons, Nat2Z.inj_add, Ln.
    assert (Hrec : record_bytes n
                   = take (Z.to_nat SIZEOF_ADDRINFO) (ai_struct n)
                     ++ take (Z.to_nat (ai_addrlen (ai_struct n))) (ai_sockaddr n))
      by reflexivity.
    split.
    + intros Hfit. cbn [Bounded.write_results].
      erewrite bind_ret; cycle 1.
      { eapply bounded_fd_write_w_ok; [exact Hf | reflexivity | exact Hp | | | ];
          rewrite ?Hst; unfold SIZEOF_ADDRINFO; lia. }
      erewrite bind_ret; cycle 1.
      { eapply bounded_fd_write_w_ok;
          [exact Hf | reflexivity | apply pipes_chan_put | | | ];
          rewrite ?length_app, ?length_take, ?Hst; unfold SIZEOF_ADDRINFO; lia. }
      rewrite chan_put_twice. cbn [f_pipe].
      destruct (IH (chan_put qb
                      ((out ++ take (Z.to_nat SIZEOF_ADDRINFO) (ai_struct n))
                       ++ take (Z.to_nat (ai_addrlen (ai_struct n))) (ai_sockaddr n)) w)
                   _ Hf (pipes_chan_put _ _ _)) as [IHfit _].
      rewrite IHfit.
      * rewrite chan_put_twice. unfold records_bytes. cbn [map concat].
        rewrite Hrec, <- !app_assoc. reflexivity.
      * rewrite <- app_assoc, <- Hrec, length_app. lia.
    + intros Hfl Hcap Hfull. cbn [Bounded.write_results].
      destruct (Z.le_gt_cases (Z.of_nat (length out) + 48) PIPE_CAPACITY) as [H1|H1];
        cycle 1.
      { apply bind_waits.
        apply (bounded_fd_write_w_full w fd _ out (ai_struct n) SIZEOF_ADDRINFO
                 Hf eq_refl Hfl Hp); rewrite ?Hst; unfold SIZEOF_ADDRINFO; lia. }
      erewrite bind_ret; cycle 1.
      { eapply bounded_fd_write_w_ok; [exact Hf | reflexivity | exact Hp | | | ];
          rewrite ?Hst; unfold SIZEOF_ADDRINFO; lia. }
      set (c1 := out ++ take (Z.to_nat SIZEOF_ADDRINFO) (ai_struct n)).
      assert (L1 : Z.of_nat (length c1) = Z.of_nat (length out) + 48).
      { subst c1. rewrite length_app, length_take, Hst. unfold SIZEOF_ADDRINFO. lia. }
      destruct (Z.le_gt_cases (Z.of_nat (length c1) + ai_addrlen (ai_struct n))
                  PIPE_CAPACITY) as [H2|H2]; cycle 1.
      { apply bind_waits.
        apply (bounded_fd_write_w_full (chan_put qb c1 w) fd _ c1 (ai_sockaddr n)
                 (ai_addrlen (ai_struct n)) Hf eq_refl Hfl (pipes_chan_put _ _ _));
          lia. }
      erewrite bind_ret; cycle 1.
      { eapply bounded_fd_write_w_ok;
          [exact Hf | reflexivity | apply pipes_chan_put | | | ]; lia. }
      rewrite chan_put_twice. cbn [f_pipe].
      destruct (IH (chan_put qb
                      (c1 ++ take (Z.to_nat (ai_addrlen (ai_struct n))) (ai_sockaddr n)) w)
                   _ Hf (pipes_chan_put _ _ _)) as [_ IHfull].
      apply IHfull; [exact Hfl | | ]; rewrite length_app, length_take; lia.
Qed.

Lemma bounded_answer_cases getaddrinfo (w : world) fd qb fl out ptr host port
      node service :
  Forall node_ok (gai_list (getaddrinfo node service
                              (Hints AF_INET SOCK_STREAM AI_PASSIVE 0))) ->
  Z.of_nat (length (gai_list (getaddrinfo node service
                                (Hints AF_INET SOCK_STREAM AI_PASSIVE 0)))) < 2 ^ 64 ->
  files w !! fd = Some (File qb true fl) ->
  pipes w !! qb = Some out ->
  length ptr = 8%nat ->
  cstring host = Some node -> cstring port = Some service ->
  let frame := response_frame ptr
                 (gai_list (getaddrinfo node service
                              (Hints AF_INET SOCK_STREAM AI_PASSIVE 0))) in
  (Z.of_nat (length out) + Z.of_nat (length frame) <= PIPE_CAPACITY ->
   Bounded.answer getaddrinfo fd ptr host port w
   = Ret tt (chan_put qb (out ++ frame) w))
  /\ (Z.testbit fl 11 = false ->
      PIPE_CAPACITY < Z.of_nat (length out) + Z.of_nat (length frame) ->
      waits (Bounded.answer getaddrinfo fd ptr host port w)).
Proof.
  intros Hok Hlen Hf Hp Hptr Hh Hs frame. subst frame.
  rewrite (length_response_frame ptr _ Hptr).
  unfold Bounded.answer. rewrite Hh, Hs.
  set (r := getaddrinfo node service _) in *.
  assert (E : (let '(_, res) :=
                 match r with GaiOk l => (0, l) | GaiErr code => (code, []) end
               in
               bind (Bounded.fd_write_w fd ptr SIZEOF_PTR)
                 (fun _ =>
                    bind (Bounded.fd_write_w fd
                            (word_bytes (wrap64 (Z.of_nat (length res)))) SIZEOF_SIZE_T)
                      (fun _ => Bounded.write_results fd res)))
              = bind (Bounded.fd_write_w fd ptr SIZEOF_PTR)
                  (fun _ =>
                     bind (Bounded.fd_write_w fd
                             (word_bytes (Z.of_nat (length (gai_list r)))) SIZEOF_SIZE_T)
                       (fun _ => Bounded.write_results fd (gai_list r)))).
  { destruct r as [l|code]; cbn [gai_list]; rewrite wrap64_small; try reflexivity;
      cbn [gai_list] in Hlen; cbn [length] in *; lia. }
  rewrite E. clear E.
  pose proof (length_word_bytes (Z.of_nat (length (gai_list r)))) as Lw.
  split.
  - intros Hfit.
    erewrite bind_ret; cycle 1.
    { eapply bounded_fd_write_w_ok; [exact Hf | reflexivity | exact Hp | | | ];
        unfold SIZEOF_PTR; lia. }
    erewrite bind_ret; cycle 1.
    { eapply bounded_fd_write_w_ok;
        [exact Hf | reflexivity | apply pipes_chan_put | | | ];
        rewrite ?length_app, ?length_take; unfold SIZEOF_SIZE_T, SIZEOF_PTR; lia. }
    rewrite chan_put_twice. cbn [f_pipe].
    destruct (bounded_write_results_cases fd qb fl (gai_list r) Hok
                (chan_put qb
                   ((out ++ take (Z.to_nat SIZEOF_PTR) ptr)
                    ++ take (Z.to_nat SIZEOF_SIZE_T)
                         (word_bytes (Z.of_nat (length (gai_list r))))) w)
                _ Hf (pipes_chan_put _ _ _)) as [Hw _].
    rewrite Hw.
    + rewrite chan_put_twice. unfold response_frame.
      rewrite !take_ge by (unfold SIZEOF_PTR, SIZEOF_SIZE_T; lia).
      rewrite <- !app_assoc. reflexivity.
    + rewrite !length_app, !length_take. unfold SIZEOF_PTR, SIZEOF_SIZE_T. lia.
  - intros Hfl Hfull.
    destruct (Z.le_gt_cases (Z.of_nat (length out) + 8) PIPE_CAPACITY) as [H1|H1]; cycle 1.
    { apply bind_waits.
      apply (bounded_fd_write_w_full w fd _ out ptr SIZEOF_PTR Hf eq_refl Hfl Hp);
        unfold SIZEOF_PTR; lia. }
    erewrite bind_ret; cycle 1.
    { eapply bounded_fd_write_w_ok; [exact Hf | reflexivity | exact Hp | | | ];
        unfold SIZEOF_PTR; lia. }
    set (c1 := out ++ take (Z.to_nat SIZEOF_PTR) ptr).
    assert (L1 : Z.of_nat (length c1) = Z.of_nat (length out) + 8).
    { subst c1. rewrite length_app, length_take. unfold SIZEOF_PTR. lia. }
    destruct (Z.le_gt_cases (Z.of_nat (length c1) + 8) PIPE_CAPACITY) as [H2|H2]; cycle 1.
    { apply bind_waits.
      apply (bounded_fd_write_w_full (chan_put qb c1 w) fd _ c1 _ SIZEOF_SIZE_T
               Hf eq_refl Hfl (pipes_chan_put _ _ _)); unfold SIZEOF_SIZE_T; lia. }
    erewrite bind_ret; cycle 1.
    { eapply bounded_fd_write_w_ok;
        [exact Hf | reflexivity | apply pipes_chan_put | | | ];
        unfold SIZEOF_SIZE_T; lia. }
    rewrite chan_put_twice. cbn [f_pipe].
    destruct (bounded_write_results_cases fd qb fl (gai_list r) Hok
                (chan_put qb
                   (c1 ++ take (Z.to_nat SIZEOF_SIZE_T)
                            (word_bytes (Z.of_nat (length (gai_list r))))) w)
                _ Hf (pipes_chan_put _ _ _)) as [_ Hw].
    apply Hw; [exact Hfl | | ]; rewrite length_app, length_take;
      unfold SIZEOF_SIZE_T; lia.
Qed.

(** One turn of the worker with a request waiting: the response goes out
    when it fits, and else the worker waits in [fd_write]. *)
Lemma bounded_resolver_body_cases getaddrinfo (w : world) fdi fdo qa qb fli flo
      p host port rest out :
  Forall node_ok (owed getaddrinfo (p, (host, port))) ->
  Z.of_nat (length (owed getaddrinfo (p, (host, port)))) < 2 ^ 64 ->
  qa <> qb ->
  files w !! fdi = Some (File qa false fli) ->
  files w !! fdo = Some (File qb true flo) ->
  pipes w !! qa = Some (request_frame p host port ++ rest) ->
  pipes w !! qb = Some out ->
  Byte.x00 ∉ host -> Z.of_nat (length host) < sizeof_host ->
  Byte.x00 ∉ port -> Z.of_nat (length port) < sizeof_port ->
  let frame := response_frame (word_bytes p) (owed getaddrinfo (p, (host, port))) in
  (Z.of_nat (length out) + Z.of_nat (length frame) <= PIPE_CAPACITY ->
   Bounded.resolver_body getaddrinfo fdi fdo w
   = Ret tt (chan_put qb (out ++ frame) (chan_put qa rest w)))
  /\ (Z.testbit flo 11 = false ->
      PIPE_CAPACITY < Z.of_nat (length out) + Z.of_nat (length frame) ->
      waits (Bounded.resolver_body getaddrinfo fdi fdo w)).
Proof.
  intros Hok Hlen Hq Hfi Hfo Hpa Hpb Hh Hhl Hs Hsl frame. subst frame.
  unfold Bounded.resolver_body.
  erewrite bind_ret; cycle 1.
  { eapply read_request_ok; [exact Hfi | exact Hpa | lia | lia]. }
  cbn [fst snd].
  apply (bounded_answer_cases getaddrinfo (chan_put qa rest w) fdo qb flo out
           (word_bytes p) _ _ host port Hok Hlen Hfo).
  - rewrite pipes_chan_put_ne by exact Hq. exact Hpb.
  - apply length_word_bytes.
  - apply cstring_padded; [exact Hh | unfold sizeof_host in *; lia].
  - apply cstring_padded; [exact Hs | unfold sizeof_port in *; lia].
Qed.









(** ** What [fd_read] does right *)

(** Whatever the chunks [read] delivers in, and whatever failures come in
    between, [fd_read] gathers the bytes in order. *)
Lemma fd_read_loop_gathers fd size s data :
  delivers s data ->
  forall buf p ret todo fuel,
    let ret' := Z.max ret 0 in
    0 <= p ->
    p + ret' + Z.of_nat (length data) = size ->
    todo - ret' = Z.of_nat (length data) ->
    size <= Z.of_nat (length buf) -> size < 2 ^ 64 ->
    (length s < fuel)%nat ->
    fd_read_loop script_read fuel fd size buf p ret todo s
    = Ret (take (Z.to_nat (p + ret')) buf ++ data
           ++ drop (Z.to_nat size) buf) [].
Proof.
  induction 1 as [|e s d Hd IH Hne|c s d Hc Hd IH];
    intros buf p ret todo fuel ret' Hp Hsize Htodo Hbuf Hlt Hfuel;
    (destruct fuel as [|fuel]; [cbn in Hfuel; lia|]); cbn [fd_read_loop].
  - replace (if ret <? 0 then 0 else ret) with ret'
      by (subst ret'; destruct (Z.ltb_spec ret 0); lia).
    cbn [length] in Hsize.
    replace (p + ret') with size by lia. rewrite Z.eqb_refl.
    unfold io_exit. destruct (Z.ltb_spec ret' 0) as [E|_]; [lia|].
    cbn [app]. rewrite take_drop. reflexivity.
  - replace (if ret <? 0 then 0 else ret) with ret'
      by (subst ret'; destruct (Z.ltb_spec ret 0); lia).
    assert (0 < Z.of_nat (length d)) by (destruct d; [contradiction | cbn; lia]).
    destruct (Z.eqb_spec (p + ret') size) as [E|_]; [lia|].
    cbn [script_read]. unfold io_again. cbn [Z.eqb negb orb].
    rewrite (IH buf (p + ret') (-1) (wrap64 (todo - ret')) fuel).
    + cbn [Z.max Z.compare]. rewrite Z.add_0_r. reflexivity.
    + lia.
    + cbn [Z.max Z.compare]. lia.
    + cbn [Z.max Z.compare]. rewrite wrap64_small by lia. lia.
    + exact Hbuf.
    + exact Hlt.
    + cbn [length] in Hfuel. lia.
  - replace (if ret <? 0 then 0 else ret) with ret'
      by (subst ret'; destruct (Z.ltb_spec ret 0); lia).
    assert (0 < Z.of_nat (length c)) by (destruct c; [contradiction | cbn; lia]).
    rewrite length_app in Hsize, Htodo.
    destruct (Z.eqb_spec (p + ret') size) as [E|_]; [lia|].
    cbn [script_read]. unfold store.
    destruct (Z.leb_spec 0 (p + ret')) as [_|E]; [|lia].
    destruct (Z.leb_spec (p + ret' + Z.of_nat (length c)) (Z.of_nat (length buf)))
      as [_|E]; [|lia].
    cbn [andb]. unfold io_again.
    destruct (Z.eqb_spec (Z.of_nat (length c)) 0) as [E|_]; [lia|].
    cbn [negb orb].
    rewrite (IH _ (p + ret') (Z.of_nat (length c)) (wrap64 (todo - ret')) fuel).
    + rewrite Z.max_l by lia.
      set (q := Z.to_nat (p + ret')).
      replace (Z.to_nat (p + ret' + Z.of_nat (length c))) with (q + length c)%nat
        by (subst q; lia).
      assert (Hq : length (take q buf) = q) by (rewrite length_take; subst q; lia).
      rewrite (app_assoc (take q buf) c).
      rewrite take_app_length' by (rewrite length_app, Hq; reflexivity).
      rewrite <- !app_assoc. do 3 f_equal.
      rewrite (app_assoc (take q buf) c).
      rewrite drop_app_ge by (rewrite length_app, Hq; lia).
      rewrite length_app, Hq, drop_drop. do 2 f_equal. subst q. lia.
    + lia.
    + rewrite Z.max_l by lia. lia.
    + rewrite Z.max_l by lia. rewrite wrap64_small by lia. lia.
    + rewrite !length_app, length_take, length_drop. lia.
    + exact Hlt.
    + cbn [length] in Hfuel. lia.
Qed.

Lemma fd_read_gathers fd buf s data :
  delivers s data ->
  Z.of_nat (length data) <= Z.of_nat (length buf) ->
  Z.of_nat (length data) < 2 ^ 64 ->
  fd_read script_read (S (length s)) fd buf (Z.of_nat (length data)) s
  = Ret (data ++ drop (length data) buf) [].
Proof.
  intros Hd Hbuf Hlt. unfold fd_read.
  rewrite (fd_read_loop_gathers fd _ s data Hd); cbn [Z.max Z.compare]; try lia.
  cbn [Z.add Z.to_nat take app]. rewrite Nat2Z.id. reflexivity.
Qed.

(** * The claims *)

(** ** Raw I/O *)

Lemma io_again_false ret e : io_again ret e = false -> ret = 0.
Proof.
  unfold io_again. intros H. apply orb_false_elim in H. destruct H as [H _].
  apply negb_false_iff in H. apply Z.eqb_eq in H. exact H.
Qed.

(** The [fatal] after the loop of [fd_read] is dead code: the loop is left
    only by [break], where [ret >= 0], or with [ret == 0]. *)
Lemma fd_read_loop_never_fatal {K} (sys_read : K -> Z -> Z -> rd * K) fuel :
  forall fd size buf p ret todo k msg k',
    fd_read_loop sys_read fuel fd size buf p ret todo k <> Fatal msg k'.
Proof.
  induction fuel as [|fuel IH]; intros fd size buf p ret todo k msg k';
    cbn [fd_read_loop]; [discriminate|].
  destruct (_ =? size).
  - unfold io_exit. destruct (ret <? 0) eqn:E.
    + cbn. discriminate.
    + rewrite E. discriminate.
  - destruct (sys_read k fd _) as [[data|e|] k1]; [| |discriminate].
    + destruct (store buf _ data) as [buf'|]; [|discriminate].
      destruct (io_again _ None) eqn:E; [apply IH|].
      apply io_again_false in E. rewrite E. cbn. discriminate.
    + destruct (io_again (-1) (Some e)) eqn:E; [apply IH|].
      apply io_again_false in E. discriminate.
Qed.

Lemma fd_write_loop_never_fatal {K} (sys_write : K -> Z -> list byte -> wr * K) fuel :
  forall fd size buf p ret todo k msg k',
    fd_write_loop sys_write fuel fd size buf p ret todo k <> Fatal msg k'.
Proof.
  induction fuel as [|fuel IH]; intros fd size buf p ret todo k msg k';
    cbn [fd_write_loop]; [discriminate|].
  destruct (_ =? size).
  - unfold io_exit. destruct (ret <? 0) eqn:E.
    + cbn. discriminate.
    + rewrite E. discriminate.
  - destruct (slice buf _ _) as [data|]; [|discriminate].
    destruct (sys_write k fd data) as [[n|e|] k1]; [| |discriminate].
    + destruct (io_again n None) eqn:E; [apply IH|].
      apply io_again_false in E. rewrite E. cbn. discriminate.
    + destruct (io_again (-1) (Some e)) eqn:E; [apply IH|].
      apply io_again_false in E. discriminate.
Qed.

(** C4 (the code departs from the claim). The claim: [fd_read] and
    [fd_write] return only once all [n] bytes are through, retry on [EINTR]
    and [EAGAIN], and end the process on any other failure. The code: the
    loop condition [ret || ...] holds for every negative [ret], so every
    failure is retried and [fatal] is never reached; and a [read] or [write]
    that returns 0 leaves the loop, after which the primitive returns with
    fewer than [n] bytes through. *)
Theorem raw_io_never_fatal_and_returns_short :
  (forall K (sys_read : K -> Z -> Z -> rd * K) fuel fd buf size k msg k',
      fd_read sys_read fuel fd buf size k <> Fatal msg k')
  /\ (forall K (sys_write : K -> Z -> list byte -> wr * K) fuel fd buf size k msg k',
        fd_write sys_write fuel fd buf size k <> Fatal msg k')
  /\ fd_read script_read 8 0 (zeros 4) 4 [RdGot [Byte.x01]; RdGot []]
     = Ret [Byte.x01; Byte.x00; Byte.x00; Byte.x00] []
  /\ fd_read script_read 8 0 (zeros 2) 2
             [RdErr EIO; RdErr EBADF; RdGot [Byte.x01; Byte.x02]]
     = Ret [Byte.x01; Byte.x02] []
  /\ fd_write script_write 8 1 [Byte.x01; Byte.x02] 2 [WrPut 1; WrPut 0]
     = Ret tt []
  /\ fd_write script_write 8 1 [Byte.x01; Byte.x02] 2 [WrErr EPIPE; WrPut 2]
     = Ret tt [].
Proof.
  split; [|split].
  - intros. unfold fd_read. apply fd_read_loop_never_fatal.
  - intros K sys_write fuel fd buf size k msg k'. unfold fd_write.
    pose proof (fd_write_loop_never_fatal sys_write fuel fd size buf 0 0 size k) as H.
    destruct (fd_write_loop sys_write fuel fd size buf 0 0 size k);
      try discriminate.
    exfalso. eapply H. reflexivity.
  - repeat split; vm_compute; reflexivity.
Qed.

(** ** The worker and its buffers *)

Lemma not_in_long_host : Byte.x00 ∉ long_host.
Proof.
  unfold long_host. intros H. apply elem_of_replicate in H.
  destruct H as [H _]. discriminate.
Qed.

Lemma length_long_host : Z.of_nat (length long_host) = sizeof_host.
Proof. unfold long_host. rewrite length_replicate. reflexivity. Qed.

(** C3 (the code departs from the claim). The claim: a declared host length
    of 4096, or a declared service length of 5, is refused with the fatal
    error before the payload is read. The code compares with [>] against
    [sizeof(host)] and [sizeof(port)]: such a frame is read whole, the
    buffer is left without its terminating NUL, and [getaddrinfo] is handed
    a string that runs off the end of the buffer. One byte more is
    refused. *)
Theorem length_equal_to_buffer_is_not_refused g (w : world) fdi fdo qa fli
        p host port rest :
  files w !! fdi = Some (File qa false fli) ->
  pipes w !! qa = Some (request_frame p host port ++ rest) ->
  Byte.x00 ∉ host -> Byte.x00 ∉ port ->
  Z.of_nat (length host) <= sizeof_host ->
  Z.of_nat (length port) <= sizeof_port ->
  Z.of_nat (length host) = sizeof_host \/ Z.of_nat (length port) = sizeof_port ->
  read_request fdi w
  = Ret (word_bytes p,
         (host ++ zeros (Z.to_nat sizeof_host - length host),
          port ++ zeros (Z.to_nat sizeof_port - length port)))
        (chan_put qa rest w)
  /\ resolver_body g fdi fdo w = Undefined.
Proof.
  intros Hf Hp Hh Hs Hhl Hsl Hfull.
  pose proof (read_request_ok _ _ _ _ _ _ _ _ Hf Hp Hhl Hsl) as E.
  split; [exact E|].
  unfold resolver_body. rewrite (bind_ret _ _ _ _ _ E). cbn [fst snd].
  unfold answer.
  destruct Hfull as [Hfull|Hfull].
  - replace (Z.to_nat sizeof_host - length host)%nat with 0%nat by lia.
    change (zeros 0) with (@nil byte). rewrite app_nil_r.
    rewrite (cstring_full _ Hh). reflexivity.
  - replace (Z.to_nat sizeof_port - length port)%nat with 0%nat by lia.
    change (zeros 0) with (@nil byte). rewrite (app_nil_r port).
    rewrite (cstring_full _ Hs).
    destruct (cstring _); reflexivity.
Qed.

Lemma length_equal_to_buffer_is_not_refused_witness :
  read_request 3 (chan_put 3 (request_frame 1 long_host str_80) started_world)
  = Ret (word_bytes 1,
         (long_host ++ zeros (Z.to_nat sizeof_host - length long_host),
          str_80 ++ zeros (Z.to_nat sizeof_port - length str_80)))
        (chan_put 3 [] (chan_put 3 (request_frame 1 long_host str_80) started_world))
  /\ resolver_body sample_lookup 3 6
       (chan_put 3 (request_frame 1 long_host str_80) started_world)
     = Undefined.
Proof.
  apply (length_equal_to_buffer_is_not_refused sample_lookup
           (chan_put 3 (request_frame 1 long_host str_80) started_world)
           3 6 3 O_RDONLY 1 long_host str_80 []).
  - reflexivity.
  - rewrite pipes_chan_put, app_nil_r. reflexivity.
  - exact not_in_long_host.
  - vm_compute. intros H. repeat (apply elem_of_cons in H; destruct H as [H|H]; [discriminate|]).
    apply elem_of_nil in H. exact H.
  - rewrite length_long_host. lia.
  - vm_compute. discriminate.
  - left. exact length_long_host.
Defined.

Lemma not_in_str (s : list byte) :
  forallb (fun b => negb (Byte.eqb b Byte.x00)) s = true -> Byte.x00 ∉ s.
Proof.
  induction s as [|b s IH]; intros H Hin.
  - apply elem_of_nil in Hin. exact Hin.
  - cbn [forallb] in H. apply andb_prop in H. destruct H as [Hb Hs].
    apply elem_of_cons in Hin. destruct Hin as [<-|Hin].
    + discriminate.
    + exact (IH Hs Hin).
Qed.

(** The service side of the same slip, and the first length that is
    refused. *)
Example service_of_5_bytes_is_not_refused :
  resolver_body sample_lookup 3 6
    (chan_put 3 (request_frame 1 str_a str_12345) started_world)
  = Undefined.
Proof. vm_compute. reflexivity. Qed.

Example host_of_4097_bytes_is_refused :
  match read_request 3
          (chan_put 3 (request_frame 1 (Byte.x61 :: long_host) str_80) started_world)
  with
  | Fatal msg w' =>
      msg = "invalid host_len"
      /\ pipes w' !! 3
         = Some ((Byte.x61 :: long_host) ++ word_bytes 2 ++ str_80)
  | _ => False
  end.
Proof. vm_compute. split; reflexivity. Qed.

(** C6. A host of at most 4095 bytes and a service of at most 4 bytes,
    written by [resolve] and read back by the worker, are in [host] and
    [port] byte for byte, followed by zeros: nothing is cut off, and each
    buffer holds the string that was submitted. *)
Theorem request_strings_round_trip (w : world) fdi qa fl fli p host port :
  files w !! _fd w = Some (File qa true fl) ->
  files w !! fdi = Some (File qa false fli) ->
  pipes w !! qa = Some [] ->
  Byte.x00 ∉ host -> Z.of_nat (length host) <= 4095 ->
  Byte.x00 ∉ port -> Z.of_nat (length port) <= 4 ->
  exists ptr hostbuf portbuf w',
    bind (resolve p host port) (fun _ => read_request fdi) w
    = Ret (ptr, (hostbuf, portbuf)) w'
    /\ ptr = word_bytes p
    /\ length hostbuf = Z.to_nat sizeof_host
    /\ length portbuf = Z.to_nat sizeof_port
    /\ take (length host) hostbuf = host
    /\ take (length port) portbuf = port
    /\ cstring hostbuf = Some host
    /\ cstring portbuf = Some port
    /\ pipes w' !! qa = Some [].
Proof.
  intros Hf Hfi Hp Hh Hhl Hs Hsl.
  erewrite bind_ret; cycle 1.
  { eapply resolve_ok; [exact Hf | exact Hp | exact Hh | lia | exact Hs | lia]. }
  rewrite app_nil_l.
  erewrite read_request_ok;
    [| exact Hfi | rewrite pipes_chan_put, app_nil_r; reflexivity
     | unfold sizeof_host; lia | unfold sizeof_port; lia].
  do 4 eexists. split; [reflexivity|].
  repeat split.
  - rewrite length_app, length_zeros. unfold sizeof_host. lia.
  - rewrite length_app, length_zeros. unfold sizeof_port. lia.
  - apply take_app_length.
  - apply take_app_length.
  - apply cstring_padded; [exact Hh | unfold sizeof_host; lia].
  - apply cstring_padded; [exact Hs | unfold sizeof_port; lia].
  - rewrite chan_put_twice. apply pipes_chan_put.
Qed.

Lemma request_strings_round_trip_witness :
  exists ptr hostbuf portbuf w',
    bind (resolve 1 str_invalid str_80) (fun _ => read_request 3) started_world
    = Ret (ptr, (hostbuf, portbuf)) w'
    /\ ptr = word_bytes 1
    /\ length hostbuf = Z.to_nat sizeof_host
    /\ length portbuf = Z.to_nat sizeof_port
    /\ take (length str_invalid) hostbuf = str_invalid
    /\ take (length str_80) portbuf = str_80
    /\ cstring hostbuf = Some str_invalid
    /\ cstring portbuf = Some str_80
    /\ pipes w' !! 3 = Some [].
Proof.
  apply (request_strings_round_trip started_world 3 3 O_WRONLY O_RDONLY
           1 str_invalid str_80).
  - reflexivity.
  - reflexivity.
  - reflexivity.
  - apply not_in_str. reflexivity.
  - vm_compute. discriminate.
  - apply not_in_str. reflexivity.
  - vm_compute. discriminate.
Defined.

(** C5. When the lookup fails the worker still answers: the response is the
    tag of the request followed by a count of zero, whatever the error code
    was, and the machine ends up exactly as after a lookup that succeeded
    with no address. *)
Theorem failed_lookup_answers_empty g (w : world) fdi fdo qa qb fli flo
        p host port rest out code :
  qa <> qb ->
  files w !! fdi = Some (File qa false fli) ->
  files w !! fdo = Some (File qb true flo) ->
  pipes w !! qa = Some (request_frame p host port ++ rest) ->
  pipes w !! qb = Some out ->
  Byte.x00 ∉ host -> Z.of_nat (length host) <= 4095 ->
  Byte.x00 ∉ port -> Z.of_nat (length port) <= 4 ->
  g host port (Hints AF_INET SOCK_STREAM AI_PASSIVE 0) = GaiErr code ->
  resolver_body g fdi fdo w
  = Ret tt (chan_put qb (out ++ word_bytes p ++ word_bytes 0) (chan_put qa rest w))
  /\ forall g',
      g' host port (Hints AF_INET SOCK_STREAM AI_PASSIVE 0) = GaiOk [] ->
      resolver_body g' fdi fdo w = resolver_body g fdi fdo w.
Proof.
  intros Hq Hfi Hfo Hpa Hpb Hh Hhl Hs Hsl Hg.
  assert (E : forall g0,
             owed g0 (p, (host, port)) = [] ->
             resolver_body g0 fdi fdo w
             = Ret tt (chan_put qb (out ++ word_bytes p ++ word_bytes 0)
                                (chan_put qa rest w))).
  { intros g0 H0.
    rewrite (resolver_body_ok g0 w fdi fdo qa qb fli flo p host port rest out);
      try assumption.
    - rewrite H0. unfold response_frame, records_bytes. cbn [length map concat].
      rewrite app_nil_r. reflexivity.
    - rewrite H0. constructor.
    - rewrite H0. cbn. lia.
    - unfold sizeof_host. lia.
    - unfold sizeof_port. lia. }
  split.
  - apply E. unfold owed. cbn [fst snd]. rewrite Hg. reflexivity.
  - intros g' Hg'. rewrite !E; [reflexivity | |].
    + unfold owed. cbn [fst snd]. rewrite Hg. reflexivity.
    + unfold owed. cbn [fst snd]. rewrite Hg'. reflexivity.
Qed.

Lemma failed_lookup_answers_empty_witness :
  resolver_body sample_lookup 3 6
    (chan_put 3 (request_frame 2 str_invalid str_80) started_world)
  = Ret tt (chan_put 5 ([] ++ word_bytes 2 ++ word_bytes 0)
              (chan_put 3 []
                 (chan_put 3 (request_frame 2 str_invalid str_80) started_world)))
  /\ forall g',
      g' str_invalid str_80 (Hints AF_INET SOCK_STREAM AI_PASSIVE 0) = GaiOk [] ->
      resolver_body g' 3 6
        (chan_put 3 (request_frame 2 str_invalid str_80) started_world)
      = resolver_body sample_lookup 3 6
          (chan_put 3 (request_frame 2 str_invalid str_80) started_world).
Proof.
  apply (failed_lookup_answers_empty sample_lookup
           (chan_put 3 (request_frame 2 str_invalid str_80) started_world)
           3 6 3 5 O_RDONLY O_WRONLY 2 str_invalid str_80 [] [] (-2)).
  - lia.
  - reflexivity.
  - reflexivity.
  - rewrite pipes_chan_put, app_nil_r. reflexivity.
  - reflexivity.
  - apply not_in_str. reflexivity.
  - vm_compute. discriminate.
  - apply not_in_str. reflexivity.
  - vm_compute. discriminate.
  - reflexivity.
Defined.

(** ** The caller *)

Lemma sample_lookup_ok : gai_ok sample_lookup.
Proof.
  intros node service hints. unfold sample_lookup.
  destruct node as [|b node]; [split; [constructor | cbn; lia]|].
  destruct (Byte.eqb b Byte.x69); [split; [constructor | cbn; lia]|].
  split; [|cbn; lia].
  repeat constructor; vm_compute; discriminate.
Qed.

(** C2. With nothing else under way, the tag given to [resolve] is the tag
    [resolve_result] returns, for every tag and whatever the lookup finds:
    the worker copies the eight bytes it read to the start of its
    response. *)
Theorem tag_round_trip g (w : world) fdi fdo qa qb p host port :
  wired w fdi fdo qa qb ->
  pipes w !! qa = Some [] -> pipes w !! qb = Some [] ->
  heap_ok w ->
  request_ok (p, (host, port)) ->
  Forall node_ok (owed g (p, (host, port))) ->
  Z.of_nat (length (owed g (p, (host, port)))) < 2 ^ 64 ->
  brk w + heap_need (owed g (p, (host, port))) <= heap_end w ->
  exists r w',
    bind (resolve p host port)
         (fun _ => bind (resolver_body g fdi fdo) (fun _ => resolve_result)) w
    = Ret (p, r) w'.
Proof.
  intros Hw Hqa Hqb Hh (Hp & Hh0 & Hhl & Hs0 & Hsl) Hok Hlen Hroom.
  cbn [fst snd] in *.
  pose proof Hw as (Hq & [f1 H1] & H2 & [f3 H3] & [f4 H4]).
  erewrite bind_ret; cycle 1.
  { eapply resolve_ok; [exact H1 | exact Hqa | exact Hh0 | lia | exact Hs0 | lia]. }
  rewrite app_nil_l.
  assert (Hqa' : pipes (chan_put qa (request_frame p host port) w) !! qa
                 = Some (request_frame p host port ++ []))
    by (rewrite pipes_chan_put, app_nil_r; reflexivity).
  assert (Hqb' : pipes (chan_put qa (request_frame p host port) w) !! qb = Some [])
    by (rewrite pipes_chan_put_ne by exact Hq; exact Hqb).
  erewrite bind_ret; cycle 1.
  { apply (resolver_body_ok g (chan_put qa (request_frame p host port) w)
             fdi fdo qa qb _ _ p host port [] []
             Hok Hlen Hq H2 H3 Hqa' Hqb' Hh0); [|exact Hs0|].
    - unfold sizeof_host. lia.
    - unfold sizeof_port. lia. }
  rewrite app_nil_l, chan_put_twice.
  erewrite (resolve_result_ok _ qb f4 (word_bytes p)
              (on_wire <$> owed g (p, (host, port))) []).
  - rewrite word_val_bytes by exact Hp. do 2 eexists. reflexivity.
  - exact H4.
  - rewrite pipes_chan_put, response_frame_on_wire, app_nil_r. reflexivity.
  - apply length_word_bytes.
  - apply Forall_on_wire. exact Hok.
  - rewrite length_fmap. exact Hlen.
  - exact Hh.
  - rewrite heap_need_on_wire. exact Hroom.
Qed.

Lemma started_world_wired : wired started_world 3 6 3 5.
Proof.
  unfold wired. repeat split; try (eexists; reflexivity); try reflexivity. lia.
Qed.

Lemma started_world_heap_ok : heap_ok started_world.
Proof.
  repeat split; try (cbn; lia).
  intros a [x Hx]. cbn in Hx. rewrite lookup_empty in Hx. discriminate.
Qed.

Lemma tag_round_trip_witness :
  exists r w',
    bind (resolve 1094795585 str_a str_80)
         (fun _ => bind (resolver_body sample_lookup 3 6) (fun _ => resolve_result))
         started_world
    = Ret (1094795585, r) w'.
Proof.
  apply (tag_round_trip sample_lookup started_world 3 6 3 5 1094795585 str_a str_80).
  - exact started_world_wired.
  - reflexivity.
  - reflexivity.
  - exact started_world_heap_ok.
  - repeat split; try (apply not_in_str; reflexivity); vm_compute; discriminate.
  - apply sample_lookup_ok.
  - vm_compute. reflexivity.
  - vm_compute. discriminate.
Defined.

(** C9. Whatever the tag and the count of the frame at the head of the
    result pipe, [resolve_result] takes that frame and not a byte more, the
    descriptor of the result pipe is non-blocking when it returns, and no
    other descriptor has its entry touched. *)
Theorem resolve_result_frame_effect (w : world) qb fl ptr recs rest :
  files w !! _fdres w = Some (File qb false fl) ->
  pipes w !! qb = Some (response_frame ptr recs ++ rest) ->
  length ptr = 8%nat ->
  Forall wire_ok recs ->
  Z.of_nat (length recs) < 2 ^ 64 ->
  heap_ok w ->
  brk w + heap_need recs <= heap_end w ->
  exists r w',
    resolve_result w = Ret r w'
    /\ channel w' (_fdres w) = Some rest
    /\ nonblocking w' (_fdres w) = true
    /\ (forall fd, fd <> _fdres w -> files w' !! fd = files w !! fd)
    /\ (forall q, q <> qb -> pipes w' !! q = pipes w !! q)
    /\ _fdres w' = _fdres w.
Proof.
  intros Hf Hp Hptr Hok Hn Hh Hroom.
  rewrite (resolve_result_ok w qb fl ptr recs rest Hf Hp Hptr Hok Hn Hh Hroom).
  do 2 eexists. split; [reflexivity|].
  repeat split.
  - unfold channel. wsimpl. rewrite lookup_insert_eq. cbn [f_pipe].
    apply lookup_insert_eq.
  - unfold nonblocking. wsimpl. rewrite lookup_insert_eq. cbn [f_flags].
    apply testbit_nonblock_on.
  - intros fd Hfd. wsimpl. apply lookup_insert_ne. congruence.
  - intros q Hq. wsimpl. apply lookup_insert_ne. congruence.
Qed.

Lemma served_world_frame :
  pipes served_world !! 5
  = Some (response_frame (word_bytes 1)
            (on_wire <$> [sample_node Byte.x01 28672; sample_node Byte.x02 0])
          ++ []).
Proof. vm_compute. reflexivity. Qed.

Lemma sample_records_ok :
  Forall wire_ok (on_wire <$> [sample_node Byte.x01 28672; sample_node Byte.x02 0]).
Proof. repeat constructor; vm_compute; reflexivity. Qed.

Lemma served_world_heap_ok : heap_ok served_world.
Proof.
  repeat split; try (vm_compute; congruence).
  intros a [x Hx]. vm_compute in Hx. discriminate.
Qed.

Lemma resolve_result_frame_effect_witness :
  exists r w',
    resolve_result served_world = Ret r w'
    /\ channel w' (_fdres served_world) = Some []
    /\ nonblocking w' (_fdres served_world) = true
    /\ (forall fd, fd <> _fdres served_world ->
                   files w' !! fd = files served_world !! fd)
    /\ (forall q, q <> 5 -> pipes w' !! q = pipes served_world !! q)
    /\ _fdres w' = _fdres served_world.
Proof.
  apply (resolve_result_frame_effect served_world 5 O_RDONLY (word_bytes 1)
           (on_wire <$> [sample_node Byte.x01 28672; sample_node Byte.x02 0]) []).
  - vm_compute. reflexivity.
  - exact served_world_frame.
  - reflexivity.
  - exact sample_records_ok.
  - vm_compute. reflexivity.
  - exact served_world_heap_ok.
  - vm_compute. discriminate.
Defined.

Lemma length_linked res : forall b, length (linked b res) = length res.
Proof.
  induction res as [|n res IH]; intros b; [reflexivity|].
  cbn [linked length]. rewrite IH. reflexivity.
Qed.

Lemma linked_blobs res : forall b,
  0 < b -> b + heap_need res <= 2 ^ 64 -> Forall wire_ok res ->
  (fun n => ai_addr (ai_struct n)) <$> (linked b res).*2
  = (fun x => x + 48) <$> node_addrs b res.
Proof.
  induction res as [|n res IH]; intros b Hb Hn Hok; [reflexivity|].
  inversion Hok as [|? ? [Hst Hsa] Hok']; subst.
  cbn [linked node_addrs fmap list_fmap snd heap_need] in *.
  pose proof (ai_addrlen_range (ai_struct n)) as Hr.
  pose proof (heap_need_nonneg res) as Hneed. unfold node_span in *.
  f_equal.
  - cbn [ai_struct]. apply ai_addr_set; [exact Hst | lia].
  - apply IH; [lia | lia | exact Hok'].
Qed.

(** C10. For a frame of [n] records, [resolve_result] returns the tag and a
    list of [n] records that ends in NULL: every record and every address
    is a block of its own that was not there before the call, the scalar
    fields and the address bytes are those of the frame, and the blocks
    that were there are untouched. With [n = 0] the list is NULL. *)
Theorem resolve_result_list (w : world) qb fl ptr recs rest :
  files w !! _fdres w = Some (File qb false fl) ->
  pipes w !! qb = Some (response_frame ptr recs ++ rest) ->
  length ptr = 8%nat ->
  Forall wire_ok recs ->
  Z.of_nat (length recs) < 2 ^ 64 ->
  heap_ok w ->
  brk w + heap_need recs <= heap_end w ->
  exists first w' l,
    resolve_result w = Ret (word_val ptr, first) w'
    /\ ai_list (heap w') first l
    /\ length l = length recs
    /\ (recs = [] -> first = 0)
    /\ payload <$> l.*2 = payload <$> recs
    /\ NoDup (l.*1 ++ ((fun n => ai_addr (ai_struct n)) <$> l.*2))
    /\ Forall (fun a => heap w !! a = None)
              (l.*1 ++ ((fun n => ai_addr (ai_struct n)) <$> l.*2))
    /\ (forall a, is_Some (heap w !! a) -> heap w' !! a = heap w !! a).
Proof.
  intros Hf Hp Hptr Hok Hn Hh Hroom.
  rewrite (resolve_result_ok w qb fl ptr recs rest Hf Hp Hptr Hok Hn Hh Hroom).
  destruct Hh as (Hb & Hend & Hdom).
  exists (first_addr (brk w) recs). eexists. exists (linked (brk w) recs).
  split; [reflexivity|]. wsimpl.
  assert (Hfresh : forall a, brk w <= a -> heap w !! a = None).
  { intros a Ha. destruct (heap w !! a) eqn:E; [|reflexivity].
    specialize (Hdom a (ltac:(eexists; exact E))). lia. }
  repeat split.
  - apply built_ai_list; [lia | lia | exact Hok].
  - apply length_linked.
  - intros ->. reflexivity.
  - apply payload_linked. exact Hok.
  - rewrite linked_addrs, linked_blobs by (try exact Hok; lia).
    apply node_addrs_NoDup.
  - rewrite linked_addrs, linked_blobs by (try exact Hok; lia).
    apply Forall_app. split.
    + apply Forall_forall. intros x Hx. apply node_addrs_range in Hx.
      apply Hfresh. lia.
    + apply Forall_forall. intros x Hx.
      apply list_elem_of_fmap in Hx. destruct Hx as (y & -> & Hy).
      apply node_addrs_range in Hy. apply Hfresh. lia.
  - intros a Ha. apply built_below. apply Hdom. exact Ha.
Qed.

Lemma resolve_result_list_witness :
  exists first w' l,
    resolve_result served_world = Ret (word_val (word_bytes 1), first) w'
    /\ ai_list (heap w') first l
    /\ length l
       = length (on_wire <$> [sample_node Byte.x01 28672; sample_node Byte.x02 0])
    /\ (on_wire <$> [sample_node Byte.x01 28672; sample_node Byte.x02 0] = [] ->
        first = 0)
    /\ payload <$> l.*2
       = payload <$> (on_wire <$> [sample_node Byte.x01 28672; sample_node Byte.x02 0])
    /\ NoDup (l.*1 ++ ((fun n => ai_addr (ai_struct n)) <$> l.*2))
    /\ Forall (fun a => heap served_world !! a = None)
              (l.*1 ++ ((fun n => ai_addr (ai_struct n)) <$> l.*2))
    /\ (forall a, is_Some (heap served_world !! a) ->
                  heap w' !! a = heap served_world !! a).
Proof.
  apply (resolve_result_list served_world 5 O_RDONLY (word_bytes 1)
           (on_wire <$> [sample_node Byte.x01 28672; sample_node Byte.x02 0]) []).
  - vm_compute. reflexivity.
  - exact served_world_frame.
  - reflexivity.
  - exact sample_records_ok.
  - vm_compute. reflexivity.
  - exact served_world_heap_ok.
  - vm_compute. discriminate.
Defined.

(** The list of the sample response, read off the heap. *)
Example served_list :
  match resolve_result served_world with
  | Ret r w' => r = (1, 4096)
                /\ (fun l => l.*1) <$> ai_walk 2 (heap w') (snd r) = Some [4096; 4160]
  | _ => False
  end.
Proof. vm_compute. split; reflexivity. Qed.

(** ** Starting up *)

Lemma bind_ret_inv {S A B} (m : M S A) (k : A -> M S B) s b s' :
  bind m k s = Ret b s' -> exists a s1, m s = Ret a s1 /\ k a s1 = Ret b s'.
Proof.
  unfold bind. destruct (m s) as [a s1| | | |]; try discriminate.
  intros H. exists a, s1. split; [reflexivity | exact H].
Qed.

(** What the calls between [resolver_start] and the end of a
    [resolve_result] leave of the descriptor table: [read] and [write] on a
    pipe, [malloc] and the stores to the heap do not touch it. *)
Lemma pipe_read_files (w : world) fd n : files (snd (pipe_read w fd n)) = files w.
Proof.
  unfold pipe_read. destruct (files w !! fd) as [f|]; [|reflexivity].
  destruct (f_wr f); [reflexivity|].
  destruct (pipes w !! f_pipe f) as [[|b c]|]; try reflexivity.
  destruct (Z.testbit (f_flags f) 11); reflexivity.
Qed.

Lemma fd_read_loop_files fd size fuel : forall buf p ret todo (w : world) b w',
  fd_read_loop pipe_read fuel fd size buf p ret todo w = Ret b w' ->
  files w' = files w.
Proof.
  induction fuel as [|fuel IH]; intros buf p ret todo w b w' H; [discriminate|].
  cbn [fd_read_loop] in H.
  destruct (_ =? size) in H.
  { unfold io_exit in H. destruct (_ <? 0) in H; [discriminate|].
    inversion H. reflexivity. }
  pose proof (pipe_read_files w fd
                (wrap64 (todo - (if ret <? 0 then 0 else ret)))) as Hk.
  destruct (pipe_read w fd _) as [[data|e|] k'] in H, Hk; cbn [snd] in Hk.
  - destruct (store buf _ data) as [buf'|] in H; [|discriminate].
    destruct (io_again _ None) in H.
    + rewrite (IH _ _ _ _ _ _ _ H). exact Hk.
    + unfold io_exit in H. destruct (_ <? 0) in H; [discriminate|].
      inversion H. subst. exact Hk.
  - destruct (io_again _ (Some e)) in H.
    + rewrite (IH _ _ _ _ _ _ _ H). exact Hk.
    + unfold io_exit in H. destruct (_ <? 0) in H; [discriminate|].
      inversion H. subst. exact Hk.
  - discriminate.
Qed.

Lemma fd_read_w_files fd buf size (w : world) b w' :
  fd_read_w fd buf size w = Ret b w' -> files w' = files w.
Proof. unfold fd_read_w, fd_read. apply fd_read_loop_files. Qed.

Lemma fd_write_loop_files (sys_write : world -> Z -> list byte -> wr * world) :
  (forall w fd data, files (snd (sys_write w fd data)) = files w) ->
  forall fuel fd size buf p ret todo (w : world) b w',
    fd_write_loop sys_write fuel fd size buf p ret todo w = Ret b w' ->
    files w' = files w.
Proof.
  intros Hsys.
  induction fuel as [|fuel IH]; intros fd size buf p ret todo w b w' H;
    [discriminate|].
  cbn [fd_write_loop] in H.
  destruct (_ =? size) in H.
  { unfold io_exit in H. destruct (_ <? 0) in H; [discriminate|].
    inversion H. reflexivity. }
  destruct (slice buf _ _) as [data|] in H; [|discriminate].
  pose proof (Hsys w fd data) as Hk.
  destruct (sys_write w fd data) as [[n|e|] k'] in H, Hk; cbn [snd] in Hk.
  - destruct (io_again n None) in H.
    + rewrite (IH _ _ _ _ _ _ _ _ _ H). exact Hk.
    + unfold io_exit in H. destruct (_ <? 0) in H; [discriminate|].
      inversion H. subst. exact Hk.
  - destruct (io_again _ (Some e)) in H.
    + rewrite (IH _ _ _ _ _ _ _ _ _ H). exact Hk.
    + unfold io_exit in H. destruct (_ <? 0) in H; [discriminate|].
      inversion H. subst. exact Hk.
  - discriminate.
Qed.

Lemma bounded_pipe_write_files (w : world) fd data :
  files (snd (Bounded.pipe_write w fd data)) = files w.
Proof.
  unfold Bounded.pipe_write. destruct (files w !! fd) as [f|]; [|reflexivity].
  destruct (f_wr f); [|reflexivity].
  destruct (pipes w !! f_pipe f) as [c|]; [|reflexivity]. cbv zeta.
  destruct (_ <=? _); [reflexivity|].
  destruct (Z.testbit _ _).
  - destruct (_ || _); reflexivity.
  - destruct (_ <=? _); reflexivity.
Qed.

Lemma bounded_fd_write_w_files fd buf size (w : world) u w' :
  Bounded.fd_write_w fd buf size w = Ret u w' -> files w' = files w.
Proof.
  unfold Bounded.fd_write_w, fd_write. intros H.
  destruct (fd_write_loop _ _ _ _ _ _ _ _ w) as [b k| | | |] eqn:E; try discriminate.
  inversion H. subst.
  exact (fd_write_loop_files _ bounded_pipe_write_files _ _ _ _ _ _ _ _ _ _ E).
Qed.

Lemma bounded_resolve_files p host port (w : world) u w' :
  Bounded.resolve p host port w = Ret u w' -> files w' = files w.
Proof.
  unfold Bounded.resolve. unfold get at 1. unfold bind at 1. intros H.
  apply bind_ret_inv in H. destruct H as (? & w1 & H1 & H).
  apply bind_ret_inv in H. destruct H as (? & w2 & H2 & H).
  apply bind_ret_inv in H. destruct H as (? & w3 & H3 & H).
  apply bind_ret_inv in H. destruct H as (? & w4 & H4 & H).
  apply bind_ret_inv in H. destruct H as (? & w5 & H5 & H).
  inversion H. subst.
  apply bounded_fd_write_w_files in H1, H2, H3, H4, H5. congruence.
Qed.

Lemma xmalloc_files sz (w : world) p w' :
  xmalloc sz w = Ret p w' -> files w' = files w.
Proof.
  unfold xmalloc, malloc. unfold bind at 1.
  destruct (heap_end w <? brk w + Z.max sz 1).
  - cbn. discriminate.
  - destruct (brk w =? 0); [discriminate|].
    unfold bind, memset0, ret. wsimpl. rewrite lookup_insert_eq.
    destruct (store _ _ _); [|discriminate].
    intros H. inversion H. reflexivity.
Qed.

Lemma poke_files p off data (w : world) u w' :
  poke p off data w = Ret u w' -> files w' = files w.
Proof.
  unfold poke. destruct (heap w !! p) as [blk|]; [|discriminate].
  destruct (store _ _ _); [|discriminate]. intros H. inversion H. reflexivity.
Qed.

Lemma load_files p off n (w : world) bs w' :
  load p off n w = Ret bs w' -> files w' = files w.
Proof.
  unfold load. destruct (heap w !! p) as [blk|]; [|discriminate].
  destruct (slice _ _ _); [|discriminate]. intros H. inversion H. reflexivity.
Qed.

Lemma fd_read_heap_files fd p size (w : world) u w' :
  fd_read_heap fd p size w = Ret u w' -> files w' = files w.
Proof.
  unfold fd_read_heap. destruct (heap w !! p) as [blk|]; [|discriminate].
  intros H. apply bind_ret_inv in H. destruct H as (b & w1 & H1 & H).
  apply fd_read_w_files in H1. unfold modify in H. inversion H. subst.
  wsimpl. exact H1.
Qed.

Lemma resolve_result_loop_files fdres n : forall i first last (w : world) r w',
  resolve_result_loop n fdres i first last w = Ret r w' -> files w' = files w.
Proof.
  induction n as [|n IH]; intros i first last w r w' H.
  - inversion H. reflexivity.
  - cbn [resolve_result_loop] in H.
    apply bind_ret_inv in H. destruct H as (rp & w1 & H1 & H).
    apply bind_ret_inv in H. destruct H as (fl & w2 & H2 & H).
    apply bind_ret_inv in H. destruct H as (? & w3 & H3 & H).
    apply bind_ret_inv in H. destruct H as (len & w4 & H4 & H).
    apply bind_ret_inv in H. destruct H as (a & w5 & H5 & H).
    apply bind_ret_inv in H. destruct H as (? & w6 & H6 & H).
    apply bind_ret_inv in H. destruct H as (? & w7 & H7 & H).
    apply IH in H.
    apply xmalloc_files in H1, H5. apply fd_read_heap_files in H3, H7.
    apply load_files in H4. apply poke_files in H6.
    assert (E2 : files w2 = files w1).
    { destruct (i =? 0).
      - inversion H2. reflexivity.
      - apply bind_ret_inv in H2. destruct H2 as (? & w0 & H0 & H2).
        apply poke_files in H0. inversion H2. subst. exact H0. }
    congruence.
Qed.

(** Whenever [resolve_result] returns, it has put the descriptor it reads
    from in non-blocking mode. *)
Lemma resolve_result_sets_nonblock (w : world) r w' :
  is_Some (files w !! _fdres w) ->
  resolve_result w = Ret r w' ->
  nonblocking w' (_fdres w) = true.
Proof.
  intros [f Hf] H.
  unfold resolve_result in H. unfold get at 1 in H. unfold bind at 1 in H.
  apply bind_ret_inv in H. destruct H as (? & w1 & H1 & H).
  apply bind_ret_inv in H. destruct H as (rt & w2 & H2 & H).
  apply bind_ret_inv in H. destruct H as (nr & w3 & H3 & H).
  apply bind_ret_inv in H. destruct H as (fl & w4 & H4 & H).
  apply bind_ret_inv in H. destruct H as (? & w5 & H5 & H).
  apply bind_ret_inv in H. destruct H as (? & w6 & H6 & H).
  inversion H. subst w'.
  rewrite (fd_setblock_ok _ _ _ Hf) in H1. inversion H1. subst w1.
  apply fd_read_w_files in H2, H3. apply resolve_result_loop_files in H4.
  assert (E5 : files w5 = files w4).
  { destruct (snd fl =? 0).
    - inversion H5. reflexivity.
    - apply poke_files in H5. exact H5. }
  assert (Hf5 : files w5 !! _fdres w
                = Some (File (f_pipe f) (f_wr f)
                             (Z.land (f_flags f) (Z.lnot O_NONBLOCK)))).
  { rewrite E5, H4, H3, H2. wsimpl. apply lookup_insert_eq. }
  rewrite (fd_setnonblock_ok _ _ _ Hf5) in H6. inversion H6.
  unfold nonblocking. wsimpl. rewrite lookup_insert_eq. cbn [f_flags].
  rewrite Z.lor_spec. replace (Z.testbit O_NONBLOCK 11) with true by reflexivity.
  apply orb_true_r.
Qed.

(** C8 (the code departs from the claim). The claim has the descriptor
    non-blocking as [resolver_start] returns it. The code makes no [fcntl]
    call in [resolver_start]: what it returns is the read end of the result
    pipe, whose write end the worker holds, in the blocking mode [pipe] gave
    it. [resolve] leaves the mode alone; it is [resolve_result] that puts
    the descriptor in non-blocking mode, every time it returns, so that the
    descriptor is non-blocking between two calls of [resolve_result] but
    not before the first. *)
Theorem resolver_start_returns_blocking_read_end (w : world) pid sig :
  started w = 0 -> next_fd w + 4 <= nofile w -> pid <> -1 -> pid <> 0 ->
  exists fd w' fdi fdo p w'',
    resolver_start pid sig w = Ret (InCaller fd) w'
    /\ resolver_start 0 sig w = Ret (InWorker fdi fdo p) w''
    /\ _fdres w' = fd
    /\ files w' !! fd = Some (File fd false O_RDONLY)
    /\ files w' !! fdo = Some (File fd true O_WRONLY)
    /\ channel w' fd = Some []
    /\ nonblocking w' fd = false
    /\ (forall x, is_Some (files w !! x) -> x < next_fd w ->
                  files w' !! x = files w !! x)
    /\ (forall tag host port u w1,
          Bounded.resolve tag host port w' = Ret u w1 ->
          nonblocking w1 fd = false)
    /\ (forall w1 r w2,
          _fdres w1 = fd -> is_Some (files w1 !! fd) ->
          resolve_result w1 = Ret r w2 ->
          nonblocking w2 fd = true).
Proof.
  intros Hs Hn Hp1 Hp0.
  rewrite (resolver_start_caller _ _ _ Hs Hn Hp1 Hp0).
  rewrite (resolver_start_worker _ _ Hs Hn).
  destruct (piped_files_lookup w) as (L0 & L1 & L2 & L3).
  do 6 eexists. split; [reflexivity|]. split; [reflexivity|].
  split; [reflexivity|].
  split; [unfold piped; wsimpl; exact L2|].
  split; [unfold piped; wsimpl; exact L3|].
  split; [unfold channel, piped; wsimpl; rewrite L2; apply lookup_insert_eq|].
  split; [unfold nonblocking, piped; wsimpl; rewrite L2; reflexivity|].
  split.
  { intros x _ Hx. unfold piped, piped_files. wsimpl.
    rewrite !lookup_insert_ne by lia. reflexivity. }
  split.
  - intros tag host port u w1 H. apply bounded_resolve_files in H.
    unfold nonblocking. rewrite H. unfold piped. wsimpl. rewrite L2. reflexivity.
  - intros w1 r w2 <- Hopen H.
    apply (resolve_result_sets_nonblock w1 r w2 Hopen H).
Qed.

Lemma resolver_start_returns_blocking_read_end_witness :
  exists fd w' fdi fdo p w'',
    resolver_start 77 idle_proc fresh_world = Ret (InCaller fd) w'
    /\ resolver_start 0 idle_proc fresh_world = Ret (InWorker fdi fdo p) w''
    /\ _fdres w' = fd
    /\ files w' !! fd = Some (File fd false O_RDONLY)
    /\ files w' !! fdo = Some (File fd true O_WRONLY)
    /\ channel w' fd = Some []
    /\ nonblocking w' fd = false
    /\ (forall x, is_Some (files fresh_world !! x) -> x < next_fd fresh_world ->
                  files w' !! x = files fresh_world !! x)
    /\ (forall tag host port u w1,
          Bounded.resolve tag host port w' = Ret u w1 ->
          nonblocking w1 fd = false)
    /\ (forall w1 r w2,
          _fdres w1 = fd -> is_Some (files w1 !! fd) ->
          resolve_result w1 = Ret r w2 ->
          nonblocking w2 fd = true).
Proof.
  apply (resolver_start_returns_blocking_read_end fresh_world 77 idle_proc).
  - reflexivity.
  - vm_compute. discriminate.
  - lia.
  - lia.
Defined.

(** On a fresh machine: the descriptor [resolver_start] returns is in
    blocking mode, it still is once a request has been submitted and
    answered, and the first [resolve_result] leaves it non-blocking. *)
Lemma resolver_start_not_nonblocking :
  resolver_start 77 idle_proc fresh_world = Ret (InCaller 5) started_world
  /\ nonblocking started_world 5 = false
  /\ nonblocking served_world 5 = false
  /\ match resolve_result served_world with
     | Ret _ w => nonblocking w 5 = true
     | _ => False
     end.
Proof.
  split; [vm_compute; reflexivity|]. split; [vm_compute; reflexivity|].
  split; vm_compute; reflexivity.
Qed.

(** ** The self-check of the worker *)

Lemma ticks_app l1 l2 p : ticks (l1 ++ l2) p = ticks l2 (ticks l1 p).
Proof.
  revert p. induction l1 as [|x l1 IH]; intros p; [reflexivity|].
  cbn [app ticks]. apply IH.
Qed.

Lemma resolver_start_worker_inv (w : world) sig fdi fdo p w' :
  resolver_start 0 sig w = Ret (InWorker fdi fdo p) w' ->
  p = worker_signals sig.
Proof.
  unfold resolver_start. unfold get at 1. unfold bind at 1.
  destruct (negb (started w =? 0)); [discriminate|].
  unfold sys_pipe at 1. unfold bind at 1.
  destruct (nofile w <? next_fd w + 2); cbn [fst snd Z.ltb Z.compare];
    [discriminate|].
  unfold sys_pipe at 1. unfold bind at 1.
  match goal with |- context [if ?c then Ret (-1, _) _ else _] => destruct c end;
    cbn [fst snd Z.ltb Z.compare Z.eqb]; [discriminate|].
  unfold bind, modify, ret. intros H. inversion H. reflexivity.
Qed.

(** While the parent is not init the handler re-arms the timer. *)
Lemma tick_rearms pp p :
  pp <> 1 ->
  on_sigalrm p = sigalrm_handler_at -> alarm_left p = ALARM_TIMEOUT ->
  exited p = None ->
  on_sigalrm (tick pp p) = sigalrm_handler_at
  /\ alarm_left (tick pp p) = ALARM_TIMEOUT
  /\ exited (tick pp p) = None.
Proof.
  intros Hpp Hh Ha He. unfold tick. rewrite He, Ha.
  change (ALARM_TIMEOUT =? 0) with false. change (ALARM_TIMEOUT =? 1) with true.
  cbv beta iota. unfold deliver. cbn [on_sigalrm alarm].
  rewrite Hh. unfold sigalrm_handler.
  destruct (Z.eqb_spec pp 1) as [E|_]; [contradiction|].
  cbn [negb alarm on_sigalrm alarm_left exited].
  split; [exact Hh|]. split; [reflexivity | exact He].
Qed.

(** C7 (amended). The claim: once the parent is no longer the caller, the
    worker ends itself within two self-check intervals. The code compares
    [getppid()] with 1, not with the caller's pid: the worker ends itself at
    the first self-check that finds init as its parent, so within one
    interval of being re-parented to init; as long as its parent is any
    other process it re-arms the timer and lives on. *)
Theorem orphan_of_init_exits (w : world) sig fdi fdo p w' parents :
  resolver_start 0 sig w = Ret (InWorker fdi fdo p) w' ->
  exited sig = None ->
  Forall (fun pp => pp <> 1) parents ->
  exited (ticks parents p) = None
  /\ alarm_left (ticks parents p) = ALARM_TIMEOUT
  /\ exited (ticks (parents ++ [1]) p) = Some EXIT_FAILURE.
Proof.
  intros Hstart Hsig Hparents.
  apply resolver_start_worker_inv in Hstart. subst p.
  assert (J : on_sigalrm (ticks parents (worker_signals sig)) = sigalrm_handler_at
              /\ alarm_left (ticks parents (worker_signals sig)) = ALARM_TIMEOUT
              /\ exited (ticks parents (worker_signals sig)) = None).
  { assert (J0 : on_sigalrm (worker_signals sig) = sigalrm_handler_at
                 /\ alarm_left (worker_signals sig) = ALARM_TIMEOUT
                 /\ exited (worker_signals sig) = None)
      by (repeat split; exact Hsig).
    revert J0. generalize (worker_signals sig).
    induction Hparents as [|pp rest Hpp _ IH]; intros p J0; [exact J0|].
    cbn [ticks]. apply IH. destruct J0 as (Hh & Ha & He).
    apply tick_rearms; assumption. }
  destruct J as (Hh & Ha & He).
  repeat split; [exact He | exact Ha |].
  rewrite ticks_app. cbn [ticks]. unfold tick. rewrite He, Ha.
  change (ALARM_TIMEOUT =? 0) with false. change (ALARM_TIMEOUT =? 1) with true.
  cbv beta iota. unfold deliver. cbn [on_sigalrm alarm].
  rewrite Hh. reflexivity.
Qed.

Lemma orphan_of_init_exits_witness :
  exited (ticks [100; 100; 100] (worker_signals idle_proc)) = None
  /\ alarm_left (ticks [100; 100; 100] (worker_signals idle_proc)) = ALARM_TIMEOUT
  /\ exited (ticks ([100; 100; 100] ++ [1]) (worker_signals idle_proc))
     = Some EXIT_FAILURE.
Proof.
  apply (orphan_of_init_exits fresh_world idle_proc 3 6
           (worker_signals idle_proc)
           (with_statics 1 0 0 0 (piped fresh_world)) [100; 100; 100]).
  - vm_compute. reflexivity.
  - reflexivity.
  - repeat constructor; lia.
Defined.

(** C7, as claimed, fails: the caller (pid 100) is gone, the worker's parent
    is now process 2, two intervals go by and the worker is still there
    with its timer armed. *)
Lemma orphan_of_subreaper_survives :
  (2 : Z) <> 100
  /\ resolver_start 0 idle_proc fresh_world
     = Ret (InWorker 3 6 (worker_signals idle_proc))
           (with_statics 1 0 0 0 (piped fresh_world))
  /\ exited (ticks [2; 2] (worker_signals idle_proc)) = None
  /\ alarm_left (ticks [2; 2] (worker_signals idle_proc)) = ALARM_TIMEOUT.
Proof. split; [lia|]. repeat split; vm_compute; reflexivity. Qed.

(** ** Order of the responses *)



(** The sample run: three requests, three responses, in order. *)
Example sample_run :
  match boot 77 idle_proc fresh_world with
  | Some s0 =>
      got_tag <$> fetched (run sample_lookup sample_schedule s0) = [1; 2; 3]
      /\ fst <$> submitted (run sample_lookup sample_schedule s0) = [1; 2; 3]
      /\ got_list <$> fetched (run sample_lookup sample_schedule s0)
         = [4096; 0; 4224]
  | None => False
  end.
Proof. vm_compute. repeat split; reflexivity. Qed.

(** * More of [resolver.c] *)

(** ** The raw primitives, when the kernel cooperates *)

(** X1. However [read] cuts the bytes into chunks and whichever calls fail in
    between, [fd_read] returns once [size] bytes are in the buffer, in the
    order they came, and leaves the rest of the buffer alone. *)
Theorem fd_read_transfers_all fd (buf : list byte) s data :
  delivers s data ->
  Z.of_nat (length data) <= Z.of_nat (length buf) ->
  Z.of_nat (length data) < 2 ^ 64 ->
  fd_read script_read (S (length s)) fd buf (Z.of_nat (length data)) s
  = Ret (data ++ drop (length data) buf) [].
Proof. intros Hd Hbuf Hlt. apply fd_read_gathers; assumption. Qed.

Lemma fd_read_transfers_all_witness :
  fd_read script_read 5 0 (zeros 4) 3
    [RdGot [Byte.x01]; RdErr EINTR; RdErr EAGAIN; RdGot [Byte.x02; Byte.x03]]
  = Ret ([Byte.x01; Byte.x02; Byte.x03] ++ [Byte.x00]) [].
Proof.
  apply (fd_read_transfers_all 0 (zeros 4)
           [RdGot [Byte.x01]; RdErr EINTR; RdErr EAGAIN; RdGot [Byte.x02; Byte.x03]]
           [Byte.x01; Byte.x02; Byte.x03]).
  - apply (delivers_chunk [Byte.x01]); [discriminate|].
    apply delivers_fail; [|discriminate].
    apply delivers_fail; [|discriminate].
    apply (delivers_chunk [Byte.x02; Byte.x03] [] []); [discriminate|].
    apply delivers_done.
  - cbn. lia.
  - cbn. lia.
Defined.

Lemma accepts_nonneg s n : accepts s n -> 0 <= n.
Proof. induction 1; lia. Qed.

Lemma fd_write_loop_offers fd size (buf : list byte) s n :
  accepts s n ->
  forall p ret todo fuel out,
    let ret' := Z.max ret 0 in
    0 <= p ->
    p + ret' + n = size ->
    todo - ret' = n ->
    size <= Z.of_nat (length buf) -> size < 2 ^ 64 ->
    (length s < fuel)%nat ->
    fd_write_loop log_write fuel fd size buf p ret todo (s, out)
    = Ret buf ([], out ++ take (Z.to_nat n) (drop (Z.to_nat (p + ret')) buf)).
Proof.
  induction 1 as [|e s n Hs IH Hn|c s n Hc Hs IH];
    intros p ret todo fuel out ret' Hp Hsize Htodo Hbuf Hlt Hfuel;
    (destruct fuel as [|fuel]; [cbn in Hfuel; lia|]); cbn [fd_write_loop].
  - replace (if ret <? 0 then 0 else ret) with ret'
      by (subst ret'; destruct (Z.ltb_spec ret 0); lia).
    replace (p + ret') with size by lia. rewrite Z.eqb_refl.
    unfold io_exit. destruct (Z.ltb_spec ret' 0) as [E|_]; [lia|].
    cbn [Z.to_nat take]. rewrite app_nil_r. reflexivity.
  - replace (if ret <? 0 then 0 else ret) with ret'
      by (subst ret'; destruct (Z.ltb_spec ret 0); lia).
    destruct (Z.eqb_spec (p + ret') size) as [E|_]; [lia|].
    rewrite wrap64_small by lia.
    unfold slice.
    destruct (Z.leb_spec 0 (p + ret')) as [_|E]; [|lia].
    destruct (Z.leb_spec 0 (todo - ret')) as [_|E]; [|lia].
    destruct (Z.leb_spec (p + ret' + (todo - ret')) (Z.of_nat (length buf)))
      as [_|E]; [|lia].
    cbn [andb log_write fst snd]. unfold io_again. cbn [Z.eqb negb orb].
    rewrite (IH (p + ret') (-1) (todo - ret') fuel out).
    + cbn [Z.max Z.compare]. rewrite Z.add_0_r. reflexivity.
    + lia.
    + cbn [Z.max Z.compare]. lia.
    + cbn [Z.max Z.compare]. lia.
    + exact Hbuf.
    + exact Hlt.
    + cbn [length] in Hfuel. lia.
  - replace (if ret <? 0 then 0 else ret) with ret'
      by (subst ret'; destruct (Z.ltb_spec ret 0); lia).
    pose proof (accepts_nonneg _ _ Hs) as Hn.
    destruct (Z.eqb_spec (p + ret') size) as [E|_]; [lia|].
    rewrite wrap64_small by lia.
    unfold slice.
    destruct (Z.leb_spec 0 (p + ret')) as [_|E]; [|lia].
    destruct (Z.leb_spec 0 (todo - ret')) as [_|E]; [|lia].
    destruct (Z.leb_spec (p + ret' + (todo - ret')) (Z.of_nat (length buf)))
      as [_|E]; [|lia].
    cbn [andb log_write fst snd]. unfold io_again.
    destruct (Z.eqb_spec c 0) as [E|_]; [lia|]. cbn [negb orb].
    rewrite (IH (p + ret') c (todo - ret') fuel).
    + rewrite Z.max_l by lia. rewrite <- app_assoc. do 3 f_equal.
      rewrite take_take.
      replace (Nat.min (Z.to_nat c) (Z.to_nat (todo - ret'))) with (Z.to_nat c) by lia.
      replace (Z.to_nat (p + ret' + c)) with (Z.to_nat (p + ret') + Z.to_nat c)%nat
        by lia.
      rewrite <- drop_drop.
      rewrite take_take_drop. f_equal. lia.
    + lia.
    + rewrite Z.max_l by lia. lia.
    + rewrite Z.max_l by lia. lia.
    + exact Hbuf.
    + exact Hlt.
    + cbn [length] in Hfuel. lia.
Qed.

(** X2. However many bytes each [write] takes and whichever calls fail in
    between, [fd_write] returns once the kernel has taken the first [size]
    bytes of the buffer, each byte once and in order. *)
Theorem fd_write_transfers_all fd (buf : list byte) s size out :
  accepts s size ->
  size <= Z.of_nat (length buf) -> size < 2 ^ 64 ->
  fd_write log_write (S (length s)) fd buf size (s, out)
  = Ret tt ([], out ++ take (Z.to_nat size) buf).
Proof.
  intros Hs Hbuf Hlt. unfold fd_write.
  rewrite (fd_write_loop_offers fd size buf s size Hs);
    cbn [Z.max Z.compare]; try lia.
  reflexivity.
Qed.

Lemma fd_write_transfers_all_witness :
  fd_write log_write 5 1 [Byte.x01; Byte.x02; Byte.x03; Byte.x04] 3
    ([WrPut 1; WrErr EINTR; WrErr EAGAIN; WrPut 2], [Byte.xff])
  = Ret tt ([], [Byte.xff] ++ take (Z.to_nat 3) [Byte.x01; Byte.x02; Byte.x03; Byte.x04]).
Proof.
  apply (fd_write_transfers_all 1 [Byte.x01; Byte.x02; Byte.x03; Byte.x04]
           [WrPut 1; WrErr EINTR; WrErr EAGAIN; WrPut 2] 3 [Byte.xff]).
  - apply (accepts_piece 1 _ 2); [lia|].
    apply accepts_fail; [|lia].
    apply accepts_fail; [|lia].
    apply (accepts_piece 2 [] 0); [lia|]. apply accepts_done.
  - cbn. lia.
  - lia.
Defined.

Lemma fd_read_loop_spins (w : world) fd f size :
  files w !! fd = Some f -> f_wr f = false ->
  Z.testbit (f_flags f) 11 = true ->
  pipes w !! f_pipe f = Some [] ->
  forall fuel buf p ret todo,
    p + Z.max ret 0 <> size ->
    fd_read_loop pipe_read fuel fd size buf p ret todo w = OutOfFuel.
Proof.
  intros Hf Hrd Hfl Hp.
  induction fuel as [|fuel IH]; intros buf p ret todo Hne; [reflexivity|].
  cbn [fd_read_loop].
  replace (if ret <? 0 then 0 else ret) with (Z.max ret 0)
    by (destruct (Z.ltb_spec ret 0); lia).
  destruct (Z.eqb_spec (p + Z.max ret 0) size) as [E|_]; [contradiction|].
  unfold pipe_read. rewrite Hf, Hrd, Hp, Hfl.
  unfold io_again. cbn [Z.eqb negb orb].
  apply IH. cbn [Z.max Z.compare]. lia.
Qed.

(** X3. On a non-blocking descriptor with nothing to read, [fd_read] keeps
    calling [read]: each call fails with [EAGAIN] and is tried again at
    once, so the call neither returns nor ends the process, however long it
    is given. *)
Theorem fd_read_spins_when_nonblocking (w : world) fd f (buf : list byte) size :
  files w !! fd = Some f -> f_wr f = false ->
  Z.testbit (f_flags f) 11 = true ->
  pipes w !! f_pipe f = Some [] ->
  0 < size ->
  forall fuel, fd_read pipe_read fuel fd buf size w = OutOfFuel.
Proof.
  intros Hf Hrd Hfl Hp Hsize fuel. unfold fd_read.
  apply (fd_read_loop_spins w fd f size Hf Hrd Hfl Hp).
  cbn [Z.max Z.compare]. lia.
Qed.

Lemma fd_read_spins_when_nonblocking_witness :
  fd_read pipe_read 200 5 (zeros 8) 8 polled_world = OutOfFuel.
Proof.
  apply (fd_read_spins_when_nonblocking polled_world 5
           (File 5 false (nonblock_on O_RDONLY)) (zeros 8) 8).
  - vm_compute. reflexivity.
  - reflexivity.
  - vm_compute. reflexivity.
  - vm_compute. reflexivity.
  - lia.
Defined.

(** ** The descriptor flags *)

Lemma testbit_O_NONBLOCK n : Z.testbit O_NONBLOCK n = (n =? 11).
Proof.
  unfold O_NONBLOCK. change 2048 with (2 ^ 11).
  destruct (Z.ltb_spec n 0) as [Hn|Hn].
  - rewrite Z.testbit_neg_r by lia. symmetry. apply Z.eqb_neq. lia.
  - rewrite Z.pow2_bits_eqb by lia. apply Z.eqb_sym.
Qed.

Lemma with_files_id (w : world) : with_files (files w) w = w.
Proof. destruct w. reflexivity. Qed.

(** X4. [fd_setnonblock] turns on [O_NONBLOCK] and nothing else: the other
    flag bits of the descriptor, what it is open on, every other descriptor
    and the pipes stay as they were. *)
Theorem fd_setnonblock_sets_one_flag (w : world) fd f :
  files w !! fd = Some f ->
  exists w' f',
    fd_setnonblock fd w = Ret tt w'
    /\ files w' !! fd = Some f'
    /\ nonblocking w' fd = true
    /\ f_pipe f' = f_pipe f /\ f_wr f' = f_wr f
    /\ (forall n, n <> 11 -> Z.testbit (f_flags f') n = Z.testbit (f_flags f) n)
    /\ (forall fd', fd' <> fd -> files w' !! fd' = files w !! fd')
    /\ pipes w' = pipes w /\ heap w' = heap w.
Proof.
  intros Hf.
  exists (with_files (<[fd := File (f_pipe f) (f_wr f)
                                (Z.lor (f_flags f) O_NONBLOCK)]> (files w)) w),
         (File (f_pipe f) (f_wr f) (Z.lor (f_flags f) O_NONBLOCK)).
  split; [apply fd_setnonblock_ok; exact Hf|].
  unfold nonblocking. wsimpl. rewrite lookup_insert_eq. cbn [f_flags f_pipe f_wr].
  repeat split.
  - rewrite Z.lor_spec, testbit_O_NONBLOCK. cbn. apply orb_true_r.
  - intros n Hn. rewrite Z.lor_spec, testbit_O_NONBLOCK.
    destruct (Z.eqb_spec n 11) as [E|_]; [contradiction|]. apply orb_false_r.
  - intros fd' Hne. apply lookup_insert_ne. congruence.
Qed.

Lemma fd_setnonblock_sets_one_flag_witness :
  exists w' f',
    fd_setnonblock 4 started_world = Ret tt w'
    /\ files w' !! 4 = Some f'
    /\ nonblocking w' 4 = true
    /\ f_pipe f' = f_pipe (File 3 true O_WRONLY)
    /\ f_wr f' = f_wr (File 3 true O_WRONLY)
    /\ (forall n, n <> 11 ->
          Z.testbit (f_flags f') n = Z.testbit (f_flags (File 3 true O_WRONLY)) n)
    /\ (forall fd', fd' <> 4 -> files w' !! fd' = files started_world !! fd')
    /\ pipes w' = pipes started_world /\ heap w' = heap started_world.
Proof.
  apply (fd_setnonblock_sets_one_flag started_world 4 (File 3 true O_WRONLY)).
  vm_compute. reflexivity.
Defined.

(** X5. [fd_setblock] turns off [O_NONBLOCK] and nothing else; after
    [fd_setnonblock] on a descriptor that was in blocking mode it gives back
    the machine as it was before the two calls. *)
Theorem fd_setblock_undoes_fd_setnonblock (w : world) fd f :
  files w !! fd = Some f ->
  (exists w' f',
     fd_setblock fd w = Ret tt w'
     /\ files w' !! fd = Some f'
     /\ nonblocking w' fd = false
     /\ f_pipe f' = f_pipe f /\ f_wr f' = f_wr f
     /\ (forall n, n <> 11 -> Z.testbit (f_flags f') n = Z.testbit (f_flags f) n)
     /\ (forall fd', fd' <> fd -> files w' !! fd' = files w !! fd')
     /\ pipes w' = pipes w /\ heap w' = heap w)
  /\ (Z.testbit (f_flags f) 11 = false ->
      bind (fd_setnonblock fd) (fun _ => fd_setblock fd) w = Ret tt w).
Proof.
  intros Hf. split.
  - exists (with_files (<[fd := File (f_pipe f) (f_wr f)
                                  (Z.land (f_flags f) (Z.lnot O_NONBLOCK))]>
                          (files w)) w),
           (File (f_pipe f) (f_wr f) (Z.land (f_flags f) (Z.lnot O_NONBLOCK))).
    split; [apply fd_setblock_ok; exact Hf|].
    unfold nonblocking. wsimpl. rewrite lookup_insert_eq. cbn [f_flags f_pipe f_wr].
    repeat split.
    + rewrite Z.land_spec, Z.lnot_spec, testbit_O_NONBLOCK by lia. cbn.
      apply andb_false_r.
    + intros n Hn. destruct (Z.ltb_spec n 0) as [Hneg|Hpos].
      * rewrite !Z.testbit_neg_r by lia. reflexivity.
      * rewrite Z.land_spec, Z.lnot_spec, testbit_O_NONBLOCK by lia.
        destruct (Z.eqb_spec n 11) as [E|_]; [contradiction|]. apply andb_true_r.
    + intros fd' Hne. apply lookup_insert_ne. congruence.
  - intros Hbit.
    erewrite bind_ret by (apply fd_setnonblock_ok; exact Hf).
    erewrite fd_setblock_ok by (wsimpl; apply lookup_insert_eq).
    wsimpl. cbn [f_pipe f_wr f_flags].
    rewrite with_files_twice, insert_insert_eq.
    replace (Z.land (Z.lor (f_flags f) O_NONBLOCK) (Z.lnot O_NONBLOCK))
      with (f_flags f).
    + rewrite insert_id by (rewrite Hf; destruct f; reflexivity).
      rewrite with_files_id. reflexivity.
    + apply Z.bits_inj'. intros n Hn.
      rewrite Z.land_spec, Z.lnot_spec, Z.lor_spec, testbit_O_NONBLOCK by lia.
      destruct (Z.eqb_spec n 11) as [->|_].
      * rewrite Hbit. reflexivity.
      * cbn. rewrite orb_false_r, andb_true_r. reflexivity.
Qed.

Lemma fd_setblock_undoes_fd_setnonblock_witness :
  bind (fd_setnonblock 5) (fun _ => fd_setblock 5) started_world
  = Ret tt started_world.
Proof.
  apply (fd_setblock_undoes_fd_setnonblock started_world 5 (File 5 false O_RDONLY)).
  - vm_compute. reflexivity.
  - reflexivity.
Defined.

(** X6. On a number that is no open descriptor both [fcntl] calls fail, the
    result is not looked at, and [fd_setnonblock] and [fd_setblock] return
    with nothing changed and nothing reported. *)
Theorem flag_change_on_closed_descriptor_is_silent (w : world) fd :
  files w !! fd = None ->
  fd_setnonblock fd w = Ret tt w /\ fd_setblock fd w = Ret tt w.
Proof.
  intros Hf. unfold fd_setnonblock, fd_setblock, bind, fcntl_getfl, fcntl_setfl, ret.
  rewrite Hf. cbn beta iota. rewrite Hf. split; reflexivity.
Qed.

Lemma flag_change_on_closed_descriptor_is_silent_witness :
  fd_setnonblock 9 started_world = Ret tt started_world
  /\ fd_setblock 9 started_world = Ret tt started_world.
Proof.
  apply (flag_change_on_closed_descriptor_is_silent started_world 9).
  vm_compute. reflexivity.
Defined.

(** ** The allocator *)



(** ** Starting and stopping *)

Lemma resolver_start_again (w : world) pid sig :
  started w <> 0 ->
  resolver_start pid sig w = Fatal "resolver already started" w.
Proof.
  intros Hs. unfold resolver_start. unfold get at 1. unfold bind at 1.
  destruct (Z.eqb_spec (started w) 0) as [E|_]; [contradiction|]. reflexivity.
Qed.

Lemma resolver_start_no_room (w : world) pid sig :
  started w = 0 -> nofile w < next_fd w + 4 ->
  exists w', resolver_start pid sig w = Fatal "pipe" w' /\ started w' = 0.
Proof.
  intros Hs Hroom. unfold resolver_start. unfold get at 1. unfold bind at 1.
  rewrite Hs. cbn [Z.eqb negb].
  unfold sys_pipe at 1. unfold bind at 1.
  destruct (Z.ltb_spec (nofile w) (next_fd w + 2)) as [_|H1];
    cbn [fst snd Z.ltb Z.compare].
  - exists w. split; [reflexivity | exact Hs].
  - unfold sys_pipe at 1. unfold bind at 1. wsimpl.
    destruct (Z.ltb_spec (nofile w) (next_fd w + 2 + 2)) as [_|H2]; [|lia].
    cbn [fst snd Z.ltb Z.compare].
    eexists. split; [reflexivity | exact Hs].
Qed.

Lemma resolver_start_no_fork (w : world) sig :
  started w = 0 -> next_fd w + 4 <= nofile w ->
  resolver_start (-1) sig w = Fatal "fork" (piped w).
Proof.
  intros Hs Hroom. unfold resolver_start. unfold get at 1. unfold bind at 1.
  rewrite Hs. cbn [Z.eqb negb].
  unfold sys_pipe at 1. unfold bind at 1.
  destruct (Z.ltb_spec (nofile w) (next_fd w + 2)) as [H1|_]; [lia|].
  cbn [fst snd Z.ltb Z.compare].
  unfold sys_pipe at 1. unfold bind at 1. wsimpl.
  destruct (Z.ltb_spec (nofile w) (next_fd w + 2 + 2)) as [H2|_]; [lia|].
  cbn [fst snd Z.ltb Z.compare Z.eqb]. unfold fatal.
  f_equal. unfold piped, piped_files, with_next_fd, with_pipes, with_files. cbn.
  replace (next_fd w + 2 + 1) with (next_fd w + 3) by lia.
  replace (next_fd w + 2 + 2) with (next_fd w + 4) by lia.
  reflexivity.
Qed.

Lemma resolver_start_marks (w w' : world) pid sig r :
  resolver_start pid sig w = Ret r w' -> started w' = 1.
Proof.
  intros H.
  destruct (Z.eq_dec (started w) 0) as [Hs|Hs].
  2:{ rewrite resolver_start_again in H by exact Hs. discriminate. }
  destruct (Z.lt_ge_cases (nofile w) (next_fd w + 4)) as [Hroom|Hroom].
  { destruct (resolver_start_no_room w pid sig Hs Hroom) as (w1 & E & _).
    rewrite E in H. discriminate. }
  destruct (Z.eq_dec pid (-1)) as [->|Hp1].
  { rewrite resolver_start_no_fork in H by assumption. discriminate. }
  destruct (Z.eq_dec pid 0) as [->|Hp0].
  - rewrite resolver_start_worker in H by assumption.
    inversion H. reflexivity.
  - rewrite resolver_start_caller in H by assumption.
    inversion H. reflexivity.
Qed.

(** X8. Once [resolver_start] has got past [fork], in the caller or in the
    child, every later call of it in that process ends the process with
    "resolver already started", before a pipe is made: [started] is set on
    both sides and nothing, [resolver_stop] included, clears it. *)
Theorem resolver_start_twice_is_fatal (w w' : world) pid sig r pid' sig' :
  resolver_start pid sig w = Ret r w' ->
  resolver_start pid' sig' w' = Fatal "resolver already started" w'.
Proof.
  intros H. apply resolver_start_again.
  rewrite (resolver_start_marks _ _ _ _ _ H). discriminate.
Qed.

Lemma resolver_start_twice_is_fatal_witness :
  resolver_start 78 idle_proc started_world
  = Fatal "resolver already started" started_world.
Proof.
  apply (resolver_start_twice_is_fatal fresh_world started_world 77 idle_proc
           (InCaller 5) 78 idle_proc).
  vm_compute. reflexivity.
Defined.

(** X9. What [resolver_start] does is settled by three things, looked at in
    this order: whether it ran before, whether four descriptors are free,
    and what [fork] returned. It ends the process with "resolver already
    started", "pipe" or "fork", or it returns with the resolver marked as
    started; a failed [pipe] or [fork] leaves it unmarked. *)
Theorem resolver_start_outcomes (w : world) pid sig :
  if negb (started w =? 0)
  then resolver_start pid sig w = Fatal "resolver already started" w
  else if nofile w <? next_fd w + 4
  then exists w', resolver_start pid sig w = Fatal "pipe" w' /\ started w' = 0
  else if pid =? -1
  then resolver_start pid sig w = Fatal "fork" (piped w)
       /\ started (piped w) = 0
  else exists r w', resolver_start pid sig w = Ret r w' /\ started w' = 1
                    /\ (pid = 0 <-> exists fdi fdo p, r = InWorker fdi fdo p).
Proof.
  destruct (Z.eqb_spec (started w) 0) as [Hs|Hs]; cbn [negb].
  2:{ apply resolver_start_again. exact Hs. }
  destruct (Z.ltb_spec (nofile w) (next_fd w + 4)) as [Hroom|Hroom].
  { apply resolver_start_no_room; assumption. }
  destruct (Z.eqb_spec pid (-1)) as [->|Hp1].
  { split; [apply resolver_start_no_fork; assumption | exact Hs]. }
  destruct (Z.eq_dec pid 0) as [->|Hp0].
  - eexists _, _. split; [apply resolver_start_worker; assumption|].
    split; [reflexivity|]. split; [eauto | reflexivity].
  - eexists _, _. split; [apply resolver_start_caller; assumption|].
    split; [reflexivity|]. split; [contradiction|].
    intros (? & ? & ? & E). discriminate.
Qed.

(** X10. In the caller [resolver_start] leaves the request pipe wired from
    [_fd] to the worker's [fd_in] and the result pipe from the worker's
    [fd_out] to [_fdres], both empty; it records the child's pid and does
    not touch the heap. *)
Theorem resolver_start_wires_both_pipes (w : world) pid sig :
  started w = 0 -> next_fd w + 4 <= nofile w -> pid <> -1 -> pid <> 0 ->
  exists fd w',
    resolver_start pid sig w = Ret (InCaller fd) w'
    /\ wired w' (next_fd w) (next_fd w + 3) (next_fd w) (next_fd w + 2)
    /\ pipes w' !! next_fd w = Some []
    /\ pipes w' !! (next_fd w + 2) = Some []
    /\ (forall q, q <> next_fd w -> q <> next_fd w + 2 ->
                  pipes w' !! q = pipes w !! q)
    /\ _child w' = pid
    /\ heap w' = heap w /\ brk w' = brk w
    /\ next_fd w' = next_fd w + 4.
Proof.
  intros Hs Hroom Hp1 Hp0.
  eexists _, _. split; [apply resolver_start_caller; assumption|].
  destruct (piped_files_lookup w) as (F0 & F1 & F2 & F3).
  split.
  { unfold wired. unfold piped. wsimpl.
    split; [lia|]. split; [eauto|]. split; [exact F0|]. split; eauto. }
  unfold piped. wsimpl.
  split; [rewrite lookup_insert_ne by lia; apply lookup_insert_eq|].
  split; [apply lookup_insert_eq|].
  split.
  { intros q H1 H2. rewrite !lookup_insert_ne by congruence. reflexivity. }
  repeat split.
Qed.

Lemma resolver_start_wires_both_pipes_witness :
  exists fd w',
    resolver_start 77 idle_proc fresh_world = Ret (InCaller fd) w'
    /\ wired w' (next_fd fresh_world) (next_fd fresh_world + 3)
             (next_fd fresh_world) (next_fd fresh_world + 2)
    /\ pipes w' !! next_fd fresh_world = Some []
    /\ pipes w' !! (next_fd fresh_world + 2) = Some []
    /\ (forall q, q <> next_fd fresh_world -> q <> next_fd fresh_world + 2 ->
                  pipes w' !! q = pipes fresh_world !! q)
    /\ _child w' = 77
    /\ heap w' = heap fresh_world /\ brk w' = brk fresh_world
    /\ next_fd w' = next_fd fresh_world + 4.
Proof.
  apply (resolver_start_wires_both_pipes fresh_world 77 idle_proc).
  - reflexivity.
  - vm_compute. discriminate.
  - lia.
  - lia.
Defined.

Lemma tick_keeps_handlers pp p :
  on_sigpipe (tick pp p) = on_sigpipe p /\ on_sigterm (tick pp p) = on_sigterm p.
Proof.
  unfold tick. destruct (exited p); [split; reflexivity|].
  destruct (alarm_left p =? 0); [split; reflexivity|].
  destruct (alarm_left p =? 1); [|split; reflexivity].
  unfold deliver. cbn [on_sigalrm alarm].
  destruct (on_sigalrm p); unfold sigpipe_handler, sigalrm_handler, sigterm_handler;
    try (split; reflexivity).
  destruct (negb (pp =? 1)); split; reflexivity.
Qed.

Lemma ticks_keep_handlers parents : forall p,
  on_sigpipe (ticks parents p) = on_sigpipe p
  /\ on_sigterm (ticks parents p) = on_sigterm p.
Proof.
  induction parents as [|pp rest IH]; intros p; [split; reflexivity|].
  cbn [ticks]. destruct (IH (tick pp p)) as [-> ->]. apply tick_keeps_handlers.
Qed.

Lemma ticks_alive parents : forall p,
  Forall (fun pp => pp <> 1) parents ->
  on_sigalrm p = sigalrm_handler_at -> alarm_left p = ALARM_TIMEOUT ->
  exited p = None ->
  exited (ticks parents p) = None.
Proof.
  induction parents as [|pp rest IH]; intros p Hall Hh Ha He; [exact He|].
  inversion Hall as [|? ? Hpp Hrest]; subst. cbn [ticks].
  destruct (tick_rearms pp p Hpp Hh Ha He) as (Hh' & Ha' & He').
  apply IH; assumption.
Qed.

(** X11. The worker [resolver_start] has set up, for as long as it has a
    parent other than init, is running, leaves with [EXIT_SUCCESS] when
    [resolver_stop] sends it SIGTERM, and with [EXIT_FAILURE] on SIGPIPE:
    neither signal is left at its default action, and the timer does not
    undo the handlers. *)
Theorem resolver_stop_ends_worker (w : world) sig fdi fdo p w' parents pp :
  resolver_start 0 sig w = Ret (InWorker fdi fdo p) w' ->
  exited sig = None ->
  Forall (fun pp => pp <> 1) parents ->
  exited (ticks parents p) = None
  /\ exited (resolver_stop pp (ticks parents p)) = Some EXIT_SUCCESS
  /\ exited (deliver SIGPIPE pp (ticks parents p)) = Some EXIT_FAILURE.
Proof.
  intros Hstart Hsig Hall. apply resolver_start_worker_inv in Hstart. subst p.
  split.
  { apply ticks_alive; [exact Hall | reflexivity | reflexivity | exact Hsig]. }
  destruct (ticks_keep_handlers parents (worker_signals sig)) as [Hp Ht].
  unfold resolver_stop, deliver. rewrite Hp, Ht. split; reflexivity.
Qed.

Lemma resolver_stop_ends_worker_witness :
  exited (ticks [100; 2; 2] (worker_signals idle_proc)) = None
  /\ exited (resolver_stop 100 (ticks [100; 2; 2] (worker_signals idle_proc)))
     = Some EXIT_SUCCESS
  /\ exited (deliver SIGPIPE 100 (ticks [100; 2; 2] (worker_signals idle_proc)))
     = Some EXIT_FAILURE.
Proof.
  apply (resolver_stop_ends_worker fresh_world idle_proc 3 6
           (worker_signals idle_proc) (with_statics 1 0 0 0 (piped fresh_world))
           [100; 2; 2] 100).
  - vm_compute. reflexivity.
  - reflexivity.
  - repeat constructor; lia.
Defined.

(** ** The worker's loop *)

Lemma resolver_add g a b fi fo : forall w : world,
  resolver g (a + b) fi fo w
  = bind (resolver g a fi fo) (fun _ => resolver g b fi fo) w.
Proof.
  induction a as [|a IH]; intros w; [reflexivity|].
  cbn [Nat.add resolver]. rewrite bind_assoc.
  unfold bind in *. destruct (resolver_body g fi fo w); try reflexivity.
  apply IH.
Qed.

Lemma chan_put_comm (w : world) qa qb a b :
  qa <> qb ->
  chan_put qa a (chan_put qb b w) = chan_put qb b (chan_put qa a w).
Proof.
  intros H. unfold chan_put. cbn.
  rewrite insert_insert_ne by congruence. reflexivity.
Qed.

(** The worker takes the frames of a queue one after the other and appends
    a response for each. *)
Lemma resolver_serves g fdi fdo qa qb fli flo reqs :
  gai_ok g -> qa <> qb -> Forall request_ok reqs ->
  forall (w : world) rest out,
    files w !! fdi = Some (File qa false fli) ->
    files w !! fdo = Some (File qb true flo) ->
    pipes w !! qa = Some (frames reqs ++ rest) ->
    pipes w !! qb = Some out ->
    resolver g (length reqs) fdi fdo w
    = Ret tt (chan_put qb (out ++ responses g reqs) (chan_put qa rest w)).
Proof.
  intros Hg Hq Hall.
  induction Hall as [|[p [host port]] reqs Hr Hall IH];
    intros w rest out Hfi Hfo Hqa Hqb.
  - cbn [length resolver]. unfold ret, responses. cbn [fmap list_fmap concat].
    rewrite app_nil_r.
    cbn [frames fmap list_fmap concat app] in Hqa.
    rewrite (chan_put_id w qa rest Hqa), (chan_put_id w qb out Hqb). reflexivity.
  - destruct Hr as (Hp & Hh0 & Hhl & Hs0 & Hsl). cbn [fst snd] in *.
    unfold frames in Hqa. cbn [fmap list_fmap concat fst snd] in Hqa.
    fold (frames reqs) in Hqa. rewrite <- app_assoc in Hqa.
    destruct (Hg host port (Hints AF_INET SOCK_STREAM AI_PASSIVE 0)) as [Hok Hlen].
    cbn [length resolver].
    erewrite bind_ret; cycle 1.
    { apply (resolver_body_ok g w fdi fdo qa qb fli flo p host port
               (frames reqs ++ rest) out Hok Hlen Hq Hfi Hfo Hqa Hqb);
        (assumption || unfold sizeof_host, sizeof_port; lia). }
    rewrite (IH (chan_put qb (out ++ response_frame (word_bytes p)
                                       (owed g (p, (host, port))))
                   (chan_put qa (frames reqs ++ rest) w))
                rest
                (out ++ response_frame (word_bytes p) (owed g (p, (host, port))))).
    + rewrite (chan_put_comm _ qa qb) by exact Hq.
      rewrite !chan_put_twice.
      unfold responses. cbn [fmap list_fmap concat].
      rewrite <- app_assoc. reflexivity.
    + exact Hfi.
    + exact Hfo.
    + rewrite pipes_chan_put_ne by congruence. apply pipes_chan_put.
    + apply pipes_chan_put.
Qed.

Lemma bounded_resolver_add g a b fi fo : forall w : world,
  Bounded.resolver g (a + b) fi fo w
  = bind (Bounded.resolver g a fi fo) (fun _ => Bounded.resolver g b fi fo) w.
Proof.
  induction a as [|a IH]; intros w; [reflexivity|].
  cbn [Nat.add Bounded.resolver]. rewrite bind_assoc.
  unfold bind in *. destruct (Bounded.resolver_body g fi fo w); try reflexivity.
  apply IH.
Qed.

Lemma length_responses_cons g r reqs :
  length (responses g (r :: reqs))
  = (length (response_frame (word_bytes (fst r)) (owed g r))
     + length (responses g reqs))%nat.
Proof. unfold responses. cbn [fmap list_fmap concat]. apply length_app. Qed.

(** On the kernel with a capacity the worker works off a queue whose
    responses the result pipe has room for. *)
Lemma bounded_resolver_serves g fdi fdo qa qb fli flo reqs :
  gai_ok g -> qa <> qb -> Forall request_ok reqs ->
  forall (w : world) rest out,
    files w !! fdi = Some (File qa false fli) ->
    files w !! fdo = Some (File qb true flo) ->
    pipes w !! qa = Some (frames reqs ++ rest) ->
    pipes w !! qb = Some out ->
    Z.of_nat (length out) + Z.of_nat (length (responses g reqs)) <= PIPE_CAPACITY ->
    Bounded.resolver g (length reqs) fdi fdo w
    = Ret tt (chan_put qb (out ++ responses g reqs) (chan_put qa rest w)).
Proof.
  intros Hg Hq Hall.
  induction Hall as [|[p [host port]] reqs Hr Hall IH];
    intros w rest out Hfi Hfo Hqa Hqb Hroom.
  - cbn [length Bounded.resolver]. unfold ret, responses. cbn [fmap list_fmap concat].
    rewrite app_nil_r.
    cbn [frames fmap list_fmap concat app] in Hqa.
    rewrite (chan_put_id w qa rest Hqa), (chan_put_id w qb out Hqb). reflexivity.
  - destruct Hr as (Hp & Hh0 & Hhl & Hs0 & Hsl). cbn [fst snd] in *.
    unfold frames in Hqa. cbn [fmap list_fmap concat fst snd] in Hqa.
    fold (frames reqs) in Hqa. rewrite <- app_assoc in Hqa.
    rewrite length_responses_cons in Hroom. cbn [fst] in Hroom.
    destruct (Hg host port (Hints AF_INET SOCK_STREAM AI_PASSIVE 0)) as [Hok Hlen].
    cbn [length Bounded.resolver].
    destruct (bounded_resolver_body_cases g w fdi fdo qa qb fli flo p host port
                (frames reqs ++ rest) out Hok Hlen Hq Hfi Hfo Hqa Hqb)
      as [Hfit _];
      [assumption | unfold sizeof_host; lia | assumption | unfold sizeof_port; lia |].
    cbv zeta in Hfit.
    erewrite bind_ret by (apply Hfit; lia).
    rewrite (IH (chan_put qb (out ++ response_frame (word_bytes p)
                                       (owed g (p, (host, port))))
                   (chan_put qa (frames reqs ++ rest) w))
                rest
                (out ++ response_frame (word_bytes p) (owed g (p, (host, port))))).
    + rewrite (chan_put_comm _ qa qb) by exact Hq.
      rewrite !chan_put_twice.
      unfold responses. cbn [fmap list_fmap concat].
      rewrite <- app_assoc. reflexivity.
    + exact Hfi.
    + exact Hfo.
    + rewrite pipes_chan_put_ne by congruence. apply pipes_chan_put.
    + apply pipes_chan_put.
    + rewrite length_app. lia.
Qed.



(** X27. The worker does not run ahead of the caller: when the response to
    the next request does not fit what is left of the result pipe, its
    [fd_write] waits on the blocking descriptor, after the requests before
    have been answered; no response is dropped or cut short. *)
Theorem resolver_waits_for_room g (w : world) fdi fdo qa qb fli flo
        reqs r rest out n :
  gai_ok g -> qa <> qb -> Forall request_ok reqs -> request_ok r ->
  files w !! fdi = Some (File qa false fli) ->
  files w !! fdo = Some (File qb true flo) ->
  Z.testbit flo 11 = false ->
  pipes w !! qa = Some (frames (reqs ++ [r]) ++ rest) ->
  pipes w !! qb = Some out ->
  Z.of_nat (length out) + Z.of_nat (length (responses g reqs)) <= PIPE_CAPACITY ->
  PIPE_CAPACITY
  < Z.of_nat (length out) + Z.of_nat (length (responses g (reqs ++ [r]))) ->
  waits (Bounded.resolver g (length reqs + S n) fdi fdo w).
Proof.
  intros Hg Hq Hall Hr Hfi Hfo Hfl Hqa Hqb Hroom Hfull.
  destruct r as [p [host port]].
  destruct Hr as (Hp & Hh0 & Hhl & Hs0 & Hsl). cbn [fst snd] in *.
  rewrite frames_app, <- app_assoc in Hqa.
  unfold frames in Hqa at 2. cbn [fmap list_fmap concat fst snd] in Hqa.
  rewrite app_nil_r in Hqa.
  rewrite responses_app, length_app, length_responses_cons in Hfull.
  unfold responses in Hfull at 2. cbn [fmap list_fmap concat length fst] in Hfull.
  destruct (Hg host port (Hints AF_INET SOCK_STREAM AI_PASSIVE 0)) as [Hok Hlen].
  rewrite bounded_resolver_add.
  erewrite bind_ret; cycle 1.
  { apply (bounded_resolver_serves g fdi fdo qa qb fli flo reqs Hg Hq Hall);
      [exact Hfi | exact Hfo | exact Hqa | exact Hqb | exact Hroom]. }
  cbn [Bounded.resolver]. apply bind_waits.
  destruct (bounded_resolver_body_cases g
              (chan_put qb (out ++ responses g reqs)
                 (chan_put qa (request_frame p host port ++ rest) w))
              fdi fdo qa qb fli flo p host port rest (out ++ responses g reqs)
              Hok Hlen Hq Hfi Hfo) as [_ Hwait];
    [rewrite pipes_chan_put_ne by congruence; apply pipes_chan_put
    | apply pipes_chan_put
    | assumption | unfold sizeof_host; lia | assumption | unfold sizeof_port; lia |].
  apply Hwait; [exact Hfl|]. cbv zeta. rewrite length_app. lia.
Qed.

Lemma resolver_waits_for_room_witness :
  waits (Bounded.resolver sample_lookup (length ([] : list (Z * (list byte * list byte))) + 1) 3 6
           (chan_put 5 (zeros (Z.to_nat 65500))
              (chan_put 3 (frames ([] ++ [(1, (str_a, str_80))]) ++ [])
                 started_world))).
Proof.
  apply (resolver_waits_for_room sample_lookup
           (chan_put 5 (zeros (Z.to_nat 65500))
              (chan_put 3 (frames ([] ++ [(1, (str_a, str_80))]) ++ [])
                 started_world))
           3 6 3 5 O_RDONLY O_WRONLY [] (1, (str_a, str_80)) []
           (zeros (Z.to_nat 65500)) 0).
  - exact sample_lookup_ok.
  - lia.
  - constructor.
  - repeat split; cbn [fst snd]; try lia;
      try (apply not_in_str; vm_compute; reflexivity); cbn; lia.
  - reflexivity.
  - reflexivity.
  - reflexivity.
  - rewrite pipes_chan_put_ne by lia. apply pipes_chan_put.
  - apply pipes_chan_put.
  - rewrite length_zeros, Z2Nat.id by lia. vm_compute. discriminate.
  - rewrite length_zeros, Z2Nat.id by lia. vm_compute. reflexivity.
Defined.

(** X13. A frame that declares a host longer than the buffer ends the
    worker with "invalid host_len" as soon as its turn comes: the requests
    queued before it have been answered, the bytes after its two header
    words are left unread, and nothing is written for it. *)
Theorem resolver_ends_at_long_host g (w : world) fdi fdo qa qb fli flo
        reqs out p host_len rest n :
  gai_ok g -> qa <> qb -> Forall request_ok reqs ->
  files w !! fdi = Some (File qa false fli) ->
  files w !! fdo = Some (File qb true flo) ->
  pipes w !! qa = Some (frames reqs ++ word_bytes p ++ word_bytes host_len ++ rest) ->
  pipes w !! qb = Some out ->
  sizeof_host < host_len < 2 ^ 64 ->
  resolver g (length reqs + S n) fdi fdo w
  = Fatal "invalid host_len"
          (chan_put qb (out ++ responses g reqs) (chan_put qa rest w)).
Proof.
  intros Hg Hq Hall Hfi Hfo Hqa Hqb Hlen.
  rewrite resolver_add.
  erewrite bind_ret; cycle 1.
  { apply (resolver_serves g fdi fdo qa qb fli flo reqs Hg Hq Hall);
      [exact Hfi | exact Hfo | exact Hqa | exact Hqb]. }
  cbn [resolver]. apply bind_fatal. unfold resolver_body. apply bind_fatal.
  erewrite (read_request_host_len _ fdi qa fli p host_len rest);
    [ | exact Hfi | | exact Hlen].
  - rewrite (chan_put_comm _ qa qb) by exact Hq.
    rewrite chan_put_twice.
    rewrite (chan_put_comm _ qb qa) by congruence. reflexivity.
  - rewrite pipes_chan_put_ne by congruence. apply pipes_chan_put.
Qed.

Lemma resolver_ends_at_long_host_witness :
  resolver sample_lookup (length [(1, (str_a, str_80))] + 3) 3 6
    (chan_put 3 (frames [(1, (str_a, str_80))] ++ word_bytes 2
                 ++ word_bytes 4097 ++ long_host)
       started_world)
  = Fatal "invalid host_len"
      (chan_put 5 ([] ++ responses sample_lookup [(1, (str_a, str_80))])
         (chan_put 3 long_host
            (chan_put 3 (frames [(1, (str_a, str_80))] ++ word_bytes 2
                         ++ word_bytes 4097 ++ long_host)
               started_world))).
Proof.
  apply (resolver_ends_at_long_host sample_lookup
           (chan_put 3 (frames [(1, (str_a, str_80))] ++ word_bytes 2
                        ++ word_bytes 4097 ++ long_host)
              started_world)
           3 6 3 5 O_RDONLY O_WRONLY [(1, (str_a, str_80))] [] 2 4097 long_host 2).
  - exact sample_lookup_ok.
  - lia.
  - repeat constructor; cbn [fst snd]; try lia;
      try (apply not_in_str; vm_compute; reflexivity); cbn; lia.
  - vm_compute. reflexivity.
  - vm_compute. reflexivity.
  - apply pipes_chan_put.
  - vm_compute. reflexivity.
  - unfold sizeof_host. lia.
Defined.

(** X14. The same for the service: a frame whose host fits and whose
    declared service length is above the size of [port] ends the worker
    with "invalid port_len" after the host has been read, with the bytes
    after the length word left unread. *)
Theorem resolver_ends_at_long_service g (w : world) fdi fdo qa qb fli flo
        reqs out p host port_len rest n :
  gai_ok g -> qa <> qb -> Forall request_ok reqs ->
  files w !! fdi = Some (File qa false fli) ->
  files w !! fdo = Some (File qb true flo) ->
  pipes w !! qa
  = Some (frames reqs ++ word_bytes p ++ word_bytes (Z.of_nat (length host))
          ++ host ++ word_bytes port_len ++ rest) ->
  pipes w !! qb = Some out ->
  Z.of_nat (length host) <= sizeof_host ->
  sizeof_port < port_len < 2 ^ 64 ->
  resolver g (length reqs + S n) fdi fdo w
  = Fatal "invalid port_len"
          (chan_put qb (out ++ responses g reqs) (chan_put qa rest w)).
Proof.
  intros Hg Hq Hall Hfi Hfo Hqa Hqb Hhost Hlen.
  rewrite resolver_add.
  erewrite bind_ret; cycle 1.
  { apply (resolver_serves g fdi fdo qa qb fli flo reqs Hg Hq Hall);
      [exact Hfi | exact Hfo | exact Hqa | exact Hqb]. }
  cbn [resolver]. apply bind_fatal. unfold resolver_body. apply bind_fatal.
  erewrite (read_request_port_len _ fdi qa fli p host port_len rest);
    [ | exact Hfi | | exact Hhost | exact Hlen].
  - rewrite (chan_put_comm _ qa qb) by exact Hq.
    rewrite chan_put_twice.
    rewrite (chan_put_comm _ qb qa) by congruence. reflexivity.
  - rewrite pipes_chan_put_ne by congruence. apply pipes_chan_put.
Qed.

Lemma resolver_ends_at_long_service_witness :
  resolver sample_lookup (length [(1, (str_a, str_80))] + 1) 3 6
    (chan_put 3 (frames [(1, (str_a, str_80))] ++ word_bytes 2
                 ++ word_bytes (Z.of_nat (length str_b)) ++ str_b
                 ++ word_bytes 6 ++ str_12345)
       started_world)
  = Fatal "invalid port_len"
      (chan_put 5 ([] ++ responses sample_lookup [(1, (str_a, str_80))])
         (chan_put 3 str_12345
            (chan_put 3 (frames [(1, (str_a, str_80))] ++ word_bytes 2
                         ++ word_bytes (Z.of_nat (length str_b)) ++ str_b
                         ++ word_bytes 6 ++ str_12345)
               started_world))).
Proof.
  apply (resolver_ends_at_long_service sample_lookup
           (chan_put 3 (frames [(1, (str_a, str_80))] ++ word_bytes 2
                        ++ word_bytes (Z.of_nat (length str_b)) ++ str_b
                        ++ word_bytes 6 ++ str_12345)
              started_world)
           3 6 3 5 O_RDONLY O_WRONLY [(1, (str_a, str_80))] [] 2 str_b 6
           str_12345 0).
  - exact sample_lookup_ok.
  - lia.
  - repeat constructor; cbn [fst snd]; try lia;
      try (apply not_in_str; vm_compute; reflexivity); cbn; lia.
  - vm_compute. reflexivity.
  - vm_compute. reflexivity.
  - apply pipes_chan_put.
  - vm_compute. reflexivity.
  - vm_compute. discriminate.
  - unfold sizeof_port. lia.
Defined.

(** ** The caller's two calls *)

Lemma strlen_terminated (s junk : list byte) :
  Byte.x00 ∉ s -> strlen (s ++ Byte.x00 :: junk) = Z.of_nat (length s).
Proof.
  intros H. induction s as [|b s IH]; [reflexivity|].
  cbn [app strlen length].
  destruct (Byte.eqb b Byte.x00) eqn:E.
  - apply Byte.byte_dec_bl in E. subst b. exfalso. apply H. left.
  - rewrite IH; [lia|]. intros Hin. apply H. right. exact Hin.
Qed.



(** X28. [resolve] on a request pipe that has no room for the frame does
    not return: one of its [fd_write] calls waits in [write] on the blocking
    descriptor until the worker has read. Nothing tells the caller, and
    nothing is lost: the frame goes out whole once there is room. *)
Theorem resolve_waits_for_room (w : world) qa fl c p
        (host hjunk port pjunk : list byte) :
  files w !! _fd w = Some (File qa true fl) ->
  Z.testbit fl 11 = false ->
  pipes w !! qa = Some c ->
  Byte.x00 ∉ host -> Z.of_nat (length host) < 2 ^ 64 ->
  Byte.x00 ∉ port -> Z.of_nat (length port) < 2 ^ 64 ->
  PIPE_CAPACITY
  < Z.of_nat (length c) + Z.of_nat (length (request_frame p host port)) ->
  waits (Bounded.resolve p (host ++ Byte.x00 :: hjunk) (port ++ Byte.x00 :: pjunk) w).
Proof.
  intros Hf Hfl Hp Hh Hhl Hs Hsl Hfull.
  destruct (bounded_resolve_cases w qa fl c p
              (host ++ Byte.x00 :: hjunk) (port ++ Byte.x00 :: pjunk) host port
              Hf Hp) as [_ Hwait].
  - apply strlen_terminated. exact Hh.
  - apply take_app_length.
  - apply strlen_terminated. exact Hs.
  - apply take_app_length.
  - exact Hhl.
  - exact Hsl.
  - apply Hwait; assumption.
Qed.

Lemma resolve_waits_for_room_witness :
  waits (Bounded.resolve 7 (str_a ++ Byte.x00 :: []) (str_80 ++ Byte.x00 :: [])
           (chan_put 3 (zeros (Z.to_nat PIPE_CAPACITY)) started_world)).
Proof.
  apply (resolve_waits_for_room
           (chan_put 3 (zeros (Z.to_nat PIPE_CAPACITY)) started_world)
           3 O_WRONLY (zeros (Z.to_nat PIPE_CAPACITY)) 7 str_a [] str_80 []).
  - reflexivity.
  - reflexivity.
  - apply pipes_chan_put.
  - apply not_in_str. vm_compute. reflexivity.
  - cbn. lia.
  - apply not_in_str. vm_compute. reflexivity.
  - cbn. lia.
  - rewrite length_zeros, Z2Nat.id by (unfold PIPE_CAPACITY; lia).
    vm_compute. reflexivity.
Defined.

(** X16. With a whole response at the head of the result pipe,
    [resolve_result] returns exactly when the arena has room for all its
    records; otherwise it ends the process with "malloc". It never waits
    and never goes wrong. *)
Theorem resolve_result_returns_iff_room (w : world) qb fl ptr recs rest :
  files w !! _fdres w = Some (File qb false fl) ->
  pipes w !! qb = Some (response_frame ptr recs ++ rest) ->
  length ptr = 8%nat ->
  Forall wire_ok recs ->
  Z.of_nat (length recs) < 2 ^ 64 ->
  heap_ok w ->
  (brk w + heap_need recs <= heap_end w
   <-> exists r w', resolve_result w = Ret r w')
  /\ (heap_end w < brk w + heap_need recs
      <-> exists w', resolve_result w = Fatal "malloc" w').
Proof.
  intros Hf Hp Hptr Hrecs Hlen Hheap.
  destruct (resolve_result_total w qb fl ptr recs rest Hf Hp Hptr Hrecs Hlen Hheap)
    as [[Hroom E]|[Hfull [w' E]]].
  - split; split.
    + intros _. eauto.
    + intros _. exact Hroom.
    + intros H. lia.
    + intros [w' E']. rewrite E in E'. discriminate.
  - split; split.
    + intros H. lia.
    + intros (r & w'' & E'). rewrite E in E'. discriminate.
    + intros _. eauto.
    + intros _. exact Hfull.
Qed.

Lemma resolve_result_returns_iff_room_witness :
  (brk served_world
   + heap_need (on_wire <$> [sample_node Byte.x01 28672; sample_node Byte.x02 0])
   <= heap_end served_world
   <-> exists r w', resolve_result served_world = Ret r w')
  /\ (heap_end served_world
      < brk served_world
        + heap_need (on_wire <$> [sample_node Byte.x01 28672; sample_node Byte.x02 0])
      <-> exists w', resolve_result served_world = Fatal "malloc" w').
Proof.
  apply (resolve_result_returns_iff_room served_world 5 O_RDONLY (word_bytes 1)
           (on_wire <$> [sample_node Byte.x01 28672; sample_node Byte.x02 0]) []).
  - vm_compute. reflexivity.
  - exact served_world_frame.
  - reflexivity.
  - exact sample_records_ok.
  - vm_compute. reflexivity.
  - exact served_world_heap_ok.
Defined.

(** X17. With nothing in the result pipe [resolve_result] waits: it has put
    the descriptor in blocking mode first, so its [fd_read] sleeps in [read]
    and does not spin, also when the descriptor was non-blocking on entry;
    nothing but that flag has changed. *)
Theorem resolve_result_waits_when_empty (w : world) qb fl :
  files w !! _fdres w = Some (File qb false fl) ->
  pipes w !! qb = Some [] ->
  exists w',
    resolve_result w = Blocked w'
    /\ nonblocking w' (_fdres w) = false
    /\ w' = with_files (<[_fdres w := File qb false (Z.land fl (Z.lnot O_NONBLOCK))]>
                          (files w)) w.
Proof.
  intros Hf Hp.
  eexists. split; [|split; [|reflexivity]].
  - unfold resolve_result. unfold get at 1. unfold bind at 1.
    erewrite bind_ret; cycle 1.
    { apply fd_setblock_ok. exact Hf. }
    apply bind_blocked.
    eapply fd_read_w_empty; [apply lookup_insert_eq | reflexivity | | exact Hp | ].
    + cbn [f_flags]. rewrite Z.land_spec, Z.lnot_spec by lia.
      replace (Z.testbit O_NONBLOCK 11) with true by reflexivity.
      apply andb_false_r.
    + unfold SIZEOF_PTR. lia.
  - unfold nonblocking. wsimpl. rewrite lookup_insert_eq. cbn [f_flags].
    rewrite Z.land_spec, Z.lnot_spec by lia.
    replace (Z.testbit O_NONBLOCK 11) with true by reflexivity.
    apply andb_false_r.
Qed.

Lemma resolve_result_waits_when_empty_witness :
  exists w',
    resolve_result polled_world = Blocked w'
    /\ nonblocking w' (_fdres polled_world) = false
    /\ w' = with_files
              (<[_fdres polled_world :=
                   File 5 false (Z.land (nonblock_on O_RDONLY) (Z.lnot O_NONBLOCK))]>
                 (files polled_world)) polled_world.
Proof.
  apply (resolve_result_waits_when_empty polled_world 5 (nonblock_on O_RDONLY)).
  - vm_compute. reflexivity.
  - vm_compute. reflexivity.
Defined.

Lemma ai_list_grows (h h' : gmap Z (list byte)) p l :
  ai_list h p l ->
  (forall a blk, h !! a = Some blk -> h' !! a = Some blk) ->
  ai_list h' p l.
Proof.
  intros Hl Hsub. induction Hl as [|p st blob l Hp Hst Hlen Hblob Hl IH].
  - constructor.
  - constructor; [exact Hp | apply Hsub; exact Hst | exact Hlen
                  | apply Hsub; exact Hblob | exact IH].
Qed.

(** X18. [resolve_result] only ever adds to the caller's memory: every
    block in use before the call holds the same bytes after it, so a list
    an earlier call returned is still the same list, record for record. *)
Theorem earlier_lists_survive (w : world) qb fl ptr recs rest p l :
  files w !! _fdres w = Some (File qb false fl) ->
  pipes w !! qb = Some (response_frame ptr recs ++ rest) ->
  length ptr = 8%nat ->
  Forall wire_ok recs ->
  Z.of_nat (length recs) < 2 ^ 64 ->
  heap_ok w ->
  brk w + heap_need recs <= heap_end w ->
  ai_list (heap w) p l ->
  exists r w',
    resolve_result w = Ret r w'
    /\ (forall a blk, heap w !! a = Some blk -> heap w' !! a = Some blk)
    /\ ai_list (heap w') p l
    /\ (forall x, In x l.*1 -> snd r <> x).
Proof.
  intros Hf Hp Hptr Hrecs Hlen Hheap Hroom Hl.
  eexists _, _. split.
  { apply (resolve_result_ok w qb fl ptr recs rest); assumption. }
  destruct Hheap as (Hbrk & Hend & Hbelow).
  assert (Hsub : forall a blk, heap w !! a = Some blk ->
                   built (brk w) recs (heap w) !! a = Some blk).
  { intros a blk Ha. rewrite built_below; [exact Ha|].
    apply Hbelow. rewrite Ha. eauto. }
  wsimpl. split; [exact Hsub|]. split.
  - apply ai_list_grows with (h := heap w); [exact Hl | exact Hsub].
  - intros x Hx. cbn [snd].
    assert (Hlt : x < brk w /\ x <> 0).
    { clear -Hl Hx Hbelow. induction Hl as [|q st blob l Hq Hst Hlen Hblob Hl IH].
      - destruct Hx.
      - cbn [fmap list_fmap fst In] in Hx. destruct Hx as [<-|Hx].
        + split; [apply Hbelow; rewrite Hst; eauto | exact Hq].
        + apply IH. exact Hx. }
    unfold first_addr. destruct recs; lia.
Qed.

Lemma refilled_world_heap :
  heap refilled_world
  = built 4096 (on_wire <$> [sample_node Byte.x01 28672; sample_node Byte.x02 0]) ∅
  /\ brk refilled_world = 4224 /\ heap_end refilled_world = 65536.
Proof. repeat split; vm_compute; reflexivity. Qed.

Lemma refilled_world_heap_ok : heap_ok refilled_world.
Proof.
  destruct refilled_world_heap as (Hh & Hb & He).
  unfold heap_ok. rewrite Hh, Hb, He. split; [lia|]. split; [lia|].
  intros a Ha. apply built_dom in Ha. destruct Ha as [[x Hx]|Ha].
  - rewrite lookup_empty in Hx. discriminate.
  - change (heap_need (on_wire <$> [sample_node Byte.x01 28672; sample_node Byte.x02 0]))
      with 128 in Ha. lia.
Qed.

Lemma earlier_lists_survive_witness :
  exists r w',
    resolve_result refilled_world = Ret r w'
    /\ (forall a blk, heap refilled_world !! a = Some blk -> heap w' !! a = Some blk)
    /\ ai_list (heap w') 4096
         (linked 4096 (on_wire <$> [sample_node Byte.x01 28672; sample_node Byte.x02 0]))
    /\ (forall x,
          In x (linked 4096
                  (on_wire <$> [sample_node Byte.x01 28672; sample_node Byte.x02 0])).*1 ->
          snd r <> x).
Proof.
  apply (earlier_lists_survive refilled_world 5 (nonblock_on O_RDONLY) (word_bytes 2)
           (on_wire <$> [sample_node Byte.x01 28672; sample_node Byte.x02 0]) []
           4096
           (linked 4096 (on_wire <$> [sample_node Byte.x01 28672; sample_node Byte.x02 0]))).
  - vm_compute. reflexivity.
  - vm_compute. reflexivity.
  - reflexivity.
  - exact sample_records_ok.
  - vm_compute. reflexivity.
  - exact refilled_world_heap_ok.
  - vm_compute. discriminate.
  - destruct refilled_world_heap as (Hh & _). rewrite Hh.
    change 4096 with
      (first_addr 4096
         (on_wire <$> [sample_node Byte.x01 28672; sample_node Byte.x02 0])) at 2.
    apply (built_ai_list
             (on_wire <$> [sample_node Byte.x01 28672; sample_node Byte.x02 0])
             4096 ∅); [lia | vm_compute; discriminate | exact sample_records_ok].
Defined.

(** The two lists of that run, side by side in the caller's heap. *)
Example two_lists_in_the_heap :
  match resolve_result refilled_world with
  | Ret r w =>
      fst r = 2 /\ snd r = 4224
      /\ (fun l => l.*1) <$> ai_walk 4 (heap w) 4096 = Some [4096; 4160]
      /\ (fun l => l.*1) <$> ai_walk 4 (heap w) 4224 = Some [4224; 4288]
  | _ => False
  end.
Proof. vm_compute. repeat split; reflexivity. Qed.

(** ** Every request gets its answer *)










(** * [pnghash.c] *)

(** ** [hamming] *)

Lemma land_shiftr_1 r k : 0 <= k -> Z.land (Z.shiftr r k) 1 = Z.b2z (Z.testbit r k).
Proof.
  intros Hk. change 1 with (Z.ones 1).
  rewrite Z.land_ones by lia. rewrite Z.shiftr_div_pow2 by exact Hk.
  rewrite Z.testbit_spec' by exact Hk. reflexivity.
Qed.

Lemma differing_nonneg i j ks : 0 <= differing i j ks <= Z.of_nat (length ks).
Proof.
  unfold differing.
  pose proof (length_filter
                (fun k => xorb (Z.testbit i k) (Z.testbit j k) = true) ks).
  lia.
Qed.

Lemma differing_cons i j k ks :
  differing i j (k :: ks)
  = Z.b2z (xorb (Z.testbit i k) (Z.testbit j k)) + differing i j ks.
Proof.
  unfold differing. rewrite filter_cons.
  destruct (decide (xorb (Z.testbit i k) (Z.testbit j k) = true)) as [E|E].
  - rewrite E. cbn [length Z.b2z]. lia.
  - apply not_true_is_false in E. rewrite E. cbn [Z.b2z]. lia.
Qed.

(** The loop of [hamming] from any point on: the counter grows by the
    number of positions still to come where the bits differ. *)
Lemma hamming_loop_counts i j ks : forall c,
  Forall (fun k => 0 <= k) ks ->
  0 <= c -> c + Z.of_nat (length ks) < 2 ^ 64 ->
  foldl (fun c k => wrap64 (c + Z.land (Z.shiftr (Z.lxor i j) k) 1)) c ks
  = c + differing i j ks.
Proof.
  induction ks as [|k ks IH]; intros c Hks Hc Hlen.
  - cbn [foldl]. unfold differing. cbn. lia.
  - inversion Hks as [|? ? Hk Hks']; subst.
    cbn [foldl length] in *. rewrite differing_cons.
    rewrite land_shiftr_1 by exact Hk. rewrite Z.lxor_spec.
    assert (Hb : 0 <= Z.b2z (xorb (Z.testbit i k) (Z.testbit j k)) <= 1)
      by (destruct (xorb _ _); cbn; lia).
    rewrite wrap64_small by lia.
    rewrite IH by (assumption || lia). lia.
Qed.

Lemma seqZ_64_nonneg : Forall (fun k => 0 <= k) (seqZ 0 64).
Proof. apply Forall_seqZ. intros k Hk. lia. Qed.

(** X20. [hamming(i, j)] is the number of bit positions from 0 to 63 at
    which [i] and [j] differ; the 64-bit counter never wraps. *)
Theorem hamming_counts_differing_bits i j :
  hamming i j = differing i j (seqZ 0 64).
Proof.
  unfold hamming.
  rewrite hamming_loop_counts; [lia | exact seqZ_64_nonneg | lia |].
  rewrite length_seqZ. cbn. lia.
Qed.

Lemma differing_triangle i j k ks :
  differing i k ks <= differing i j ks + differing j k ks.
Proof.
  induction ks as [|x ks IH].
  - unfold differing. cbn. lia.
  - rewrite !differing_cons.
    destruct (Z.testbit i x), (Z.testbit j x), (Z.testbit k x); cbn; lia.
Qed.

Lemma differing_zero i j ks :
  differing i j ks = 0 ->
  forall k, k ∈ ks -> Z.testbit i k = Z.testbit j k.
Proof.
  induction ks as [|x ks IH]; intros H k Hk.
  - apply elem_of_nil in Hk. destruct Hk.
  - rewrite differing_cons in H.
    pose proof (differing_nonneg i j ks) as Hn.
    apply elem_of_cons in Hk. destruct Hk as [->|Hk].
    + destruct (Z.testbit i x), (Z.testbit j x); cbn in H; (reflexivity || lia).
    + apply IH; [|exact Hk].
      destruct (xorb (Z.testbit i x) (Z.testbit j x)); cbn in H; lia.
Qed.

Lemma differing_same i ks : differing i i ks = 0.
Proof.
  induction ks as [|x ks IH]; [reflexivity|].
  rewrite differing_cons, IH, xorb_nilpotent. reflexivity.
Qed.

Lemma testbit_high_64 i k : 0 <= i < 2 ^ 64 -> 64 <= k -> Z.testbit i k = false.
Proof.
  intros Hi Hk. rewrite <- (Z.mod_small i (2 ^ 64)) by exact Hi.
  apply Z.mod_pow2_bits_high. lia.
Qed.

(** X21. On 64-bit words [hamming] is a distance: it is symmetric, at most
    64, zero exactly between a word and itself, and obeys the triangle
    inequality. *)
Theorem hamming_is_a_distance i j k :
  0 <= i < 2 ^ 64 -> 0 <= j < 2 ^ 64 ->
  hamming i j = hamming j i
  /\ 0 <= hamming i j <= 64
  /\ (hamming i j = 0 <-> i = j)
  /\ hamming i k <= hamming i j + hamming j k.
Proof.
  intros Hi Hj.
  assert (E : forall a b, hamming a b = differing a b (seqZ 0 64)).
  { intros a b. unfold hamming.
    rewrite hamming_loop_counts; [lia | exact seqZ_64_nonneg | lia |].
    rewrite length_seqZ. cbn. lia. }
  split; [unfold hamming; rewrite Z.lxor_comm; reflexivity|].
  rewrite !E. split.
  { pose proof (differing_nonneg i j (seqZ 0 64)) as H.
    rewrite length_seqZ in H. cbn in H. lia. }
  split; [|apply differing_triangle].
  split.
  - intros H. apply Z.bits_inj'. intros n Hn.
    destruct (Z.lt_ge_cases n 64) as [Hlt|Hge].
    + apply (differing_zero i j (seqZ 0 64) H). apply elem_of_seqZ. lia.
    + rewrite !testbit_high_64 by assumption. reflexivity.
  - intros ->. apply differing_same.
Qed.

Lemma hamming_is_a_distance_witness :
  hamming 5 12 = hamming 12 5
  /\ 0 <= hamming 5 12 <= 64
  /\ (hamming 5 12 = 0 <-> 5 = 12)
  /\ hamming 5 255 <= hamming 5 12 + hamming 12 255.
Proof.
  apply (hamming_is_a_distance 5 12 255); lia.
Defined.

(** ** [xread] *)

Lemma xread_again_retried e : xread_again (-1) (Some e) = retried e.
Proof. reflexivity. Qed.

(** X22. [xread] tries again after the errors its loop condition names,
    which are all but [EAGAIN] and [EINTR], and returns after the first
    [read] that succeeds with whatever that call gave: a short read, or
    none at end of file, is handed to the caller as if the buffer were
    full, and what follows stays unread. *)
Theorem xread_returns_after_first_read fd (buf : list byte) sz errs data rest :
  forallb retried errs = true ->
  (length data <= length buf)%nat ->
  xread script_read (S (length errs)) fd buf sz
        ((RdErr <$> errs) ++ RdGot data :: rest)
  = Ret (data ++ drop (length data) buf) rest.
Proof.
  intros Herrs Hlen. unfold xread.
  induction errs as [|e errs IH].
  - cbn [fmap list_fmap app length xread_loop script_read].
    rewrite store_0 by exact Hlen.
    unfold xread_again, xread_exit.
    destruct (Z.of_nat (length data)) as [|n|n] eqn:E; try lia;
      cbn [Z.ltb Z.compare Z.eqb andb];
      [reflexivity | destruct (wrap64 _ =? 0); reflexivity].
  - cbn [forallb] in Herrs. apply andb_prop in Herrs. destruct Herrs as [He Herrs].
    cbn [fmap list_fmap app length]. cbn [xread_loop script_read].
    rewrite xread_again_retried, He. apply IH. exact Herrs.
Qed.

Lemma xread_returns_after_first_read_witness :
  xread script_read (S (length [EIO; EBADF])) 3 (zeros 8) 8
        ((RdErr <$> [EIO; EBADF]) ++ RdGot [Byte.x89] :: [RdGot [Byte.x50]])
  = Ret ([Byte.x89] ++ drop (length [Byte.x89]) (zeros 8)) [RdGot [Byte.x50]].
Proof.
  apply (xread_returns_after_first_read 3 (zeros 8) 8 [EIO; EBADF] [Byte.x89]
           [RdGot [Byte.x50]]).
  - reflexivity.
  - cbn. lia.
Defined.

(** X23. An interrupted [read], or one that would block, is what a reader
    tries again; [xread] does the opposite and ends the process with "error
    while reading" on [EINTR] and on [EAGAIN], with the buffer as it was. *)
Theorem xread_fatal_when_interrupted fd (buf : list byte) sz errs e rest :
  forallb retried errs = true ->
  e = EINTR \/ e = EAGAIN ->
  xread script_read (S (length errs)) fd buf sz
        ((RdErr <$> errs) ++ RdErr e :: rest)
  = Fatal "error while reading" rest.
Proof.
  intros Herrs He. unfold xread.
  induction errs as [|x errs IH].
  - cbn [fmap list_fmap app length xread_loop script_read].
    destruct He as [-> | ->]; reflexivity.
  - cbn [forallb] in Herrs. apply andb_prop in Herrs. destruct Herrs as [Hx Herrs].
    cbn [fmap list_fmap app length]. cbn [xread_loop script_read].
    rewrite xread_again_retried, Hx. apply IH. exact Herrs.
Qed.

Lemma xread_fatal_when_interrupted_witness :
  xread script_read (S (length [EIO])) 3 (zeros 8) 8
        ((RdErr <$> [EIO]) ++ RdErr EINTR :: [RdGot [Byte.x89]])
  = Fatal "error while reading" [RdGot [Byte.x89]].
Proof.
  apply (xread_fatal_when_interrupted 3 (zeros 8) 8 [EIO] EINTR [RdGot [Byte.x89]]).
  - reflexivity.
  - left. reflexivity.
Defined.

(** X24. While [read] keeps failing with an error other than those two,
    [xread] keeps calling it: on a descriptor that is not open it neither
    returns nor reports, however long it is given. *)
Theorem xread_spins_on_closed_descriptor (w : world) fd (buf : list byte) sz :
  files w !! fd = None ->
  forall fuel, xread pipe_read fuel fd buf sz w = OutOfFuel.
Proof.
  intros Hf fuel. unfold xread. generalize 0 at 1.
  induction fuel as [|fuel IH]; intros p; [reflexivity|].
  cbn [xread_loop]. unfold pipe_read. rewrite Hf.
  rewrite xread_again_retried. cbn [retried errno_is negb andb]. apply IH.
Qed.

Lemma xread_spins_on_closed_descriptor_witness :
  xread pipe_read 100 9 (zeros 8) 8 started_world = OutOfFuel.
Proof.
  apply (xread_spins_on_closed_descriptor started_world 9 (zeros 8) 8).
  vm_compute. reflexivity.
Defined.

(** ** [dhash] and [ahash] *)

Lemma testbit_shift_in r b n :
  0 <= n ->
  Z.testbit (shift_in r b) n
  = if n =? 0 then b else (n <? 64) && Z.testbit r (n - 1).
Proof.
  intros Hn. unfold shift_in, wrap64.
  rewrite Z.lor_spec, Z.testbit_mod_pow2 by lia.
  rewrite Z.shiftl_spec by exact Hn.
  destruct (Z.eqb_spec n 0) as [->|Hne].
  - rewrite (Z.testbit_neg_r r) by lia.
    rewrite andb_false_r. destruct b; reflexivity.
  - replace (Z.testbit (if b then 1 else 0) n) with false.
    + apply orb_false_r.
    + destruct b; [|rewrite Z.bits_0; reflexivity].
      change 1 with (2 ^ 0). rewrite Z.pow2_bits_eqb by lia.
      symmetry. apply Z.eqb_neq. lia.
Qed.

Lemma shift_in_nonneg r b : 0 <= shift_in r b.
Proof.
  unfold shift_in, wrap64. apply Z.lor_nonneg. split.
  - apply Z.mod_pos_bound. lia.
  - destruct b; lia.
Qed.

(** The bits shifted in, last first, are the low bits of the result. *)
Lemma testbit_packed (bits : list bool) :
  (length bits <= 64)%nat ->
  forall n : nat,
    Z.testbit (foldl shift_in 0 bits) (Z.of_nat n)
    = default false (reverse bits !! n).
Proof.
  induction bits as [|b bits IH] using rev_ind; intros Hlen n.
  - cbn [foldl]. rewrite Z.bits_0. reflexivity.
  - rewrite foldl_app. cbn [foldl]. rewrite reverse_snoc.
    rewrite length_app in Hlen. cbn [length] in Hlen.
    rewrite testbit_shift_in by lia.
    destruct n as [|n]; [reflexivity|].
    destruct (Z.eqb_spec (Z.of_nat (S n)) 0) as [E|_]; [lia|].
    replace (Z.of_nat (S n) - 1) with (Z.of_nat n) by lia.
    rewrite IH by lia.
    change ((b :: reverse bits) !! S n) with (reverse bits !! n).
    destruct (Z.ltb_spec (Z.of_nat (S n)) 64) as [_|Hge]; [reflexivity|].
    cbn [andb]. rewrite lookup_ge_None_2; [reflexivity|].
    rewrite length_reverse. lia.
Qed.

Lemma packed_range (bits : list bool) :
  (length bits <= 64)%nat -> 0 <= foldl shift_in 0 bits < 2 ^ 64.
Proof.
  intros Hlen.
  assert (H0 : 0 <= foldl shift_in 0 bits).
  { destruct bits as [|b bits] using rev_ind; [cbn; lia|].
    rewrite foldl_app. apply shift_in_nonneg. }
  split; [exact H0|].
  assert (E : foldl shift_in 0 bits mod 2 ^ 64 = foldl shift_in 0 bits);
    [|pose proof (Z.mod_pos_bound (foldl shift_in 0 bits) (2 ^ 64)); lia].
  apply Z.bits_inj'. intros n Hn.
  rewrite Z.testbit_mod_pow2 by lia.
  destruct (Z.ltb_spec n 64) as [_|Hge]; [reflexivity|].
  cbn [andb]. symmetry.
  rewrite <- (Z2Nat.id n) by lia. rewrite testbit_packed by exact Hlen.
  rewrite lookup_ge_None_2; [reflexivity|]. rewrite length_reverse. lia.
Qed.

Lemma px_at_in (px : list byte) off :
  0 <= off < Z.of_nat (length px) -> is_Some (px_at px off).
Proof.
  intros H. unfold px_at.
  destruct (Z.ltb_spec off 0) as [E|_]; [lia|].
  destruct (lookup_lt_is_Some_2 px (Z.to_nat off)) as [b Hb]; [lia|].
  rewrite Hb. eauto.
Qed.

Lemma dhash_turns (px : list byte) offs :
  Forall (fun off => is_Some (px_at px off)
                     /\ is_Some (px_at px (wrap32 (off + 1)))) offs ->
  forall r,
    foldl (dhash_turn px) (Some r) offs
    = Some (foldl shift_in r
              ((fun off => darker px off (wrap32 (off + 1))) <$> offs)).
Proof.
  induction 1 as [|off offs [[a Ha] [b Hb]] _ IH]; intros r; [reflexivity|].
  cbn [foldl fmap list_fmap]. rewrite <- IH. f_equal.
  unfold dhash_turn, darker. cbn [mbind option_bind]. rewrite Ha, Hb. reflexivity.
Qed.

Lemma dhash_loop_flat (px : list byte) :
  dhash_loop px = foldl (dhash_turn px) (Some 0) (grid 9).
Proof. reflexivity. Qed.

Lemma grid_9_bounds :
  Forall (fun off => 0 <= off /\ wrap32 (off + 1) = off + 1 /\ off + 1 < 72) (grid 9).
Proof.
  assert (H : forallb (fun off => (0 <=? off) && (wrap32 (off + 1) =? off + 1)
                                  && (off + 1 <? 72)) (grid 9) = true)
    by (vm_compute; reflexivity).
  rewrite forallb_forall in H. apply Forall_forall. intros off Hoff.
  apply list_elem_of_In in Hoff. specialize (H off Hoff).
  apply andb_prop in H. destruct H as [H H3].
  apply andb_prop in H. destruct H as [H1 H2]. lia.
Qed.

Lemma grid_9_lookup i j :
  0 <= i < 8 -> 0 <= j < 8 ->
  grid 9 !! Z.to_nat (8 * i + j) = Some (9 * i + j).
Proof.
  intros Hi Hj.
  assert (Ei : i = 0 \/ i = 1 \/ i = 2 \/ i = 3 \/ i = 4 \/ i = 5 \/ i = 6 \/ i = 7)
    by lia.
  assert (Ej : j = 0 \/ j = 1 \/ j = 2 \/ j = 3 \/ j = 4 \/ j = 5 \/ j = 6 \/ j = 7)
    by lia.
  repeat (destruct Ei as [->|Ei]); try subst i;
    repeat (destruct Ej as [->|Ej]); try subst j; reflexivity.
Qed.

Lemma length_grid w : length (grid w) = 64%nat.
Proof. reflexivity. Qed.

(** X25. [dhash] on an image: with the 72 gray pixels [gray_and_resize]
    hands over, it returns 0 with a 64-bit hash whose bits, from the top
    down, tell for each row and each of its first eight pixels whether the
    pixel is darker than its right neighbour. That holds when the local [px],
    which [dhash] never sets and [gray_and_resize] tests, is not NULL; when
    it is NULL the call ends the process, whatever the image. *)
Theorem dhash_compares_neighbours {png : Type}
        (resample : png -> Z -> Z -> option (list byte)) img px px0 :
  resample img 9 8 = Some px ->
  length px = 72%nat ->
  dhash resample (Some img) true 0 tt
  = Fatal "error while graying/resizing pixels" tt
  /\ (px0 <> 0 ->
      exists h,
        dhash resample (Some img) true px0 tt = Ret (0, Some h) tt
        /\ 0 <= h < 2 ^ 64
        /\ forall i j, 0 <= i < 8 -> 0 <= j < 8 ->
             Z.testbit h (63 - (8 * i + j))
             = darker px (9 * i + j) (9 * i + j + 1)).
Proof.
  intros Hpx Hlen. split; [reflexivity|]. intros Hp0.
  assert (Hin : Forall (fun off => is_Some (px_at px off)
                                   /\ is_Some (px_at px (wrap32 (off + 1))))
                       (grid 9)).
  { eapply Forall_impl; [exact grid_9_bounds|].
    intros off (H0 & Hw & H1). cbv beta. rewrite Hw.
    split; apply px_at_in; lia. }
  set (bits := (fun off => darker px off (wrap32 (off + 1))) <$> grid 9).
  assert (Hbits : length bits = 64%nat) by (subst bits; rewrite length_fmap; reflexivity).
  exists (foldl shift_in 0 bits). split; [|split].
  - unfold dhash, gray_and_resize.
    rewrite bool_decide_eq_true_2 by eauto. cbn [negb orb].
    destruct (Z.eqb_spec px0 0) as [E|_]; [contradiction|].
    rewrite Hpx, dhash_loop_flat, (dhash_turns px (grid 9) Hin). reflexivity.
  - apply packed_range. lia.
  - intros i j Hi Hj.
    replace (63 - (8 * i + j)) with (Z.of_nat (63 - Z.to_nat (8 * i + j))) by lia.
    rewrite testbit_packed by lia.
    rewrite reverse_lookup by lia. rewrite Hbits.
    replace (64 - S (63 - Z.to_nat (8 * i + j)))%nat with (Z.to_nat (8 * i + j)) by lia.
    subst bits. rewrite list_lookup_fmap, (grid_9_lookup i j Hi Hj).
    cbn [fmap option_fmap option_map default].
    pose proof grid_9_bounds as Hb. rewrite Forall_lookup in Hb.
    destruct (Hb _ _ (grid_9_lookup i j Hi Hj)) as (_ & -> & _). reflexivity.
Qed.

Lemma dhash_compares_neighbours_witness :
  dhash (fun (_ : unit) _ _ => Some ramp_px) (Some tt) true 0 tt
  = Fatal "error while graying/resizing pixels" tt
  /\ (4096 <> 0 ->
      exists h,
        dhash (fun (_ : unit) _ _ => Some ramp_px) (Some tt) true 4096 tt
        = Ret (0, Some h) tt
        /\ 0 <= h < 2 ^ 64
        /\ forall i j, 0 <= i < 8 -> 0 <= j < 8 ->
             Z.testbit h (63 - (8 * i + j))
             = darker ramp_px (9 * i + j) (9 * i + j + 1)).
Proof.
  apply (dhash_compares_neighbours (fun (_ : unit) _ _ => Some ramp_px) tt
           ramp_px 4096).
  - reflexivity.
  - reflexivity.
Defined.

Example dhash_of_ramp :
  dhash (fun (_ : unit) _ _ => Some ramp_px) (Some tt) true 4096 tt
  = Ret (0, Some (2 ^ 64 - 1)) tt.
Proof. vm_compute. reflexivity. Qed.

Lemma pixel_sum_snoc (l : list byte) b :
  pixel_sum (l ++ [b]) = pixel_sum l + byte.unsigned b.
Proof.
  unfold pixel_sum. induction l as [|x l IH]; cbn [app foldr]; [lia|].
  rewrite IH. lia.
Qed.

Lemma pixel_sum_bounds (l : list byte) :
  0 <= pixel_sum l <= 255 * Z.of_nat (length l).
Proof.
  unfold pixel_sum. induction l as [|x l IH]; cbn [foldr length]; [lia|].
  pose proof (byte.unsigned_range x). lia.
Qed.

(** The first two loops of [ahash] add up the pixels; the 32-bit sum does
    not wrap. *)
Lemma ahash_sums (px : list byte) : forall n : nat,
  (n <= length px)%nat -> (n <= 64)%nat ->
  foldl (ahash_sum_turn px) (Some 0) (seqZ 0 (Z.of_nat n))
  = Some (pixel_sum (take n px)).
Proof.
  induction n as [|n IH]; intros Hn H64; [reflexivity|].
  rewrite seqZ_S, foldl_app, IH by lia. cbn [foldl].
  destruct (lookup_lt_is_Some_2 px n) as [b Hb]; [lia|].
  rewrite (take_S_r _ _ _ Hb), pixel_sum_snoc.
  unfold ahash_sum_turn, px_at. cbn [mbind option_bind].
  destruct (Z.ltb_spec (0 + Z.of_nat n) 0) as [E|_]; [lia|].
  replace (Z.to_nat (0 + Z.of_nat n)) with n by lia.
  rewrite Hb. cbn [fmap option_fmap option_map mbind option_bind].
  pose proof (pixel_sum_bounds (take n px)) as Hs. rewrite length_take in Hs.
  pose proof (byte.unsigned_range b).
  unfold wrap32. rewrite Z.mod_small by lia. reflexivity.
Qed.

Lemma ahash_turns (px : list byte) mc offs :
  Forall (fun off => is_Some (px_at px off)) offs ->
  forall r,
    foldl (ahash_turn px mc) (Some r) offs
    = Some (foldl shift_in r (under px mc <$> offs)).
Proof.
  induction 1 as [|off offs [a Ha] _ IH]; intros r; [reflexivity|].
  cbn [foldl fmap list_fmap]. rewrite <- IH. f_equal.
  unfold ahash_turn, under. cbn [mbind option_bind]. rewrite Ha. reflexivity.
Qed.

Lemma ahash_loop_flat (px : list byte) :
  ahash_loop px
  = mc ← foldl (ahash_sum_turn px) (Some 0) (seqZ 0 (Z.of_nat 64));
    foldl (ahash_turn px (mc / 64)) (Some 0) (seqZ 0 64).
Proof. reflexivity. Qed.

Lemma px_at_seqZ (px : list byte) :
  length px = 64%nat -> Forall (fun off => is_Some (px_at px off)) (seqZ 0 64).
Proof.
  intros Hlen. apply Forall_seqZ. intros off Hoff. apply px_at_in. lia.
Qed.

Lemma pixel_sum_below (l : list byte) m :
  Forall (fun b => byte.unsigned b < m) l ->
  pixel_sum l <= (m - 1) * Z.of_nat (length l).
Proof.
  unfold pixel_sum. induction 1 as [|x l Hx _ IH]; cbn [foldr length]; lia.
Qed.

Lemma pixel_sum_flat (l : list byte) v :
  Forall (fun b => byte.unsigned b = v) l ->
  pixel_sum l = v * Z.of_nat (length l).
Proof.
  unfold pixel_sum. induction 1 as [|x l Hx _ IH]; cbn [foldr length]; lia.
Qed.

(** X26. [ahash] on an image: with the 64 gray pixels [gray_and_resize]
    hands over, and the local [px] not NULL by chance, it returns 0 with a
    64-bit hash whose bits, from the top down, tell for each pixel in
    reading order whether it is darker than the mean of all 64, rounded
    down. Some pixel is not, so the hash is never all ones; and an image of
    one shade hashes to 0. *)
Theorem ahash_compares_with_mean {png : Type}
        (resample : png -> Z -> Z -> option (list byte)) img px px0 :
  resample img 8 8 = Some px ->
  length px = 64%nat ->
  px0 <> 0 ->
  exists h,
    ahash resample (Some img) true px0 tt = Ret (0, Some h) tt
    /\ 0 <= h < 2 ^ 64
    /\ (forall n, 0 <= n < 64 ->
          Z.testbit h (63 - n) = under px (mean_color px) n)
    /\ h <> 2 ^ 64 - 1
    /\ (forall v, Forall (fun b => byte.unsigned b = v) px -> h = 0).
Proof.
  intros Hpx Hlen Hp0.
  set (bits := under px (mean_color px) <$> seqZ 0 64).
  assert (Hbits : length bits = 64%nat) by (subst bits; rewrite length_fmap; reflexivity).
  assert (Hbit : forall n, 0 <= n < 64 ->
            Z.testbit (foldl shift_in 0 bits) (63 - n)
            = under px (mean_color px) n).
  { intros n Hn.
    replace (63 - n) with (Z.of_nat (63 - Z.to_nat n)) by lia.
    rewrite testbit_packed by lia.
    rewrite reverse_lookup by lia. rewrite Hbits.
    replace (64 - S (63 - Z.to_nat n))%nat with (Z.to_nat n) by lia.
    subst bits. rewrite list_lookup_fmap, lookup_seqZ_lt by lia.
    cbn [fmap option_fmap option_map default]. unfold id. f_equal. lia. }
  pose proof (packed_range bits) as Hrange.
  exists (foldl shift_in 0 bits). split; [|split; [|split; [|split]]].
  - unfold ahash, gray_and_resize.
    rewrite bool_decide_eq_true_2 by eauto. cbn [negb orb].
    destruct (Z.eqb_spec px0 0) as [E|_]; [contradiction|].
    rewrite Hpx, ahash_loop_flat, ahash_sums by lia.
    cbn [mbind option_bind].
    rewrite <- Hlen, firstn_all.
    rewrite (ahash_turns px _ _ (px_at_seqZ px Hlen)). reflexivity.
  - apply Hrange. lia.
  - exact Hbit.
  - intros Hall.
    assert (Hlow : Forall (fun b => byte.unsigned b < mean_color px) px).
    { apply Forall_lookup. intros n b Hb.
      apply lookup_lt_Some in Hb as Hn.
      specialize (Hbit (Z.of_nat n)). rewrite Hall in Hbit.
      change (2 ^ 64 - 1) with (Z.ones 64) in Hbit.
      rewrite Z.ones_spec_low in Hbit by lia.
      unfold under, px_at in Hbit.
      destruct (Z.ltb_spec (Z.of_nat n) 0) as [E|_]; [lia|].
      rewrite Nat2Z.id, Hb in Hbit. cbn in Hbit.
      symmetry in Hbit. apply Z.ltb_lt. apply Hbit. lia. }
    apply pixel_sum_below in Hlow. rewrite Hlen in Hlow.
    unfold mean_color in Hlow.
    pose proof (Z.mul_div_le (pixel_sum px) 64). lia.
  - intros v Hflat.
    assert (Hmean : mean_color px = v).
    { unfold mean_color. rewrite (pixel_sum_flat px v Hflat), Hlen.
      apply Z.div_mul. lia. }
    apply Z.bits_inj'. intros n Hn. rewrite Z.bits_0.
    destruct (Z.lt_ge_cases n 64) as [Hlt|Hge].
    + replace n with (63 - (63 - n)) by lia. rewrite Hbit by lia.
      unfold under. destruct (px_at px (63 - n)) as [a|] eqn:Ha; [|reflexivity].
      unfold px_at in Ha. destruct (63 - n <? 0); [discriminate|].
      destruct (px !! Z.to_nat (63 - n)) as [b|] eqn:Hb; [|discriminate].
      rewrite Forall_lookup in Hflat. specialize (Hflat _ _ Hb).
      cbn in Ha. inversion Ha. subst a. rewrite Hmean, Hflat. apply Z.ltb_irrefl.
    + rewrite <- (Z.mod_small (foldl shift_in 0 bits) (2 ^ 64)) by (apply Hrange; lia).
      apply Z.mod_pow2_bits_high. lia.
Qed.

Lemma ahash_compares_with_mean_witness :
  exists h,
    ahash (fun (_ : unit) _ _ => Some flat_px) (Some tt) true 4096 tt
    = Ret (0, Some h) tt
    /\ 0 <= h < 2 ^ 64
    /\ (forall n, 0 <= n < 64 ->
          Z.testbit h (63 - n) = under flat_px (mean_color flat_px) n)
    /\ h <> 2 ^ 64 - 1
    /\ (forall v, Forall (fun b => byte.unsigned b = v) flat_px -> h = 0).
Proof.
  apply (ahash_compares_with_mean (fun (_ : unit) _ _ => Some flat_px) tt
           flat_px 4096).
  - reflexivity.
  - reflexivity.
  - lia.
Defined.
